(** * N-Queens visualizer: the backtracking engines and their traces

    Shallow embedding of the search code of the visualizer:

    - [solveNQueensArray], [solveNQueensBitmask], [countSolutionsArray],
      [countSolutionsBitmask]   (src/App.jsx, module [Gen] below);
    - [computeTraceSteps]        (the trace component, module [Trace]).

    A generator is modelled by the list of the values it yields when it is
    driven to completion.  The board is one mutable array shared by all the
    activations of [backtrack]; here it is threaded through the calls
    (explicit state passing) and every event carries the copy taken by
    [board.slice()] / [[...board]] at the instant it is produced. *)

From Stdlib Require Import ZArith List Bool Lia Permutation Sorted.
Import ListNotations.
Local Open Scope Z_scope.

(* ================================================================== *)
(** ** JavaScript values and operators used by the code *)

Module Js.

(** Outcome of a call: normal completion, or an exception.  The only
    exception the search code can raise is the [RangeError] of the array
    constructor. *)
Inductive error := RangeError.

Inductive completion (A : Type) :=
| Normal (a : A)
| Throw (e : error).
Arguments Normal {A} a.
Arguments Throw {A} e.

Definition cmap {A B} (f : A -> B) (c : completion A) : completion B :=
  match c with
  | Normal a => Normal (f a)
  | Throw e => Throw e
  end.

(** An array element: a number, or [undefined] ([None]); a hole of
    [new Array(n)] reads as [undefined] too. *)
Definition value := option Z.
Definition array := list value.

(** [new Array(len)] / [Array(len)] with one numeric argument: a
    [RangeError] unless [len] is an integer in [0, 2^32 - 1]. *)
Definition new_Array (len : Z) : completion array :=
  if (0 <=? len) && (len <=? 2 ^ 32 - 1)
  then Normal (repeat None (Z.to_nat len))
  else Throw RangeError.

(** [a.fill(v)]. *)
Definition fill (a : array) (v : Z) : array := map (fun _ => Some v) a.

(** [a[i]] for an index [i >= 0]: [undefined] beyond the length. *)
Definition get (a : array) (i : Z) : value := nth (Z.to_nat i) a None.

(** [a[i] = v] for an index [i >= 0]: beyond the length the array is
    extended with holes. *)
Fixpoint set_nat (a : array) (i : nat) (v : value) : array :=
  match a, i with
  | [], O => [v]
  | [], S i' => None :: set_nat [] i' v
  | _ :: t, O => v :: t
  | x :: t, S i' => x :: set_nat t i' v
  end.

Definition set (a : array) (i : Z) (v : value) : array :=
  set_nat a (Z.to_nat i) v.

(** [ToInt32]: the signed 32-bit reading of an integer. *)
Definition ToInt32 (z : Z) : Z := (z + 2 ^ 31) mod 2 ^ 32 - 2 ^ 31.

(** [a << b], [a >> b], [a & b], [a | b], [~a] on integers: operands go
    through [ToInt32], shift counts are taken modulo 32. *)
Definition shl (a b : Z) : Z := ToInt32 (Z.shiftl (ToInt32 a) (b mod 32)).
Definition sar (a b : Z) : Z := Z.shiftr (ToInt32 a) (b mod 32).
Definition band (a b : Z) : Z := Z.land (ToInt32 a) (ToInt32 b).
Definition bor (a b : Z) : Z := Z.lor (ToInt32 a) (ToInt32 b).
Definition bnot (a : Z) : Z := Z.lnot (ToInt32 a).

(** [Math.log2] at the arguments the code gives it: [pick] is always an
    exact power of two ([pick_is_pow2] below), where the result is the
    exponent. *)
Definition log2 (x : Z) : Z := Z.log2 x.

(** The test of the validity scans:
    [board[r] === c || Math.abs(board[r] - c) === d].
    With [board[r]] undefined, [===] is false and the difference is NaN. *)
Definition conflict (v : value) (c d : Z) : bool :=
  match v with
  | Some q => (q =? c) || (Z.abs (q - c) =? d)
  | None => false
  end.

End Js.
Import Js.

(* ================================================================== *)
(** ** src/App.jsx: generators and counters *)

Module Gen.

Inductive action := place | remove | solution.

(** [{ row, col, action, board }]; a "solution" event has no [row]/[col]. *)
Record step := mkStep {
  row : option Z;
  col : option Z;
  act : action;
  board : array
}.

Section WithN.
Variable n : Z.

(** The inner loop of the array strategy:
    [for (let r = 0; r < row; r++) if (...) { valid = false; break; }],
    with [todo] iterations left. *)
Fixpoint scan (b : array) (row col : Z) (todo : nat) (r : Z) : bool :=
  match todo with
  | O => true
  | S todo' =>
      if conflict (get b r) col (row - r) then false
      else scan b row col todo' (r + 1)
  end.

Definition valid (b : array) (row col : Z) : bool :=
  scan b row col (Z.to_nat row) 0.

(** [for (let col = 0; col < n; col++)] of the generator, [todo]
    iterations left; [rec] is [backtrack(row + 1)]. *)
Fixpoint for_col (rec : array -> list step * array) (row : Z)
    (todo : nat) (col : Z) (b : array) : list step * array :=
  match todo with
  | O => ([], b)
  | S todo' =>
      if valid b row col then
        let b1 := set b row (Some col) in
        let e1 := mkStep (Some row) (Some col) place b1 in
        let '(sub, b2) := rec b1 in
        let e2 := mkStep (Some row) (Some col) remove b2 in
        let b3 := set b2 row None in
        let '(rest, b4) := for_col rec row todo' (col + 1) b3 in
        (e1 :: sub ++ e2 :: rest, b4)
      else for_col rec row todo' (col + 1) b
  end.

(** [backtrack(row)] of [solveNQueensArray]; [depth] bounds the nesting
    of the calls ([n - row] is enough, see [backtrack_depth]). *)
Fixpoint backtrack (depth : nat) (row : Z) (b : array) : list step * array :=
  if row =? n then ([mkStep None None solution b], b)
  else match depth with
       | O => ([], b)
       | S depth' => for_col (backtrack depth' (row + 1)) row (Z.to_nat n) 0 b
       end.

(** The generator driven to completion, with the board it leaves. *)
Definition runArray : completion (list step * array) :=
  match new_Array n with
  | Normal b => Normal (backtrack (Z.to_nat n) 0 b)
  | Throw e => Throw e
  end.

Definition solveNQueensArray : completion (list step) := cmap fst runArray.

(** [((1 << n) - 1) & ~(columns | diag1 | diag2)]. *)
Definition available_of (columns diag1 diag2 : Z) : Z :=
  band (shl 1 n - 1) (bnot (bor (bor columns diag1) diag2)).

(** [while (available) { ... }] of the bitmask generator: an int32 has
    at most 32 set bits and every turn clears one, so 32 turns are
    enough ([for_pick_turns]).  [rec pick] is the recursive call. *)
Fixpoint for_pick (rec : Z -> array -> list step * array) (row : Z)
    (turns : nat) (available : Z) (b : array) : list step * array :=
  match turns with
  | O => ([], b)
  | S turns' =>
      if available =? 0 then ([], b)
      else
        let pick := band available (- available) in
        let col := log2 pick in
        let b1 := set b row (Some col) in
        let e1 := mkStep (Some row) (Some col) place b1 in
        let '(sub, b2) := rec pick b1 in
        let e2 := mkStep (Some row) (Some col) remove b2 in
        let b3 := set b2 row None in
        let available' := band available (available - 1) in
        let '(rest, b4) := for_pick rec row turns' available' b3 in
        (e1 :: sub ++ e2 :: rest, b4)
  end.

Fixpoint backtrackBits (depth : nat) (row columns diag1 diag2 : Z)
    (b : array) : list step * array :=
  if row =? n then ([mkStep None None solution b], b)
  else match depth with
       | O => ([], b)
       | S depth' =>
           for_pick
             (fun pick =>
                backtrackBits depth' (row + 1) (bor columns pick)
                  (shl (bor diag1 pick) 1) (sar (bor diag2 pick) 1))
             row 32%nat (available_of columns diag1 diag2) b
       end.

Definition runBitmask : completion (list step * array) :=
  match new_Array n with
  | Normal b => Normal (backtrackBits (Z.to_nat n) 0 0 0 0 b)
  | Throw e => Throw e
  end.

Definition solveNQueensBitmask : completion (list step) := cmap fst runBitmask.

(** [countSolutionsArray]: the state is the counter and the board. *)
Fixpoint count_col (rec : Z * array -> Z * array) (row : Z)
    (todo : nat) (col : Z) (s : Z * array) : Z * array :=
  match todo with
  | O => s
  | S todo' =>
      let '(count, b) := s in
      if valid b row col then
        let '(count1, b2) := rec (count, set b row (Some col)) in
        count_col rec row todo' (col + 1) (count1, set b2 row None)
      else count_col rec row todo' (col + 1) s
  end.

Fixpoint countBacktrack (depth : nat) (row : Z) (s : Z * array) : Z * array :=
  if row =? n then (fst s + 1, snd s)
  else match depth with
       | O => s
       | S depth' =>
           count_col (countBacktrack depth' (row + 1)) row (Z.to_nat n) 0 s
       end.

Definition countSolutionsArray : completion Z :=
  match new_Array n with
  | Normal b => Normal (fst (countBacktrack (Z.to_nat n) 0 (0, b)))
  | Throw e => Throw e
  end.

(** [countSolutionsBitmask]: the state is the counter alone; no array is
    allocated, so the function runs for every [n]. *)
Fixpoint count_pick (rec : Z -> Z -> Z) (turns : nat) (available : Z)
    (count : Z) : Z :=
  match turns with
  | O => count
  | S turns' =>
      if available =? 0 then count
      else
        let pick := band available (- available) in
        let available' := band available (available - 1) in
        count_pick rec turns' available' (rec pick count)
  end.

Fixpoint countBits (depth : nat) (row columns diag1 diag2 : Z) (count : Z) : Z :=
  if row =? n then count + 1
  else match depth with
       | O => count
       | S depth' =>
           count_pick
             (fun pick =>
                countBits depth' (row + 1) (bor columns pick)
                  (shl (bor diag1 pick) 1) (sar (bor diag2 pick) 1))
             32%nat (available_of columns diag1 diag2) count
       end.

(** Nesting never exceeds [n] calls when [n >= 0]; when [n < 0] the test
    [row === n] never succeeds and every level uses up one of at most 31
    mask bits. *)
Definition countSolutionsBitmask : completion Z :=
  Normal (countBits (Z.to_nat (Z.max n 32)) 0 0 0 0 0).

End WithN.

(** Number of events tagged "solution". *)
Definition is_solution (e : step) : bool :=
  match act e with solution => true | _ => false end.

Definition solutions (tr : list step) : list array :=
  map board (filter is_solution tr).

End Gen.

(* ================================================================== *)
(** ** The trace component: computeTraceSteps *)

Module Trace.

Inductive status := attempt | placed | backtrack | solution.

Record candidate := mkCand { col : Z; row : Z }.

(** [{ board, candidate, status }]; [candidate] is [null] on a solution. *)
Record step := mkStep {
  board : array;
  cand : option candidate;
  stat : status
}.

Section WithN.
Variable n : Z.

(** [isSafe(col, row)], [todo] iterations left from [prev]. *)
Fixpoint isSafe_from (b : array) (col row : Z) (todo : nat) (prev : Z) : bool :=
  match todo with
  | O => true
  | S todo' =>
      if conflict (get b prev) row (col - prev) then false
      else isSafe_from b col row todo' (prev + 1)
  end.

Definition isSafe (b : array) (col row : Z) : bool :=
  isSafe_from b col row (Z.to_nat col) 0.

(** The state is [traceSteps] (kept in push order) and the board. *)
Definition state := (list step * array)%type.

Definition push (s : state) (st : status) (c : option candidate) : state :=
  (fst s ++ [mkStep (snd s) c st], snd s).

Definition store (s : state) (i : Z) (v : Z) : state :=
  (fst s, set (snd s) i (Some v)).

(** [for (let row = 0; row < n; row++)] of [solve(col)]. *)
Fixpoint for_row (rec : state -> state) (col : Z)
    (todo : nat) (row : Z) (s : state) : state :=
  match todo with
  | O => s
  | S todo' =>
      let c := Some (mkCand col row) in
      let s1 := push s attempt c in
      if isSafe (snd s1) col row then
        let s2 := push (store s1 col row) placed c in
        let s3 := rec s2 in
        let s4 := push (store s3 col (-1)) backtrack c in
        for_row rec col todo' (row + 1) s4
      else for_row rec col todo' (row + 1) s1
  end.

Fixpoint solve (depth : nat) (col : Z) (s : state) : state :=
  if col =? n then push s solution None
  else match depth with
       | O => s
       | S depth' => for_row (solve depth' (col + 1)) col (Z.to_nat n) 0 s
       end.

Definition runTrace : completion state :=
  match new_Array n with
  | Normal a => Normal (solve (Z.to_nat n) 0 ([], fill a (-1)))
  | Throw e => Throw e
  end.

Definition computeTraceSteps : completion (list step) := cmap fst runTrace.

End WithN.

Definition is_solution (e : step) : bool :=
  match stat e with solution => true | _ => false end.

Definition solutions (tr : list step) : list array :=
  map board (filter is_solution tr).

End Trace.

Definition len {A} (c : completion (list A)) : completion Z :=
  cmap (fun l => Z.of_nat (length l)) c.

(* ================================================================== *)
(** ** Boards as placement prefixes *)

Section Boards.

(** The board while the search is at depth [length qs]: the queens placed
    so far, then the unset marker [d] ([undefined] for the generators,
    [-1] for the trace component) up to length [N]. *)
Definition emb (d : value) (N : nat) (qs : list Z) : array :=
  map Some qs ++ repeat d (N - length qs).

Lemma emb_length d N qs : (length qs <= N)%nat -> length (emb d N qs) = N.
Proof.
  intros H. unfold emb. rewrite length_app, length_map, repeat_length. lia.
Qed.

Lemma new_Array_emb n :
  0 <= n <= 2 ^ 32 - 1 -> new_Array n = Normal (emb None (Z.to_nat n) []).
Proof.
  intros H. unfold new_Array, emb.
  replace (0 <=? n) with true by (symmetry; apply Z.leb_le; lia).
  replace (n <=? 2 ^ 32 - 1) with true by (symmetry; apply Z.leb_le; lia).
  simpl. now rewrite Nat.sub_0_r.
Qed.

Lemma new_Array_throw n :
  ~ 0 <= n <= 2 ^ 32 - 1 -> new_Array n = Throw RangeError.
Proof.
  intros H. unfold new_Array.
  destruct (Z.leb_spec 0 n); destruct (Z.leb_spec n (2 ^ 32 - 1));
    simpl; auto; lia.
Qed.

Lemma fill_repeat N v : fill (repeat None N) v = emb (Some v) N [].
Proof.
  unfold fill, emb. simpl. rewrite Nat.sub_0_r.
  induction N as [|N IH]; simpl; [reflexivity|]. now rewrite IH.
Qed.

Lemma set_nat_middle (l1 l2 : array) x v :
  set_nat (l1 ++ x :: l2) (length l1) v = l1 ++ v :: l2.
Proof. induction l1; simpl; congruence. Qed.

Lemma set_nat_prefix (qs : list Z) (l2 : array) x v :
  set_nat (map Some qs ++ x :: l2) (length qs) v = map Some qs ++ v :: l2.
Proof.
  rewrite <- (length_map Some qs). apply set_nat_middle.
Qed.

Lemma set_emb_push d N qs c :
  (length qs < N)%nat ->
  set (emb d N qs) (Z.of_nat (length qs)) (Some c) = emb d N (qs ++ [c]).
Proof.
  intros H. unfold set, emb. rewrite Nat2Z.id.
  replace (N - length qs)%nat with (S (N - length (qs ++ [c])))
    by (rewrite length_app; simpl; lia).
  simpl repeat. rewrite set_nat_prefix.
  rewrite map_app, <- app_assoc. reflexivity.
Qed.

Lemma set_emb_pop d N qs c :
  (length qs < N)%nat ->
  set (emb d N (qs ++ [c])) (Z.of_nat (length qs)) d = emb d N qs.
Proof.
  intros H. unfold set, emb. rewrite Nat2Z.id.
  rewrite map_app, <- app_assoc. simpl. rewrite set_nat_prefix.
  replace (N - length qs)%nat with (S (N - length (qs ++ [c])))
    by (rewrite length_app; simpl; lia).
  reflexivity.
Qed.

Lemma get_emb d N qs i q :
  nth_error qs i = Some q -> get (emb d N qs) (Z.of_nat i) = Some q.
Proof.
  intros H. unfold get, emb. rewrite Nat2Z.id.
  assert (Hi : (i < length qs)%nat) by (apply nth_error_Some; congruence).
  rewrite app_nth1 by (now rewrite length_map).
  apply nth_error_nth. now rewrite nth_error_map, H.
Qed.

Lemma get_emb_inv d N qs i v :
  (i < length qs)%nat -> get (emb d N qs) (Z.of_nat i) = v ->
  exists q, v = Some q /\ nth_error qs i = Some q.
Proof.
  intros Hi H. destruct (nth_error qs i) as [q|] eqn:E.
  - exists q. split; auto. now rewrite (get_emb d N _ _ _ E) in H.
  - apply nth_error_None in E. lia.
Qed.

(** [c] attacks no queen of [qs] when put on the next line. *)
Definition safe (qs : list Z) (c : Z) : Prop :=
  forall i q, nth_error qs i = Some q ->
    q <> c /\ Z.abs (q - c) <> Z.of_nat (length qs) - Z.of_nat i.

(** Placements built one safe queen at a time, columns below [w]. *)
Inductive ok (w : Z) : list Z -> Prop :=
| ok_nil : ok w []
| ok_snoc qs c : ok w qs -> 0 <= c < w -> safe qs c -> ok w (qs ++ [c]).

Lemma ok_range w qs : ok w qs -> forall q, In q qs -> 0 <= q < w.
Proof.
  induction 1; simpl; intros q Hq; [contradiction|].
  apply in_app_or in Hq. destruct Hq as [Hq|[<-|[]]]; auto.
Qed.

Lemma ok_weaken w w' qs : w <= w' -> ok w qs -> ok w' qs.
Proof. intros Hw. induction 1; constructor; auto; lia. Qed.

Lemma ok_pair w qs :
  ok w qs ->
  forall i j qi qj, (i < j)%nat ->
    nth_error qs i = Some qi -> nth_error qs j = Some qj ->
    qi <> qj /\ Z.abs (qi - qj) <> Z.of_nat j - Z.of_nat i.
Proof.
  induction 1 as [|qs c Hok IH Hc Hs]; intros i j qi qj Hij Hi Hj.
  - destruct i; discriminate.
  - assert (Hj' : (j < length (qs ++ [c]))%nat)
      by (apply nth_error_Some; congruence).
    rewrite length_app in Hj'. simpl in Hj'.
    rewrite nth_error_app1 in Hi by lia.
    destruct (Nat.eq_dec j (length qs)) as [->|Hne].
    + rewrite nth_error_app2, Nat.sub_diag in Hj by lia.
      simpl in Hj. injection Hj as <-. now apply Hs.
    + rewrite nth_error_app1 in Hj by lia. eauto.
Qed.

End Boards.

(** No two queens of a board share a column or a diagonal; an entry equal
    to [unset] is not a queen. *)
Definition no_attack (unset : value) (b : array) : Prop :=
  forall i j ci cj, 0 <= i -> 0 <= j -> i <> j ->
    get b i = Some ci -> get b j = Some cj ->
    Some ci <> unset -> Some cj <> unset ->
    ci <> cj /\ Z.abs (ci - cj) <> Z.abs (i - j).

(* ================================================================== *)
(** ** The validity scan *)

Lemma isSafe_from_scan b col row todo prev :
  Trace.isSafe_from b col row todo prev = Gen.scan b col row todo prev.
Proof. reflexivity. Qed.

Lemma conflict_false v c d :
  conflict v c d = false <->
  forall q, v = Some q -> q <> c /\ Z.abs (q - c) <> d.
Proof.
  unfold conflict. destruct v as [q|].
  - rewrite orb_false_iff, !Z.eqb_neq. split.
    + intros H q' [= <-]. exact H.
    + intros H. now apply H.
  - split; [discriminate|reflexivity].
Qed.

Lemma scan_true b row c todo i :
  Gen.scan b row c todo (Z.of_nat i) = true <->
  forall j, (i <= j < i + todo)%nat ->
    conflict (get b (Z.of_nat j)) c (row - Z.of_nat j) = false.
Proof.
  revert i. induction todo as [|t IH]; intros i; simpl.
  - split; auto. intros _ j Hj. lia.
  - destruct (conflict (get b (Z.of_nat i)) c (row - Z.of_nat i)) eqn:E.
    + split; [discriminate|]. intros H.
      rewrite H in E by lia. discriminate.
    + replace (Z.of_nat i + 1) with (Z.of_nat (S i)) by lia.
      rewrite IH. split; intros H j Hj.
      * destruct (Nat.eq_dec j i) as [->|]; auto. apply H. lia.
      * apply H. lia.
Qed.

Lemma valid_emb d N qs c :
  Gen.valid (emb d N qs) (Z.of_nat (length qs)) c = true <-> safe qs c.
Proof.
  unfold Gen.valid. rewrite Nat2Z.id. change 0 with (Z.of_nat 0).
  rewrite scan_true. split.
  - intros H i q Hi.
    assert (Hlt : (i < length qs)%nat) by (apply nth_error_Some; congruence).
    specialize (H i ltac:(lia)). rewrite conflict_false in H.
    apply H. eapply get_emb; eauto.
  - intros H j Hj. apply conflict_false. intros q Hq.
    destruct (get_emb_inv d N qs j _ ltac:(lia) Hq) as (q' & [= <-] & Hn).
    now apply H.
Qed.

(* ================================================================== *)
(** ** Traces: bracketing and order of the solutions *)

(** What an event does to the stack of placements. *)
Inductive tag := Open (r c : Z) | Close (r c : Z) | Skip.

Section Balanced.
Context {E : Type} (kind : E -> tag).

(** Every placement is closed by the removal of the same coordinate, and
    the events in between are bracketed the same way. *)
Inductive balanced : list E -> Prop :=
| bal_nil : balanced []
| bal_skip e l : kind e = Skip -> balanced l -> balanced (e :: l)
| bal_pair o inner c rest r k :
    kind o = Open r k -> kind c = Close r k ->
    balanced inner -> balanced rest ->
    balanced (o :: inner ++ c :: rest).

Definition count (p : tag -> bool) (l : list E) : nat :=
  length (filter (fun e => p (kind e)) l).

Lemma count_app p l1 l2 : count p (l1 ++ l2) = (count p l1 + count p l2)%nat.
Proof. unfold count. now rewrite filter_app, length_app. Qed.

Lemma count_cons p e l :
  count p (e :: l) = ((if p (kind e) then 1 else 0) + count p l)%nat.
Proof. unfold count. simpl. now destruct (p (kind e)). Qed.

Lemma balanced_count (p q : tag -> bool) :
  p Skip = false -> q Skip = false ->
  (forall r c, p (Close r c) = false) ->
  (forall r c, q (Open r c) = false) ->
  (forall r c, p (Open r c) = q (Close r c)) ->
  forall l, balanced l -> count p l = count q l.
Proof.
  intros Hp Hq Hpc Hqo Hpq l. induction 1 as [|e l He _ IH|o inner c rest r k Ho Hc _ IH1 _ IH2].
  - reflexivity.
  - rewrite !count_cons, He, Hp, Hq. now rewrite IH.
  - rewrite !count_cons, !count_app, !count_cons, Ho, Hc, Hpc, Hqo, Hpq.
    rewrite IH1, IH2. destruct (q (Close r k)); lia.
Qed.

End Balanced.

Definition opens_at (r c : Z) (t : tag) : bool :=
  match t with Open r' c' => (r' =? r) && (c' =? c) | _ => false end.
Definition closes_at (r c : Z) (t : tag) : bool :=
  match t with Close r' c' => (r' =? r) && (c' =? c) | _ => false end.
Definition opens_depth (r : Z) (t : tag) : bool :=
  match t with Open r' _ => r' =? r | _ => false end.
Definition closes_depth (r : Z) (t : tag) : bool :=
  match t with Close r' _ => r' =? r | _ => false end.

Lemma balanced_coordinate {E} (kind : E -> tag) l r c :
  balanced kind l -> count kind (opens_at r c) l = count kind (closes_at r c) l.
Proof. apply balanced_count; reflexivity. Qed.

Lemma balanced_depth {E} (kind : E -> tag) l r :
  balanced kind l -> count kind (opens_depth r) l = count kind (closes_depth r) l.
Proof. apply balanced_count; reflexivity. Qed.

(** Lexicographic order on boards read as column sequences; an
    [undefined] entry compares with nothing. *)
Fixpoint lex_lt (a b : array) : Prop :=
  match a, b with
  | [], _ :: _ => True
  | Some x :: a', Some y :: b' => x < y \/ (x = y /\ lex_lt a' b')
  | _, _ => False
  end.

Lemma lex_lt_prefix (p : list Z) x y (a b : array) :
  x < y -> lex_lt (map Some p ++ Some x :: a) (map Some p ++ Some y :: b).
Proof. intros H. induction p; simpl; auto. Qed.

Lemma lex_lt_emb d N p x y e1 e2 :
  x < y -> lex_lt (emb d N (p ++ x :: e1)) (emb d N (p ++ y :: e2)).
Proof.
  intros H. unfold emb. rewrite !map_app. simpl. rewrite <- !app_assoc.
  simpl. now apply lex_lt_prefix.
Qed.

Lemma StronglySorted_app {A} (R : A -> A -> Prop) l1 l2 :
  StronglySorted R l1 -> StronglySorted R l2 ->
  (forall x y, In x l1 -> In y l2 -> R x y) ->
  StronglySorted R (l1 ++ l2).
Proof.
  intros H1 H2 H. induction H1 as [|a l1 Hs IH Hf]; simpl; auto.
  constructor.
  - apply IH. intros x y Hx. apply H. now right.
  - apply Forall_app. split; auto.
    apply Forall_forall. intros y Hy. apply H; simpl; auto.
Qed.

(* ================================================================== *)
(** ** Invariants of the generators *)

Module GenFacts.
Import Gen.

Definition kind (e : step) : tag :=
  match act e, row e, col e with
  | place, Some r, Some c => Open r c
  | remove, Some r, Some c => Close r c
  | _, _, _ => Skip
  end.

(** [backtrack] with the column loop bounded by [w]: the array strategy
    is the case [w = n], the bitmask strategy explores the columns of its
    mask, [n mod 32] of them. *)
Fixpoint backtrack_w (n w : Z) (depth : nat) (row : Z) (b : array)
  : list step * array :=
  if row =? n then ([mkStep None None solution b], b)
  else match depth with
       | O => ([], b)
       | S depth' =>
           for_col (backtrack_w n w depth' (row + 1)) row (Z.to_nat w) 0 b
       end.

Lemma for_col_ext rec1 rec2 row todo col b :
  (forall b', rec1 b' = rec2 b') ->
  for_col rec1 row todo col b = for_col rec2 row todo col b.
Proof.
  intros H. revert col b. induction todo as [|t IH]; intros col b; simpl; auto.
  destruct (valid b row col); auto.
  rewrite H. destruct (rec2 _) as [sub b2]. now rewrite IH.
Qed.

Lemma backtrack_w_n n depth row b :
  backtrack n depth row b = backtrack_w n n depth row b.
Proof.
  revert row b. induction depth as [|d IH]; intros row b; simpl; auto.
  destruct (row =? n); auto. apply for_col_ext. intros b'. apply IH.
Qed.

Lemma solutions_app l1 l2 : solutions (l1 ++ l2) = solutions l1 ++ solutions l2.
Proof. unfold solutions. now rewrite filter_app, map_app. Qed.

Lemma solutions_bracket e1 sub e2 rest :
  is_solution e1 = false -> is_solution e2 = false ->
  solutions (e1 :: sub ++ e2 :: rest) = solutions sub ++ solutions rest.
Proof.
  intros H1 H2. change (e1 :: sub ++ e2 :: rest) with ([e1] ++ sub ++ [e2] ++ rest).
  rewrite !solutions_app. unfold solutions at 1 3. simpl. now rewrite H1, H2.
Qed.

Lemma in_solutions s tr :
  In s (solutions tr) <-> exists e, In e tr /\ is_solution e = true /\ board e = s.
Proof.
  unfold solutions. rewrite in_map_iff. split.
  - intros (e & <- & He). apply filter_In in He. exists e. tauto.
  - intros (e & He & Hs & <-). exists e. split; auto. apply filter_In. tauto.
Qed.

Section Invariants.
Variables (N : nat) (w : Z).
Let n := Z.of_nat N.

(** The board of an event extends the prefix [p] by safe queens; the
    board of a solution is full. *)
Definition binv (d : value) (p : list Z) (b : array) (sol : bool) : Prop :=
  exists ext, b = emb d N (p ++ ext) /\ ok w (p ++ ext) /\
    (length (p ++ ext) <= N)%nat /\ (sol = true -> length (p ++ ext) = N).

Lemma binv_step d p c b sol : binv d (p ++ [c]) b sol -> binv d p b sol.
Proof.
  intros (ext & H). exists (c :: ext). now rewrite <- app_assoc in H.
Qed.

Record trace_ok (p : list Z) (r : list step * array) : Prop := {
  to_board : snd r = emb None N p;
  to_inv : Forall (fun e => binv None p (board e) (is_solution e)) (fst r);
  to_sorted : StronglySorted lex_lt (solutions (fst r));
  to_bal : balanced kind (fst r)
}.

(** Solutions found from column [lo] on at the depth of [p]. *)
Definition sols_from (d : value) (p : list Z) (lo : Z) (l : list array) : Prop :=
  forall s, In s l -> exists c ext, lo <= c /\ s = emb d N (p ++ c :: ext).

Lemma for_col_ok rec p :
  ok w p -> (length p < N)%nat ->
  (forall c, ok w (p ++ [c]) -> trace_ok (p ++ [c]) (rec (emb None N (p ++ [c])))) ->
  forall todo c, c + Z.of_nat todo = w -> 0 <= c ->
    let r := for_col rec (Z.of_nat (length p)) todo c (emb None N p) in
    trace_ok p r /\ sols_from None p c (solutions (fst r)).
Proof.
  intros Hp Hlen Hrec. induction todo as [|t IH]; intros c Hc Hc0; simpl.
  - split; [split; simpl; auto; constructor|]. intros s [].
  - destruct (valid _ _ c) eqn:Hv.
    + apply valid_emb in Hv.
      assert (Hok : ok w (p ++ [c])) by (constructor; auto; lia).
      rewrite set_emb_push by assumption.
      specialize (Hrec c Hok).
      destruct (rec _) as [sub b2]. destruct Hrec as [Hb Hi Hs Hbal].
      simpl in Hb, Hi, Hs, Hbal. subst b2.
      rewrite set_emb_pop by assumption.
      specialize (IH (c + 1) ltac:(lia) ltac:(lia)). simpl in IH.
      destruct (for_col _ _ t (c + 1) _) as [rest b4].
      destruct IH as [[Hb' Hi' Hs' Hbal'] Hfrom]. simpl in *.
      assert (Hsub : sols_from None p c (solutions sub)).
      { intros s Hin. apply in_solutions in Hin.
        destruct Hin as (e & He & Hsol & <-).
        rewrite Forall_forall in Hi. destruct (Hi e He) as (ext & -> & _).
        exists c, ext. split; [lia|]. now rewrite <- app_assoc. }
      assert (Hplace : binv None p (emb None N (p ++ [c])) false).
      { exists [c]. repeat split; auto; try discriminate.
        rewrite length_app. simpl. lia. }
      split; [split; simpl; auto|].
      * constructor; auto. apply Forall_app. split.
        -- eapply Forall_impl; [|exact Hi]. intros e. apply binv_step.
        -- constructor; auto.
      * rewrite solutions_bracket by reflexivity.
        apply StronglySorted_app; auto.
        intros x y Hx Hy.
        destruct (Hsub x Hx) as (c1 & e1 & Hc1 & ->).
        apply in_solutions in Hx. destruct Hx as (e & He & _ & Hbe).
        rewrite Forall_forall in Hi. destruct (Hi e He) as (ext & Hbe' & _).
        destruct (Hfrom y Hy) as (c2 & e2 & Hc2 & ->).
        rewrite Hbe', <- app_assoc in Hbe. simpl in Hbe. rewrite <- Hbe.
        apply lex_lt_emb. lia.
      * eapply bal_pair; eauto; reflexivity.
      * rewrite solutions_bracket by reflexivity. intros s Hin.
        apply in_app_or in Hin. destruct Hin as [Hin|Hin]; auto.
        destruct (Hfrom s Hin) as (c2 & e2 & Hc2 & ->).
        exists c2, e2. split; auto; lia.
    + specialize (IH (c + 1) ltac:(lia) ltac:(lia)). simpl in IH.
      destruct IH as [H1 H2]. split; auto.
      intros s Hin. destruct (H2 s Hin) as (c2 & e2 & Hc2 & ->).
      exists c2, e2. split; auto; lia.
Qed.

Lemma backtrack_w_ok depth p :
  ok w p -> (length p + depth = N)%nat -> 0 <= w ->
  trace_ok p (backtrack_w n w depth (Z.of_nat (length p)) (emb None N p)).
Proof.
  revert p. induction depth as [|d IH]; intros p Hp Hlen Hw0; simpl.
  - replace (Z.of_nat (length p) =? n) with true
      by (symmetry; apply Z.eqb_eq; unfold n; lia).
    split; simpl.
    + reflexivity.
    + constructor; auto. exists []. rewrite app_nil_r.
      repeat split; auto; lia.
    + repeat constructor.
    + apply bal_skip; [reflexivity|constructor].
  - replace (Z.of_nat (length p) =? n) with false
      by (symmetry; apply Z.eqb_neq; unfold n; lia).
    apply for_col_ok; auto; try lia.
    intros c Hc.
    replace (Z.of_nat (length p) + 1) with (Z.of_nat (length (p ++ [c])))
      by (rewrite length_app; simpl; lia).
    apply IH; auto. rewrite length_app. simpl. lia.
Qed.

End Invariants.

End GenFacts.

(* ================================================================== *)
(** ** 32-bit arithmetic of the bitmask strategy *)

Section Bits.

Lemma ToInt32_small z : - 2 ^ 31 <= z < 2 ^ 31 -> ToInt32 z = z.
Proof. intros H. unfold ToInt32. rewrite Z.mod_small; lia. Qed.

Lemma ToInt32_range z : - 2 ^ 31 <= ToInt32 z < 2 ^ 31.
Proof.
  unfold ToInt32. pose proof (Z.mod_pos_bound (z + 2 ^ 31) (2 ^ 32)). lia.
Qed.

Lemma testbit_ToInt32 z i : 0 <= i < 32 -> Z.testbit (ToInt32 z) i = Z.testbit z i.
Proof.
  intros H. rewrite <- (Z.mod_pow2_bits_low (ToInt32 z) 32 i) by lia.
  rewrite <- (Z.mod_pow2_bits_low z 32 i) by lia. f_equal.
  unfold ToInt32.
  replace ((z + 2 ^ 31) mod 2 ^ 32 - 2 ^ 31)
    with ((z + 2 ^ 31) mod 2 ^ 32 + 2 ^ 31 + (-1) * 2 ^ 32) by lia.
  rewrite Z.mod_add by lia. rewrite Z.add_mod_idemp_l by lia.
  replace (z + 2 ^ 31 + 2 ^ 31) with (z + 1 * 2 ^ 32) by lia.
  now rewrite Z.mod_add by lia.
Qed.

Lemma bits_range x k :
  0 <= x -> 0 <= k -> (forall i, k <= i -> Z.testbit x i = false) -> x < 2 ^ k.
Proof.
  intros Hx Hk H. destruct (Z.eq_dec x 0) as [->|Hne].
  - apply Z.pow_pos_nonneg; lia.
  - apply Z.log2_lt_pow2; [lia|].
    destruct (Z.lt_ge_cases (Z.log2 x) k) as [|Hge]; auto.
    specialize (H _ Hge). rewrite Z.bit_log2 in H by lia. discriminate.
Qed.

Lemma range_bits x k i : 0 <= x < 2 ^ k -> k <= i -> Z.testbit x i = false.
Proof.
  intros Hx Hi. destruct (Z.eq_dec x 0) as [->|Hne]; [apply Z.bits_0|].
  apply Z.bits_above_log2; [lia|].
  assert (0 <= k).
  { destruct (Z.lt_ge_cases k 0); auto. rewrite Z.pow_neg_r in Hx; lia. }
  assert (Z.log2 x < k) by (apply Z.log2_lt_pow2; lia). lia.
Qed.

Lemma lor_range a b k :
  0 <= k -> 0 <= a < 2 ^ k -> 0 <= b < 2 ^ k -> 0 <= Z.lor a b < 2 ^ k.
Proof.
  intros Hk Ha Hb. split; [apply Z.lor_nonneg; lia|].
  apply bits_range; auto; [apply Z.lor_nonneg; lia|].
  intros i Hi. rewrite Z.lor_spec.
  rewrite (range_bits a k), (range_bits b k); auto.
Qed.

(** [(1 << n) - 1], as the operand of [&], is the mask of the
    [n mod 32] low bits. *)
Lemma low_mask n : ToInt32 (shl 1 n - 1) = Z.ones (n mod 32).
Proof.
  unfold shl. pose proof (Z.mod_pos_bound n 32 ltac:(lia)) as Hm.
  set (w := n mod 32) in *. rewrite (ToInt32_small 1) by lia.
  rewrite Z.shiftl_1_l, Z.ones_equiv.
  destruct (Z.eq_dec w 31) as [->|Hne]; [reflexivity|].
  assert (0 < 2 ^ w < 2 ^ 31).
  { split; [apply Z.pow_pos_nonneg; lia|apply Z.pow_lt_mono_r; lia]. }
  rewrite (ToInt32_small (2 ^ w)) by lia. rewrite ToInt32_small; lia.
Qed.

Lemma succ_cases i : 0 <= i -> i = 0 \/ exists j, 0 <= j /\ i = Z.succ j.
Proof. intros H. destruct (Z.eq_dec i 0); auto. right. exists (i - 1). lia. Qed.

(** [a & -a] is the lowest set bit of [a], and [a & (a - 1)] clears it. *)
Lemma lowest_bit k :
  0 <= k -> forall a,
  Z.testbit a k = true -> (forall i, 0 <= i < k -> Z.testbit a i = false) ->
  Z.land a (- a) = 2 ^ k /\
  (forall i, 0 <= i -> Z.testbit (Z.land a (a - 1)) i = Z.testbit a i && negb (i =? k)).
Proof.
  intros Hk. pattern k. apply natlike_ind; auto; clear k Hk.
  - intros a Ha _. rewrite Z.bit0_odd in Ha.
    pose proof (Z.div2_odd a) as Hd. rewrite Ha in Hd. simpl Z.b2z in Hd.
    set (m := Z.div2 a) in *. split.
    + apply Z.bits_inj'. intros i Hi. rewrite Z.land_spec, Hd.
      replace (- (2 * m + 1)) with (2 * Z.lnot m + 1)
        by (rewrite Z.lnot_eq_pred_opp; lia).
      destruct (succ_cases i Hi) as [->|(j & Hj & ->)].
      * now rewrite !Z.testbit_odd_0.
      * rewrite !Z.testbit_odd_succ, Z.lnot_spec by assumption.
        rewrite Z.pow2_bits_false by lia. apply andb_negb_r.
    + intros i Hi. rewrite Z.land_spec. rewrite Hd at 1 2 3.
      replace (2 * m + 1 - 1) with (2 * m) by lia.
      destruct (succ_cases i Hi) as [->|(j & Hj & ->)].
      * now rewrite Z.testbit_odd_0, Z.testbit_even_0.
      * rewrite Z.testbit_odd_succ, Z.testbit_even_succ by assumption.
        replace (Z.succ j =? 0) with false by (symmetry; apply Z.eqb_neq; lia).
        simpl. now rewrite andb_diag, andb_true_r.
  - intros k Hk IH a Ha Hlow.
    assert (H0 : Z.odd a = false).
    { rewrite <- Z.bit0_odd. apply Hlow. lia. }
    pose proof (Z.div2_odd a) as Hd. rewrite H0 in Hd. simpl Z.b2z in Hd.
    set (m := Z.div2 a) in *. rewrite Z.add_0_r in Hd.
    destruct (IH m) as [IH1 IH2].
    { rewrite <- (Z.testbit_even_succ m k Hk), <- Hd. exact Ha. }
    { intros i Hi. rewrite <- (Z.testbit_even_succ m i), <- Hd by lia.
      apply Hlow. lia. }
    split.
    + rewrite Hd. replace (- (2 * m)) with (2 * - m) by lia.
      apply Z.bits_inj'. intros i Hi. rewrite Z.land_spec.
      rewrite Z.pow_succ_r by assumption.
      destruct (succ_cases i Hi) as [->|(j & Hj & ->)].
      * now rewrite !Z.testbit_even_0.
      * rewrite !Z.testbit_even_succ by assumption.
        now rewrite <- Z.land_spec, IH1.
    + intros i Hi. rewrite Z.land_spec. rewrite Hd at 1 2 3.
      replace (2 * m - 1) with (2 * (m - 1) + 1) by lia.
      destruct (succ_cases i Hi) as [->|(j & Hj & ->)].
      * now rewrite Z.testbit_even_0.
      * rewrite Z.testbit_odd_succ, Z.testbit_even_succ by assumption.
        rewrite <- Z.land_spec, IH2 by assumption.
        replace (Z.succ j =? Z.succ k) with (j =? k); auto.
        destruct (Z.eqb_spec j k), (Z.eqb_spec (Z.succ j) (Z.succ k)); auto; lia.
Qed.

Lemma lowest_bit_exists a :
  0 < a -> exists k, 0 <= k /\ Z.testbit a k = true /\
                     forall i, 0 <= i < k -> Z.testbit a i = false.
Proof.
  destruct a as [|p|p]; try lia. intros _.
  induction p as [p _|p (k & Hk & Hb & Hl)|].
  - exists 0. repeat split; lia.
  - exists (Z.succ k). rewrite Pos2Z.inj_xO. repeat split; try lia.
    + now rewrite Z.testbit_even_succ.
    + intros i Hi. destruct (succ_cases i ltac:(lia)) as [->|(j & Hj & ->)].
      * apply Z.testbit_even_0.
      * rewrite Z.testbit_even_succ by assumption. apply Hl. lia.
  - exists 0. repeat split; lia.
Qed.

(** On a non-negative int32 the two loop expressions need no wrap. *)
Lemma band_opp a : 0 <= a < 2 ^ 31 -> band a (- a) = Z.land a (- a).
Proof. intros H. unfold band. rewrite !ToInt32_small; lia. Qed.

Lemma band_pred a : 0 <= a < 2 ^ 31 -> band a (a - 1) = Z.land a (a - 1).
Proof. intros H. unfold band. rewrite !ToInt32_small; lia. Qed.

End Bits.

(* ================================================================== *)
(** ** The masks against the placements *)

Module MaskFacts.
Import Gen GenFacts.

(** What the three masks say about the queens [qs] already placed, seen
    from the line [length qs]. *)
Record masks (qs : list Z) (columns diag1 diag2 : Z) : Prop := {
  m_cols : forall i, 0 <= i < 32 ->
    (Z.testbit columns i = true <-> In i qs);
  m_diag1 : forall i, 0 <= i < 32 ->
    (Z.testbit diag1 i = true <->
     exists j q, nth_error qs j = Some q /\
                 q + (Z.of_nat (length qs) - Z.of_nat j) = i);
  m_diag2 : forall i, 0 <= i ->
    (Z.testbit diag2 i = true <->
     exists j q, nth_error qs j = Some q /\
                 q - (Z.of_nat (length qs) - Z.of_nat j) = i);
  m_range : 0 <= diag2 < 2 ^ 31
}.

Lemma masks_init : masks [] 0 0 0.
Proof.
  split; try lia; intros i Hi; rewrite Z.bits_0; split; try discriminate.
  - intros [].
  - intros ([|j] & q & Hq & _); discriminate.
  - intros ([|j] & q & Hq & _); discriminate.
Qed.

Lemma nth_error_snoc (qs : list Z) c j q :
  nth_error (qs ++ [c]) j = Some q <->
  nth_error qs j = Some q \/ (j = length qs /\ q = c).
Proof.
  destruct (Nat.lt_ge_cases j (length qs)) as [Hlt|Hge].
  - rewrite nth_error_app1 by assumption. split; auto.
    intros [H|[-> _]]; auto. lia.
  - rewrite nth_error_app2 by assumption.
    assert (Hn : nth_error qs j = None) by now apply nth_error_None.
    rewrite Hn. destruct (j - length qs)%nat as [|k] eqn:E; simpl.
    + split.
      * intros [= ->]. right. split; auto. lia.
      * intros [H|[_ ->]]; [discriminate|reflexivity].
    + destruct k; split; try discriminate; intros [H|[-> _]]; try discriminate; lia.
Qed.

Lemma pow2_range c : 0 <= c < 31 -> 0 <= 2 ^ c < 2 ^ 31.
Proof.
  intros H. split; [apply Z.pow_nonneg; lia|apply Z.pow_lt_mono_r; lia].
Qed.

Lemma masks_step qs columns diag1 diag2 c :
  masks qs columns diag1 diag2 ->
  (forall q, In q qs -> 0 <= q) -> 0 <= c < 31 ->
  masks (qs ++ [c]) (bor columns (2 ^ c))
        (shl (bor diag1 (2 ^ c)) 1) (sar (bor diag2 (2 ^ c)) 1).
Proof.
  intros [Hc H1 H2 Hr] Hpos Hcr.
  pose proof (pow2_range c Hcr) as Hp.
  assert (Hlen : Z.of_nat (length (qs ++ [c])) = Z.of_nat (length qs) + 1)
    by (rewrite length_app; simpl; lia).
  assert (Hx : 0 <= Z.lor diag2 (2 ^ c) < 2 ^ 31) by (apply lor_range; lia).
  split.
  - intros i Hi. unfold bor. rewrite Z.lor_spec, !testbit_ToInt32 by assumption.
    rewrite Z.pow2_bits_eqb, orb_true_iff, Hc, in_app_iff, Z.eqb_eq by lia.
    simpl. tauto.
  - intros i Hi. unfold shl, bor. change (1 mod 32) with 1.
    rewrite testbit_ToInt32, Z.shiftl_spec by lia. rewrite Hlen.
    destruct (Z.eq_dec i 0) as [->|Hne].
    + rewrite Z.testbit_neg_r by lia. split; [discriminate|].
      intros (j & q & Hq & He). apply nth_error_snoc in Hq.
      assert (Hj : (j < length (qs ++ [c]))%nat).
      { rewrite length_app. simpl. destruct Hq as [Hq|[-> _]]; [|lia].
        assert (j < length qs)%nat by (apply nth_error_Some; congruence). lia. }
      assert (0 <= q).
      { destruct Hq as [Hq|[_ ->]]; [|lia]. apply Hpos.
        eapply nth_error_In; eauto. }
      rewrite length_app in Hj. simpl in Hj. lia.
    + rewrite testbit_ToInt32, Z.lor_spec, !testbit_ToInt32 by lia.
      rewrite Z.pow2_bits_eqb, orb_true_iff, H1, Z.eqb_eq by lia. split.
      * intros [(j & q & Hq & He)|He].
        -- exists j, q. split; [apply nth_error_snoc; auto|lia].
        -- exists (length qs), c. split; [apply nth_error_snoc; auto|lia].
      * intros (j & q & Hq & He). apply nth_error_snoc in Hq.
        destruct Hq as [Hq|[-> ->]]; [left|right; lia].
        exists j, q. split; auto. lia.
  - intros i Hi. unfold sar, bor. change (1 mod 32) with 1.
    rewrite (ToInt32_small diag2), (ToInt32_small (2 ^ c)) by lia.
    rewrite ToInt32_small by lia.
    rewrite Z.shiftr_spec, Z.lor_spec by lia. rewrite Hlen.
    rewrite Z.pow2_bits_eqb, orb_true_iff, H2, Z.eqb_eq by lia. split.
    + intros [(j & q & Hq & He)|He].
      * exists j, q. split; [apply nth_error_snoc; auto|lia].
      * exists (length qs), c. split; [apply nth_error_snoc; auto|lia].
    + intros (j & q & Hq & He). apply nth_error_snoc in Hq.
      destruct Hq as [Hq|[-> ->]]; [left|right; lia].
      exists j, q. split; auto. lia.
  - unfold sar, bor. change (1 mod 32) with 1.
    rewrite (ToInt32_small diag2), (ToInt32_small (2 ^ c)) by lia.
    rewrite ToInt32_small by lia. rewrite Z.shiftr_div_pow2 by lia.
    change (2 ^ 1) with 2. split.
    + apply Z.div_pos; lia.
    + apply Z.div_lt_upper_bound; lia.
Qed.

(** The bits of [available] are the safe columns below the mask width. *)
Lemma available_bits n qs columns diag1 diag2 :
  masks qs columns diag1 diag2 ->
  (forall q, In q qs -> 0 <= q) ->
  forall i, 0 <= i ->
    (Z.testbit (available_of n columns diag1 diag2) i = true <->
     i < n mod 32 /\ safe qs i).
Proof.
  intros [Hc H1 H2 Hr] Hpos i Hi.
  pose proof (Z.mod_pos_bound n 32 ltac:(lia)) as Hm.
  unfold available_of, band. rewrite low_mask, Z.land_spec.
  rewrite Z.testbit_ones_nonneg, andb_true_iff, Z.ltb_lt by lia.
  split; intros [Hlt H]; split; auto.
  - unfold bnot, bor in H.
    rewrite testbit_ToInt32, Z.lnot_spec, negb_true_iff in H by lia.
    rewrite testbit_ToInt32, Z.lor_spec, orb_false_iff in H by lia.
    rewrite !testbit_ToInt32, Z.lor_spec, orb_false_iff in H by lia.
    rewrite !testbit_ToInt32 in H by lia.
    destruct H as [[Hci Hd1] Hd2].
    intros j q Hq.
    assert (Hj : (j < length qs)%nat) by (apply nth_error_Some; congruence).
    split.
    + intros ->. apply nth_error_In in Hq. apply Hc in Hq; [|lia]. congruence.
    + intros Habs.
      destruct (Z.abs_spec (q - i)) as [[_ He]|[_ He]]; rewrite He in Habs.
      * assert (Z.testbit diag2 i = true); [|congruence].
        apply H2; auto. exists j, q. split; auto. lia.
      * assert (Z.testbit diag1 i = true); [|congruence].
        apply H1; [lia|]. exists j, q. split; auto. lia.
  - unfold bnot, bor.
    rewrite testbit_ToInt32, Z.lnot_spec, negb_true_iff by lia.
    rewrite testbit_ToInt32, Z.lor_spec, orb_false_iff by lia.
    rewrite !testbit_ToInt32, Z.lor_spec, orb_false_iff by lia.
    rewrite !testbit_ToInt32 by lia.
    repeat split; apply not_true_is_false; intros Hb.
    + apply Hc in Hb; [|lia]. apply In_nth_error in Hb.
      destruct Hb as (j & Hq). destruct (H j i Hq). congruence.
    + apply H1 in Hb; [|lia]. destruct Hb as (j & q & Hq & He).
      assert (Hj : (j < length qs)%nat) by (apply nth_error_Some; congruence).
      destruct (H j q Hq) as [_ Hd]. apply Hd. rewrite Z.abs_neq; lia.
    + apply H2 in Hb; [|lia]. destruct Hb as (j & q & Hq & He).
      assert (Hj : (j < length qs)%nat) by (apply nth_error_Some; congruence).
      destruct (H j q Hq) as [_ Hd]. apply Hd. rewrite Z.abs_eq; lia.
Qed.

Lemma available_range n columns diag1 diag2 :
  0 <= available_of n columns diag1 diag2 < 2 ^ 31.
Proof.
  pose proof (Z.mod_pos_bound n 32 ltac:(lia)) as Hm.
  unfold available_of, band. rewrite low_mask, Z.land_comm, Z.land_ones by lia.
  pose proof (Z.mod_pos_bound (ToInt32 (bnot (bor (bor columns diag1) diag2)))
                (2 ^ (n mod 32)) ltac:(apply Z.pow_pos_nonneg; lia)).
  assert (2 ^ (n mod 32) <= 2 ^ 31) by (apply Z.pow_le_mono_r; lia). lia.
Qed.

End MaskFacts.

(* ================================================================== *)
(** ** The bitmask generator explores like the column loop *)

Module BitmaskFacts.
Import Gen GenFacts MaskFacts.

Section Loop.
Variables (N : nat) (w : Z).
Hypothesis Hw31 : 0 <= w <= 31.

Lemma no_bits_zero a : 0 <= a -> (forall i, 0 <= i -> Z.testbit a i = false) -> a = 0.
Proof.
  intros Ha H. destruct (Z.eq_dec a 0) as [|Hne]; auto.
  specialize (H (Z.log2 a) (Z.log2_nonneg a)).
  rewrite Z.bit_log2 in H by lia. discriminate.
Qed.

Lemma for_pick_for_col rec rec' p :
  ok w p -> (length p < N)%nat ->
  (forall c, ok w (p ++ [c]) ->
     snd (rec' (emb None N (p ++ [c]))) = emb None N (p ++ [c])) ->
  (forall c, ok w (p ++ [c]) ->
     rec (2 ^ c) (emb None N (p ++ [c])) = rec' (emb None N (p ++ [c]))) ->
  forall todo c turns a,
    c + Z.of_nat todo = w -> 0 <= c -> (todo <= turns)%nat -> 0 <= a ->
    (forall i, 0 <= i -> (Z.testbit a i = true <-> c <= i < w /\ safe p i)) ->
    for_pick rec (Z.of_nat (length p)) turns a (emb None N p) =
    for_col rec' (Z.of_nat (length p)) todo c (emb None N p).
Proof.
  intros Hp Hlen Hboard Hrec.
  induction todo as [|t IH]; intros c turns a Hc Hc0 Ht Ha Hbits.
  - assert (a = 0) as ->.
    { apply no_bits_zero; auto. intros i Hi. apply not_true_is_false.
      intros Hb. apply Hbits in Hb; auto. lia. }
    destruct turns; reflexivity.
  - simpl for_col. destruct (valid _ _ c) eqn:Hv.
    + apply valid_emb in Hv.
      assert (Hbit : Z.testbit a c = true) by (apply Hbits; [lia|split; [lia|auto]]).
      assert (Hlow : forall i, 0 <= i < c -> Z.testbit a i = false).
      { intros i Hi. apply not_true_is_false. intros Hb.
        apply Hbits in Hb; lia. }
      assert (Hr : a < 2 ^ 31).
      { apply bits_range; auto; [lia|]. intros i Hi. apply not_true_is_false.
        intros Hb. apply Hbits in Hb; lia. }
      destruct (lowest_bit c Hc0 a Hbit Hlow) as [Hpick Hclear].
      assert (Hok : ok w (p ++ [c])) by (constructor; auto; lia).
      destruct turns as [|turns]; [lia|]. simpl for_pick.
      replace (a =? 0) with false
        by (symmetry; apply Z.eqb_neq; intros ->; rewrite Z.bits_0 in Hbit; discriminate).
      rewrite band_opp, Hpick by lia. unfold log2. rewrite Z.log2_pow2 by assumption.
      rewrite set_emb_push by assumption.
      rewrite (Hrec c Hok). specialize (Hboard c Hok).
      destruct (rec' _) as [sub b2]. simpl in Hboard. subst b2.
      rewrite set_emb_pop by assumption.
      rewrite band_pred by lia.
      rewrite (IH (c + 1) turns (Z.land a (a - 1))); auto; try lia.
      * apply Z.land_nonneg. auto.
      * intros i Hi. rewrite Hclear, andb_true_iff, negb_true_iff, Z.eqb_neq by assumption.
        rewrite Hbits by assumption. intuition lia.
    + rewrite <- (IH (c + 1) turns a); auto; try lia.
      intros i Hi. rewrite Hbits by assumption. split.
      * intros [Hr Hs]. split; auto.
        destruct (Z.eq_dec i c) as [->|]; [|lia].
        apply valid_emb with (d := None) (N := N) in Hs. congruence.
      * intros [Hr Hs]. split; auto; lia.
Qed.

End Loop.

Lemma backtrackBits_eq n depth row columns diag1 diag2 b :
  backtrackBits n depth row columns diag1 diag2 b =
  if row =? n then ([mkStep None None solution b], b)
  else match depth with
       | O => ([], b)
       | S depth' =>
           for_pick
             (fun pick =>
                backtrackBits n depth' (row + 1) (bor columns pick)
                  (shl (bor diag1 pick) 1) (sar (bor diag2 pick) 1))
             row 32%nat (available_of n columns diag1 diag2) b
       end.
Proof. destruct depth; reflexivity. Qed.

Lemma backtrack_w_eq n w depth row b :
  backtrack_w n w depth row b =
  if row =? n then ([mkStep None None solution b], b)
  else match depth with
       | O => ([], b)
       | S depth' =>
           for_col (backtrack_w n w depth' (row + 1)) row (Z.to_nat w) 0 b
       end.
Proof. destruct depth; reflexivity. Qed.

(** The bitmask generator, started on the masks of its board, yields what
    the column loop over the [n mod 32] columns of the mask yields. *)
Lemma backtrackBits_w (N : nat) depth p columns diag1 diag2 :
  let n := Z.of_nat N in
  let w := n mod 32 in
  ok w p -> masks p columns diag1 diag2 -> (length p + depth = N)%nat ->
  backtrackBits n depth (Z.of_nat (length p)) columns diag1 diag2 (emb None N p) =
  backtrack_w n w depth (Z.of_nat (length p)) (emb None N p).
Proof.
  intros n w. 
  assert (Hm : 0 <= w < 32) by (apply Z.mod_pos_bound; lia).
  assert (Hwn : w <= n) by (apply Z.mod_le; lia).
  revert p columns diag1 diag2.
  induction depth as [|d IH]; intros p columns diag1 diag2 Hp Hmask Hlen;
    rewrite backtrackBits_eq, backtrack_w_eq.
  - reflexivity.
  - destruct (Z.of_nat (length p) =? n) eqn:E; auto.
    apply Z.eqb_neq in E.
    assert (Hpos : forall q, In q p -> 0 <= q).
    { intros q Hq. apply (ok_range _ _ Hp) in Hq. lia. }
    apply for_pick_for_col with (w := w); auto; try lia.
    + intros c Hc.
      replace (Z.of_nat (length p) + 1) with (Z.of_nat (length (p ++ [c])))
        by (rewrite length_app; simpl; lia).
      apply backtrack_w_ok; auto; try lia. rewrite length_app. simpl. lia.
    + intros c Hc.
      replace (Z.of_nat (length p) + 1) with (Z.of_nat (length (p ++ [c])))
        by (rewrite length_app; simpl; lia).
      apply IH; auto.
      * apply masks_step; auto.
        assert (0 <= c < w); [|lia].
        apply (ok_range _ _ Hc). apply in_app_iff. simpl. auto.
      * rewrite length_app. simpl. lia.
    + apply available_range.
    + intros i Hi. rewrite (available_bits n p) by assumption. fold w.
      intuition lia.
Qed.

End BitmaskFacts.

(* ================================================================== *)
(** ** Invariants of computeTraceSteps *)

Module TraceFacts.
Import Trace.

Definition kind (e : step) : tag :=
  match stat e, cand e with
  | placed, Some c => Open (col c) (row c)
  | backtrack, Some c => Close (col c) (row c)
  | _, _ => Skip
  end.

Lemma steps_solutions_app l1 l2 : solutions (l1 ++ l2) = solutions l1 ++ solutions l2.
Proof. unfold solutions. now rewrite filter_app, map_app. Qed.

Lemma solutions_skip e l : is_solution e = false -> solutions (e :: l) = solutions l.
Proof. intros H. unfold solutions. simpl. now rewrite H. Qed.

Lemma in_steps_solutions s tr :
  In s (solutions tr) <-> exists e, In e tr /\ is_solution e = true /\ board e = s.
Proof.
  unfold solutions. rewrite in_map_iff. split.
  - intros (e & <- & He). apply filter_In in He. exists e. tauto.
  - intros (e & He & Hs & <-). exists e. split; auto. apply filter_In. tauto.
Qed.

Section Invariants.
Variable N : nat.
Let n := Z.of_nat N.
Let T := emb (Some (-1)) N.

Record trace_ok (p : list Z) (evs : list step) : Prop := {
  to_inv : Forall (fun e =>
             GenFacts.binv N n (Some (-1)) p (board e) (is_solution e)) evs;
  to_sorted : StronglySorted lex_lt (solutions evs);
  to_bal : balanced kind evs
}.

(** What a call does to the state: it appends its events and leaves the
    board as it found it. *)
Definition appends (p : list Z) (f : state -> state) (P : list step -> Prop) : Prop :=
  forall tr, exists evs, f (tr, T p) = (tr ++ evs, T p) /\ P evs.

Lemma for_row_ok rec p :
  ok n p -> (length p < N)%nat ->
  (forall c, ok n (p ++ [c]) -> appends (p ++ [c]) rec (trace_ok (p ++ [c]))) ->
  forall todo c, c + Z.of_nat todo = n -> 0 <= c ->
    appends p (for_row rec (Z.of_nat (length p)) todo c)
      (fun evs => trace_ok p evs /\
                  GenFacts.sols_from N (Some (-1)) p c (solutions evs)).
Proof.
  intros Hp Hlen Hrec. induction todo as [|t IH]; intros c Hc Hc0 tr.
  - exists []. simpl. rewrite app_nil_r. repeat split; try constructor.
    intros s [].
  - simpl for_row. unfold push, store. simpl fst. simpl snd.
    assert (Hhere : GenFacts.binv N n (Some (-1)) p (T p) false).
    { exists []. rewrite app_nil_r. repeat split; auto; try lia; discriminate. }
    unfold isSafe. rewrite isSafe_from_scan.
    fold (Gen.valid (T p) (Z.of_nat (length p)) c).
    destruct (Gen.valid _ _ c) eqn:Hv.
    + apply valid_emb in Hv.
      assert (Hok : ok n (p ++ [c])) by (constructor; auto; lia).
      assert (Hpush : set (T p) (Z.of_nat (length p)) (Some c) = T (p ++ [c]))
        by (now apply set_emb_push).
      assert (Hpop : set (T (p ++ [c])) (Z.of_nat (length p)) (Some (-1)) = T p)
        by (now apply set_emb_pop).
      rewrite !Hpush.
      destruct (Hrec c Hok ((tr ++ [mkStep (T p) (Some (mkCand (Z.of_nat (length p)) c)) attempt])
                  ++ [mkStep (T (p ++ [c])) (Some (mkCand (Z.of_nat (length p)) c)) placed]))
        as (sub & -> & [Hi Hs Hbal]).
      simpl fst. simpl snd. rewrite !Hpop.
      destruct (IH (c + 1) ltac:(lia) ltac:(lia)
                  ((((tr ++ [mkStep (T p) (Some (mkCand (Z.of_nat (length p)) c)) attempt])
                  ++ [mkStep (T (p ++ [c])) (Some (mkCand (Z.of_nat (length p)) c)) placed])
                  ++ sub) ++ [mkStep (T p) (Some (mkCand (Z.of_nat (length p)) c)) backtrack]))
        as (rest & -> & [Hi' Hs' Hbal'] & Hfrom).
      eexists. split; [rewrite <- !app_assoc; simpl; reflexivity|].
      assert (Hsub : GenFacts.sols_from N (Some (-1)) p c (solutions sub)).
      { intros s Hin. apply in_steps_solutions in Hin.
        destruct Hin as (e & He & Hsol & <-).
        rewrite Forall_forall in Hi. destruct (Hi e He) as (ext & -> & _).
        exists c, ext. split; [lia|]. now rewrite <- app_assoc. }
      assert (Hsols : solutions
                (mkStep (T p) (Some (mkCand (Z.of_nat (length p)) c)) attempt
                 :: mkStep (T (p ++ [c])) (Some (mkCand (Z.of_nat (length p)) c)) placed
                 :: sub ++ mkStep (T p) (Some (mkCand (Z.of_nat (length p)) c)) backtrack
                 :: rest) = solutions sub ++ solutions rest).
      { rewrite !solutions_skip by reflexivity. rewrite steps_solutions_app.
        now rewrite solutions_skip by reflexivity. }
      rewrite Hsols. split; [split|].
      * constructor; auto. constructor.
        { exists [c]. repeat split; auto; try discriminate.
          rewrite length_app. simpl. lia. }
        apply Forall_app. split.
        -- eapply Forall_impl; [|exact Hi]. intros e. apply GenFacts.binv_step.
        -- constructor; auto.
      * rewrite Hsols. apply StronglySorted_app; auto. intros x y Hx Hy.
        destruct (Hsub x Hx) as (c1 & e1 & Hc1 & ->).
        apply in_steps_solutions in Hx. destruct Hx as (e & He & _ & Hbe).
        rewrite Forall_forall in Hi. destruct (Hi e He) as (ext & Hbe' & _).
        destruct (Hfrom y Hy) as (c2 & e2 & Hc2 & ->).
        rewrite Hbe', <- app_assoc in Hbe. simpl in Hbe. rewrite <- Hbe.
        apply lex_lt_emb. lia.
      * apply bal_skip; [reflexivity|].
        eapply bal_pair; eauto; reflexivity.
      * intros s Hin. apply in_app_or in Hin. destruct Hin as [Hin|Hin]; auto.
        destruct (Hfrom s Hin) as (c2 & e2 & Hc2 & ->).
        exists c2, e2. split; auto; lia.
    + destruct (IH (c + 1) ltac:(lia) ltac:(lia)
                  (tr ++ [mkStep (T p) (Some (mkCand (Z.of_nat (length p)) c)) attempt]))
        as (rest & -> & [Hi' Hs' Hbal'] & Hfrom).
      eexists. split; [rewrite <- !app_assoc; simpl; reflexivity|].
      rewrite solutions_skip by reflexivity. split; [split|]; auto.
      * apply bal_skip; [reflexivity|auto].
      * intros s Hin. destruct (Hfrom s Hin) as (c2 & e2 & Hc2 & ->).
        exists c2, e2. split; auto; lia.
Qed.

Lemma solve_ok depth p :
  ok n p -> (length p + depth = N)%nat ->
  appends p (solve n depth (Z.of_nat (length p))) (trace_ok p).
Proof.
  revert p. induction depth as [|d IH]; intros p Hp Hlen; simpl.
  - replace (Z.of_nat (length p) =? n) with true
      by (symmetry; apply Z.eqb_eq; unfold n; lia).
    intros tr. eexists. split; [reflexivity|]. split.
    + constructor; auto. exists []. rewrite app_nil_r.
      repeat split; auto; lia.
    + repeat constructor.
    + apply bal_skip; [reflexivity|constructor].
  - replace (Z.of_nat (length p) =? n) with false
      by (symmetry; apply Z.eqb_neq; unfold n; lia).
    unfold n at 2. rewrite Nat2Z.id. intros tr.
    destruct (for_row_ok (solve n d (Z.of_nat (length p) + 1)) p Hp ltac:(lia))
      with (todo := N) (c := 0) (tr := tr) as (evs & Hev & Hok & _); try (unfold n; lia).
    + intros c Hc.
      replace (Z.of_nat (length p) + 1) with (Z.of_nat (length (p ++ [c])))
        by (rewrite length_app; simpl; lia).
      apply IH; auto. rewrite length_app. simpl. lia.
    + exists evs. split; auto.
Qed.

End Invariants.

End TraceFacts.

(* ================================================================== *)
(** ** The entry points *)

Section Entry.

Lemma new_Array_Normal n b :
  new_Array n = Normal b ->
  0 <= n <= 2 ^ 32 - 1 /\ b = emb None (Z.to_nat n) [].
Proof.
  intros H. destruct (Z.le_gt_cases 0 n); [destruct (Z.le_gt_cases n (2 ^ 32 - 1))|].
  - rewrite new_Array_emb in H by lia. injection H as <-. split; [lia|reflexivity].
  - rewrite new_Array_throw in H by lia. discriminate.
  - rewrite new_Array_throw in H by lia. discriminate.
Qed.

Lemma runArray_ok n r :
  Gen.runArray n = Normal r ->
  GenFacts.trace_ok (Z.to_nat n) n [] r /\ 0 <= n.
Proof.
  unfold Gen.runArray. destruct (new_Array n) as [b|] eqn:E; [|discriminate].
  apply new_Array_Normal in E. destruct E as [Hn ->]. intros [= <-].
  split; [|lia]. rewrite GenFacts.backtrack_w_n.
  pose proof (GenFacts.backtrack_w_ok (Z.to_nat n) n (Z.to_nat n) []) as H.
  rewrite Z2Nat.id in H by lia. apply H; simpl; try lia. constructor.
Qed.

Lemma runBitmask_ok n r :
  Gen.runBitmask n = Normal r ->
  GenFacts.trace_ok (Z.to_nat n) (n mod 32) [] r /\ 0 <= n.
Proof.
  unfold Gen.runBitmask. destruct (new_Array n) as [b|] eqn:E; [|discriminate].
  apply new_Array_Normal in E. destruct E as [Hn ->]. intros [= <-].
  split; [|lia].
  pose proof (Z.mod_pos_bound n 32 ltac:(lia)) as Hm.
  assert (Hle : n mod 32 <= n) by (apply Z.mod_le; lia).
  pose proof (BitmaskFacts.backtrackBits_w (Z.to_nat n) (Z.to_nat n) [] 0 0 0) as Hb.
  pose proof (GenFacts.backtrack_w_ok (Z.to_nat n) (n mod 32) (Z.to_nat n) []) as H.
  simpl in Hb. rewrite Z2Nat.id in Hb, H by lia.
  rewrite Hb; [|constructor|apply MaskFacts.masks_init|reflexivity].
  apply H; simpl; try lia. constructor.
Qed.

Lemma runTrace_ok n r :
  Trace.runTrace n = Normal r ->
  TraceFacts.trace_ok (Z.to_nat n) [] (fst r) /\
  snd r = emb (Some (-1)) (Z.to_nat n) [] /\ 0 <= n.
Proof.
  unfold Trace.runTrace. destruct (new_Array n) as [b|] eqn:E; [|discriminate].
  apply new_Array_Normal in E. destruct E as [Hn ->]. intros [= <-].
  assert (Hf : fill (emb None (Z.to_nat n) []) (-1) = emb (Some (-1)) (Z.to_nat n) []).
  { unfold emb at 1. simpl. rewrite Nat.sub_0_r. apply fill_repeat. }
  rewrite Hf.
  pose proof (TraceFacts.solve_ok (Z.to_nat n) (Z.to_nat n) [] ltac:(constructor)
                ltac:(simpl; lia) []) as (evs & He & Hok).
  rewrite Z2Nat.id in He by lia. simpl in He. rewrite He. simpl.
  split; [exact Hok|split; [reflexivity|lia]].
Qed.

(** Within the range of array lengths every entry point returns. *)
Lemma runArray_total n :
  0 <= n <= 2 ^ 32 - 1 -> exists r, Gen.runArray n = Normal r.
Proof. intros H. unfold Gen.runArray. rewrite new_Array_emb by lia. eauto. Qed.

Lemma runBitmask_total n :
  0 <= n <= 2 ^ 32 - 1 -> exists r, Gen.runBitmask n = Normal r.
Proof. intros H. unfold Gen.runBitmask. rewrite new_Array_emb by lia. eauto. Qed.

Lemma runTrace_total n :
  0 <= n <= 2 ^ 32 - 1 -> exists r, Trace.runTrace n = Normal r.
Proof. intros H. unfold Trace.runTrace. rewrite new_Array_emb by lia. eauto. Qed.

Lemma cmap_Normal {A B} (f : A -> B) c y :
  cmap f c = Normal y -> exists x, c = Normal x /\ y = f x.
Proof. destruct c; simpl; [intros [= <-]; eauto|discriminate]. Qed.

End Entry.

(* ================================================================== *)
(** ** Boards of solutions and of events *)

(** [b] holds the columns of [n] queens, one per line, forming a
    permutation of [0 .. n-1] with no two queens on a diagonal. *)
Definition is_queens_solution (n : Z) (b : array) : Prop :=
  exists qs, b = map Some qs /\
    Permutation qs (map Z.of_nat (seq 0 (Z.to_nat n))) /\
    forall i j qi qj, i <> j ->
      nth_error qs i = Some qi -> nth_error qs j = Some qj ->
      Z.abs (qi - qj) <> Z.abs (Z.of_nat i - Z.of_nat j).

Section BoardFacts.

Lemma emb_full d N qs : length qs = N -> emb d N qs = map Some qs.
Proof. intros H. unfold emb. rewrite H, Nat.sub_diag. apply app_nil_r. Qed.

Lemma ok_pair_ne w qs i j qi qj :
  ok w qs -> i <> j -> nth_error qs i = Some qi -> nth_error qs j = Some qj ->
  qi <> qj /\ Z.abs (qi - qj) <> Z.abs (Z.of_nat i - Z.of_nat j).
Proof.
  intros Hok Hne Hi Hj. destruct (Nat.lt_ge_cases i j) as [Hlt|Hge].
  - destruct (ok_pair w qs Hok i j qi qj Hlt Hi Hj) as [H1 H2].
    split; auto. rewrite (Z.abs_neq (Z.of_nat i - Z.of_nat j)); lia.
  - destruct (ok_pair w qs Hok j i qj qi ltac:(lia) Hj Hi) as [H1 H2].
    split; [congruence|].
    rewrite (Z.abs_eq (Z.of_nat i - Z.of_nat j)) by lia.
    rewrite <- Z.abs_opp. replace (- (qi - qj)) with (qj - qi) by lia. exact H2.
Qed.

Lemma ok_NoDup w qs : ok w qs -> NoDup qs.
Proof.
  intros Hok. apply NoDup_nth_error. intros i j Hi He.
  destruct (nth_error qs i) as [qi|] eqn:Ei; [|apply nth_error_None in Ei; lia].
  destruct (Nat.eq_dec i j) as [|Hne]; auto.
  destruct (ok_pair_ne w qs i j qi qi Hok Hne Ei (eq_sym He)). congruence.
Qed.

Lemma ok_queens N w qs :
  ok w qs -> w <= Z.of_nat N -> length qs = N ->
  is_queens_solution (Z.of_nat N) (map Some qs).
Proof.
  intros Hok Hw Hlen. exists qs. split; [reflexivity|]. split.
  - apply NoDup_Permutation_bis.
    + eapply ok_NoDup; eauto.
    + rewrite length_map, length_seq, Nat2Z.id. lia.
    + intros q Hq. apply (ok_range _ _ Hok) in Hq.
      apply in_map_iff. exists (Z.to_nat q). split; [lia|].
      apply in_seq. lia.
  - intros i j qi qj Hne Hi Hj. eapply ok_pair_ne; eauto.
Qed.

Lemma binv_solution N w d b :
  w <= Z.of_nat N -> GenFacts.binv N w d [] b true ->
  is_queens_solution (Z.of_nat N) b.
Proof.
  intros Hw (ext & -> & Hok & _ & Hlen). simpl in *.
  specialize (Hlen eq_refl). rewrite emb_full by assumption.
  eapply ok_queens; eauto.
Qed.

Lemma nth_repeat_Some (d : value) m k c :
  nth k (repeat d m) None = Some c -> d = Some c.
Proof.
  revert k. induction m as [|m IH]; intros [|k]; simpl; try discriminate; eauto.
Qed.

Lemma get_emb_queen d N qs i c :
  0 <= i -> get (emb d N qs) i = Some c -> Some c <> d ->
  nth_error qs (Z.to_nat i) = Some c.
Proof.
  intros Hi Hg Hd. unfold get, emb in Hg.
  destruct (Nat.lt_ge_cases (Z.to_nat i) (length qs)) as [Hlt|Hge].
  - rewrite app_nth1 in Hg by (now rewrite length_map).
    destruct (nth_error qs (Z.to_nat i)) as [q|] eqn:E.
    + erewrite nth_error_nth in Hg by (rewrite nth_error_map, E; reflexivity).
      exact Hg.
    + apply nth_error_None in E. lia.
  - rewrite app_nth2 in Hg by (now rewrite length_map).
    apply nth_repeat_Some in Hg. now elim Hd.
Qed.

Lemma no_attack_emb d N w qs : ok w qs -> no_attack d (emb d N qs).
Proof.
  intros Hok i j ci cj Hi Hj Hne Hgi Hgj Hdi Hdj.
  apply get_emb_queen in Hgi; auto. apply get_emb_queen in Hgj; auto.
  assert (Hn : Z.to_nat i <> Z.to_nat j) by lia.
  pose proof (ok_pair_ne w qs _ _ ci cj Hok Hn Hgi Hgj) as H.
  rewrite !Z2Nat.id in H by lia. exact H.
Qed.

Lemma binv_no_attack N w d p b sol :
  GenFacts.binv N w d p b sol -> no_attack d b.
Proof. intros (ext & -> & Hok & _). eapply no_attack_emb; eauto. Qed.

End BoardFacts.

(* ================================================================== *)
(** ** Properties of the traces *)

Lemma solveArray_inv n tr :
  Gen.solveNQueensArray n = Normal tr ->
  exists b, Gen.runArray n = Normal (tr, b) /\
            GenFacts.trace_ok (Z.to_nat n) n [] (tr, b) /\ 0 <= n.
Proof.
  intros H. apply cmap_Normal in H. destruct H as ([tr' b] & Hr & ->).
  exists b. split; auto. now apply runArray_ok.
Qed.

Lemma solveBitmask_inv n tr :
  Gen.solveNQueensBitmask n = Normal tr ->
  exists b, Gen.runBitmask n = Normal (tr, b) /\
            GenFacts.trace_ok (Z.to_nat n) (n mod 32) [] (tr, b) /\ 0 <= n.
Proof.
  intros H. apply cmap_Normal in H. destruct H as ([tr' b] & Hr & ->).
  exists b. split; auto. now apply runBitmask_ok.
Qed.

Lemma computeTrace_inv n tr :
  Trace.computeTraceSteps n = Normal tr ->
  exists b, Trace.runTrace n = Normal (tr, b) /\
            TraceFacts.trace_ok (Z.to_nat n) [] tr /\
            b = emb (Some (-1)) (Z.to_nat n) [] /\ 0 <= n.
Proof.
  intros H. apply cmap_Normal in H. destruct H as ([tr' b] & Hr & ->).
  exists b. split; auto. now apply runTrace_ok in Hr.
Qed.

Lemma gen_is_solution e :
  Gen.act e = Gen.solution -> Gen.is_solution e = true.
Proof. unfold Gen.is_solution. now intros ->. Qed.

Lemma trace_is_solution e :
  Trace.stat e = Trace.solution -> Trace.is_solution e = true.
Proof. unfold Trace.is_solution. now intros ->. Qed.

(** C3: for every n >= 1 and every trace producer (array generator,
    bitmask generator, computeTraceSteps), the board of every event
    tagged "solution" is a permutation of 0..n-1 (every entry set, all
    distinct) with no two indices i, j such that
    |board[i] - board[j]| = |i - j|. *)
Theorem solution_boards_valid (n : Z) :
  1 <= n ->
  (forall tr e, Gen.solveNQueensArray n = Normal tr -> In e tr ->
     Gen.act e = Gen.solution -> is_queens_solution n (Gen.board e)) /\
  (forall tr e, Gen.solveNQueensBitmask n = Normal tr -> In e tr ->
     Gen.act e = Gen.solution -> is_queens_solution n (Gen.board e)) /\
  (forall tr e, Trace.computeTraceSteps n = Normal tr -> In e tr ->
     Trace.stat e = Trace.solution -> is_queens_solution n (Trace.board e)).
Proof.
  intros Hn. repeat split; intros tr e Htr He Hs.
  - apply solveArray_inv in Htr. destruct Htr as (b & _ & [_ Hi _ _] & H0).
    simpl in Hi. rewrite Forall_forall in Hi. specialize (Hi e He).
    rewrite (gen_is_solution e Hs) in Hi.
    rewrite <- (Z2Nat.id n) at 1 by lia.
    eapply binv_solution; [|exact Hi]. lia.
  - apply solveBitmask_inv in Htr. destruct Htr as (b & _ & [_ Hi _ _] & H0).
    simpl in Hi. rewrite Forall_forall in Hi. specialize (Hi e He).
    rewrite (gen_is_solution e Hs) in Hi.
    rewrite <- (Z2Nat.id n) at 1 by lia.
    eapply binv_solution; [|exact Hi].
    pose proof (Z.mod_le n 32 ltac:(lia) ltac:(lia)). lia.
  - apply computeTrace_inv in Htr. destruct Htr as (b & _ & [Hi _ _] & _ & H0).
    rewrite Forall_forall in Hi. specialize (Hi e He).
    rewrite (trace_is_solution e Hs) in Hi.
    rewrite <- (Z2Nat.id n) at 1 by lia.
    eapply binv_solution; [|exact Hi]. lia.
Qed.

Lemma solution_boards_valid_witness :
  1 <= 4 /\ is_queens_solution 4 [Some 1; Some 3; Some 0; Some 2].
Proof.
  split; [lia|].
  destruct (solution_boards_valid 4 ltac:(lia)) as [H _].
  refine (H _ (Gen.mkStep None None Gen.solution
                 [Some 1; Some 3; Some 0; Some 2]) _ _ eq_refl).
  - vm_compute. reflexivity.
  - apply nth_error_In with (n := 12%nat). reflexivity.
Defined.

(** C5: for every n >= 1 and every trace producer, the boards of the
    "solution" events, in trace order and read as column sequences, are
    in strictly increasing lexicographic order. *)
Theorem solutions_lex_increasing (n : Z) :
  1 <= n ->
  (forall tr, Gen.solveNQueensArray n = Normal tr ->
     StronglySorted lex_lt (Gen.solutions tr)) /\
  (forall tr, Gen.solveNQueensBitmask n = Normal tr ->
     StronglySorted lex_lt (Gen.solutions tr)) /\
  (forall tr, Trace.computeTraceSteps n = Normal tr ->
     StronglySorted lex_lt (Trace.solutions tr)).
Proof.
  intros Hn. repeat split; intros tr Htr.
  - apply solveArray_inv in Htr. now destruct Htr as (b & _ & [_ _ Hs _] & _).
  - apply solveBitmask_inv in Htr. now destruct Htr as (b & _ & [_ _ Hs _] & _).
  - apply computeTrace_inv in Htr. now destruct Htr as (b & _ & [_ Hs _] & _).
Qed.

Lemma solutions_lex_increasing_witness :
  1 <= 5 /\
  StronglySorted lex_lt
    (match Gen.solveNQueensBitmask 5 with
     | Normal tr => Gen.solutions tr
     | Throw _ => []
     end).
Proof.
  split; [lia|].
  destruct (solutions_lex_increasing 5 ltac:(lia)) as (_ & H & _).
  destruct (Gen.solveNQueensBitmask 5) as [tr|]; [|constructor].
  now apply H.
Defined.

(** C7: for every n >= 1 and every trace producer, placements and
    removals are bracketed: every place(d) event is closed later by the
    remove/backtrack event of the same coordinate, the events in between
    being bracketed likewise; hence the two kinds are equally many at
    every coordinate and at every depth; and the search leaves no queen
    on the board. *)
Theorem placements_balanced (n : Z) :
  1 <= n ->
  (forall tr b, Gen.runArray n = Normal (tr, b) ->
     balanced GenFacts.kind tr /\
     (forall r c, count GenFacts.kind (opens_at r c) tr =
                  count GenFacts.kind (closes_at r c) tr) /\
     (forall r, count GenFacts.kind (opens_depth r) tr =
                count GenFacts.kind (closes_depth r) tr) /\
     b = repeat None (Z.to_nat n)) /\
  (forall tr b, Gen.runBitmask n = Normal (tr, b) ->
     balanced GenFacts.kind tr /\
     (forall r c, count GenFacts.kind (opens_at r c) tr =
                  count GenFacts.kind (closes_at r c) tr) /\
     (forall r, count GenFacts.kind (opens_depth r) tr =
                count GenFacts.kind (closes_depth r) tr) /\
     b = repeat None (Z.to_nat n)) /\
  (forall tr b, Trace.runTrace n = Normal (tr, b) ->
     balanced TraceFacts.kind tr /\
     (forall c r, count TraceFacts.kind (opens_at c r) tr =
                  count TraceFacts.kind (closes_at c r) tr) /\
     (forall c, count TraceFacts.kind (opens_depth c) tr =
                count TraceFacts.kind (closes_depth c) tr) /\
     b = repeat (Some (-1)) (Z.to_nat n)).
Proof.
  intros Hn. split; [|split]; intros tr b Hr.
  - apply runArray_ok in Hr. destruct Hr as [[Hb _ _ Hbal] _]. simpl in *.
    repeat split; auto using balanced_coordinate, balanced_depth.
    rewrite Hb. unfold emb. simpl. now rewrite Nat.sub_0_r.
  - apply runBitmask_ok in Hr. destruct Hr as [[Hb _ _ Hbal] _]. simpl in *.
    repeat split; auto using balanced_coordinate, balanced_depth.
    rewrite Hb. unfold emb. simpl. now rewrite Nat.sub_0_r.
  - apply runTrace_ok in Hr. destruct Hr as ([_ _ Hbal] & Hb & _). simpl in *.
    repeat split; auto using balanced_coordinate, balanced_depth.
    rewrite Hb. unfold emb. simpl. now rewrite Nat.sub_0_r.
Qed.

Lemma placements_balanced_witness :
  1 <= 4 /\
  match Trace.runTrace 4 with
  | Normal (tr, b) =>
      balanced TraceFacts.kind tr /\
      count TraceFacts.kind (opens_depth 1) tr =
      count TraceFacts.kind (closes_depth 1) tr /\
      b = [Some (-1); Some (-1); Some (-1); Some (-1)]
  | Throw _ => False
  end.
Proof.
  split; [lia|].
  destruct (placements_balanced 4 ltac:(lia)) as (_ & _ & H).
  destruct (Trace.runTrace 4) as [[tr b]|] eqn:E; [|discriminate].
  destruct (H tr b eq_refl) as (H1 & _ & H3 & H4). auto.
Defined.

(** C8: for every n >= 1 and every trace producer, in the board carried
    by every event of every variant (and in the board the search leaves)
    any two distinct set entries i, j have board[i] <> board[j] and
    |board[i] - board[j]| <> |i - j|. *)
Theorem boards_never_attack (n : Z) :
  1 <= n ->
  (forall tr b, Gen.runArray n = Normal (tr, b) ->
     (forall e, In e tr -> no_attack None (Gen.board e)) /\ no_attack None b) /\
  (forall tr b, Gen.runBitmask n = Normal (tr, b) ->
     (forall e, In e tr -> no_attack None (Gen.board e)) /\ no_attack None b) /\
  (forall tr b, Trace.runTrace n = Normal (tr, b) ->
     (forall e, In e tr -> no_attack (Some (-1)) (Trace.board e)) /\
     no_attack (Some (-1)) b).
Proof.
  intros Hn. split; [|split]; intros tr b Hr.
  - apply runArray_ok in Hr. destruct Hr as [[Hb Hi _ _] _]. simpl in *. split.
    + intros e He. rewrite Forall_forall in Hi.
      eapply binv_no_attack. exact (Hi e He).
    + rewrite Hb. apply (no_attack_emb None _ n). constructor.
  - apply runBitmask_ok in Hr. destruct Hr as [[Hb Hi _ _] _]. simpl in *. split.
    + intros e He. rewrite Forall_forall in Hi.
      eapply binv_no_attack. exact (Hi e He).
    + rewrite Hb. apply (no_attack_emb None _ n). constructor.
  - apply runTrace_ok in Hr. destruct Hr as ([Hi _ _] & Hb & _). simpl in *. split.
    + intros e He. rewrite Forall_forall in Hi.
      eapply binv_no_attack. exact (Hi e He).
    + rewrite Hb. apply (no_attack_emb _ _ n). constructor.
Qed.

Lemma boards_never_attack_witness :
  1 <= 4 /\ no_attack None [Some 1; Some 3; Some 0; None].
Proof.
  split; [lia|].
  destruct (boards_never_attack 4 ltac:(lia)) as [H _].
  destruct (Gen.runArray 4) as [[tr b]|] eqn:E; [|discriminate].
  destruct (H tr b eq_refl) as [He _].
  apply (He (Gen.mkStep (Some 2) (Some 0) Gen.place [Some 1; Some 3; Some 0; None])).
  injection E as <- _. apply nth_error_In with (n := 10%nat). reflexivity.
Defined.

(* ================================================================== *)
(** ** Counting against the traces *)

(** Number of events tagged "solution". *)
Definition solution_events (tr : list Gen.step) : Z :=
  Z.of_nat (length (filter Gen.is_solution tr)).

Module CountFacts.
Import Gen.

Lemma solution_events_bracket e1 sub e2 rest :
  is_solution e1 = false -> is_solution e2 = false ->
  solution_events (e1 :: sub ++ e2 :: rest) =
  solution_events sub + solution_events rest.
Proof.
  intros H1 H2. unfold solution_events. simpl. rewrite H1, filter_app. simpl.
  rewrite H2, length_app. lia.
Qed.

Lemma count_col_for_col rc rg row :
  (forall count b, rc (count, b) =
                   (count + solution_events (fst (rg b)), snd (rg b))) ->
  forall todo col count b,
    count_col rc row todo col (count, b) =
    (count + solution_events (fst (for_col rg row todo col b)),
     snd (for_col rg row todo col b)).
Proof.
  intros H. induction todo as [|t IH]; intros col count b; simpl.
  - f_equal. unfold solution_events. simpl. lia.
  - destruct (valid b row col); auto.
    rewrite H. destruct (rg _) as [sub b2]. simpl. rewrite IH.
    destruct (for_col rg row t (col + 1) _) as [rest b4]. simpl.
    rewrite solution_events_bracket by reflexivity. f_equal. lia.
Qed.

Lemma countBacktrack_backtrack n depth row count b :
  countBacktrack n depth row (count, b) =
  (count + solution_events (fst (backtrack n depth row b)),
   snd (backtrack n depth row b)).
Proof.
  revert row count b. induction depth as [|d IH]; intros row count b; simpl;
    destruct (row =? n); simpl; try reflexivity.
  - f_equal. unfold solution_events. simpl. lia.
  - apply count_col_for_col. intros count' b'. apply IH.
Qed.

Lemma countBits_eq n depth row columns diag1 diag2 count :
  countBits n depth row columns diag1 diag2 count =
  if row =? n then count + 1
  else match depth with
       | O => count
       | S depth' =>
           count_pick
             (fun pick =>
                countBits n depth' (row + 1) (bor columns pick)
                  (shl (bor diag1 pick) 1) (sar (bor diag2 pick) 1))
             32%nat (available_of n columns diag1 diag2) count
       end.
Proof. destruct depth; reflexivity. Qed.

Lemma count_pick_for_pick rc rg row :
  (forall pick count b, rc pick count =
                        count + solution_events (fst (rg pick b))) ->
  forall turns a count b,
    count_pick rc turns a count =
    count + solution_events (fst (for_pick rg row turns a b)).
Proof.
  intros H. induction turns as [|t IH]; intros a count b; simpl.
  - unfold solution_events. simpl. lia.
  - destruct (a =? 0).
    + unfold solution_events. simpl. lia.
    + rewrite (H _ count (set b row (Some (log2 (band a (- a)))))).
      destruct (rg _ _) as [sub b2]. simpl.
      rewrite (IH _ _ (set b2 row None)).
      destruct (for_pick rg row t _ _) as [rest b4]. simpl.
      rewrite solution_events_bracket by reflexivity. lia.
Qed.

Lemma countBits_backtrackBits n depth row columns diag1 diag2 count b :
  countBits n depth row columns diag1 diag2 count =
  count + solution_events (fst (backtrackBits n depth row columns diag1 diag2 b)).
Proof.
  revert row columns diag1 diag2 count b.
  assert (H1 : forall e, solution_events [mkStep None None solution e] = 1)
    by reflexivity.
  assert (H0 : solution_events [] = 0) by reflexivity.
  induction depth as [|d IH]; intros row columns diag1 diag2 count b;
    rewrite countBits_eq, BitmaskFacts.backtrackBits_eq;
    destruct (row =? n); cbn [fst]; rewrite ?H1, ?H0; try lia.
  apply count_pick_for_pick. intros pick count' b'. apply IH.
Qed.

Lemma count_pick_ext r1 r2 turns a count :
  (forall pick c, r1 pick c = r2 pick c) ->
  count_pick r1 turns a count = count_pick r2 turns a count.
Proof.
  intros H. revert a count. induction turns as [|t IH]; intros a count; simpl; auto.
  destruct (a =? 0); auto. now rewrite H, IH.
Qed.

(** Beyond [n - row] the depth bound plays no part (the counter). *)
Lemma countBits_depth n d1 : forall d2 row columns diag1 diag2 count,
  row <= n -> (Z.to_nat (n - row) <= d1)%nat -> (Z.to_nat (n - row) <= d2)%nat ->
  countBits n d1 row columns diag1 diag2 count =
  countBits n d2 row columns diag1 diag2 count.
Proof.
  induction d1 as [|d1 IH]; intros d2 row columns diag1 diag2 count Hr H1 H2;
    rewrite !(countBits_eq n _ row); destruct (Z.eqb_spec row n); auto; try lia.
  destruct d2 as [|d2]; [lia|].
  apply count_pick_ext. intros pick c. apply IH; lia.
Qed.

End CountFacts.

(** C4: for every n >= 1, the number of "solution" events of the full
    trace of a strategy's generator is the value returned by the counting
    function of the same strategy. *)
Theorem solution_events_match_count (n : Z) :
  1 <= n ->
  (forall tr, Gen.solveNQueensArray n = Normal tr ->
     Gen.countSolutionsArray n = Normal (solution_events tr)) /\
  (forall tr, Gen.solveNQueensBitmask n = Normal tr ->
     Gen.countSolutionsBitmask n = Normal (solution_events tr)).
Proof.
  intros Hn. split; intros tr Htr.
  - unfold Gen.solveNQueensArray, Gen.runArray in Htr.
    unfold Gen.countSolutionsArray.
    destruct (new_Array n) as [b|]; [|discriminate]. simpl in Htr.
    injection Htr as <-. now rewrite CountFacts.countBacktrack_backtrack.
  - unfold Gen.solveNQueensBitmask, Gen.runBitmask in Htr.
    unfold Gen.countSolutionsBitmask.
    destruct (new_Array n) as [b|]; [|discriminate]. simpl in Htr.
    injection Htr as <-.
    rewrite (CountFacts.countBits_depth n _ (Z.to_nat n)) by lia.
    now rewrite (CountFacts.countBits_backtrackBits n _ _ _ _ _ _ b).
Qed.

Lemma solution_events_match_count_witness :
  1 <= 6 /\ Gen.countSolutionsBitmask 6 = Normal 4 /\
  Gen.countSolutionsArray 6 = Normal 4.
Proof.
  split; [lia|].
  destruct (solution_events_match_count 6 ltac:(lia)) as [Ha Hb].
  split.
  - assert (E : exists tr, Gen.solveNQueensBitmask 6 = Normal tr /\
                           solution_events tr = 4).
    { eexists. split; vm_compute; reflexivity. }
    destruct E as (tr & E1 & E2). now rewrite (Hb tr E1), E2.
  - assert (E : exists tr, Gen.solveNQueensArray 6 = Normal tr /\
                           solution_events tr = 4).
    { eexists. split; vm_compute; reflexivity. }
    destruct E as (tr & E1 & E2). now rewrite (Ha tr E1), E2.
Defined.

(* ================================================================== *)
(** ** The two strategies against each other *)

Lemma backtrack_eq n depth row b :
  Gen.backtrack n depth row b =
  if row =? n then ([Gen.mkStep None None Gen.solution b], b)
  else match depth with
       | O => ([], b)
       | S depth' =>
           Gen.for_col (Gen.backtrack n depth' (row + 1)) row (Z.to_nat n) 0 b
       end.
Proof. destruct depth; reflexivity. Qed.

(** The array generator starts by placing a queen at (0, 0). *)
Lemma array_first_event n :
  1 <= n <= 2 ^ 32 - 1 ->
  exists e tr, Gen.solveNQueensArray n = Normal (e :: tr) /\
               Gen.act e = Gen.place /\ Gen.row e = Some 0 /\ Gen.col e = Some 0.
Proof.
  intros Hn. unfold Gen.solveNQueensArray, Gen.runArray.
  rewrite new_Array_emb by lia. unfold cmap.
  destruct (Z.to_nat n) as [|k] eqn:E; [lia|].
  rewrite backtrack_eq. replace (0 =? n) with false by (symmetry; apply Z.eqb_neq; lia).
  rewrite E. cbn [Gen.for_col].
  change (Gen.valid (emb None (S k) []) 0 0) with true. cbv iota.
  destruct (Gen.backtrack n k (0 + 1) _) as [sub b2].
  destruct (Gen.for_col _ 0 k (0 + 1) _) as [rest b4].
  cbn [fst]. eexists _, _. repeat split.
Qed.

(** C2, as the code has it: for every n with 1 <= n <= 31 the two
    generators yield the same sequence of events, element by element
    (same actions, coordinates and board snapshots, in the same order).
    Beyond 31 the 32-bit mask [(1 << n) - 1] no longer covers the board. *)
Theorem strategies_same_trace (n : Z) :
  1 <= n <= 31 ->
  exists tr, Gen.solveNQueensArray n = Normal tr /\
             Gen.solveNQueensBitmask n = Normal tr.
Proof.
  intros Hn. unfold Gen.solveNQueensArray, Gen.solveNQueensBitmask,
    Gen.runArray, Gen.runBitmask.
  rewrite new_Array_emb by lia. unfold cmap. eexists. split; [reflexivity|].
  f_equal. f_equal.
  pose proof (BitmaskFacts.backtrackBits_w (Z.to_nat n) (Z.to_nat n) [] 0 0 0) as H.
  cbv zeta in H. rewrite Z2Nat.id, Z.mod_small in H by lia.
  change (Z.of_nat (length (@nil Z))) with 0 in H.
  rewrite H; [|constructor|apply MaskFacts.masks_init|reflexivity].
  symmetry. apply GenFacts.backtrack_w_n.
Qed.

Lemma strategies_same_trace_witness :
  1 <= 5 <= 31 /\ Gen.solveNQueensArray 5 = Gen.solveNQueensBitmask 5.
Proof.
  split; [lia|].
  destruct (strategies_same_trace 5 ltac:(lia)) as (tr & Ha & Hb).
  now rewrite Ha, Hb.
Defined.

(** C2 as stated fails at n = 32: the mask [(1 << 32) - 1] is 0, the
    bitmask generator yields nothing, the array generator places queens. *)
Lemma strategies_differ_at_32 :
  Gen.solveNQueensBitmask 32 = Normal [] /\
  Gen.solveNQueensArray 32 <> Gen.solveNQueensBitmask 32.
Proof.
  assert (Hb : Gen.solveNQueensBitmask 32 = Normal []) by (vm_compute; reflexivity).
  split; auto. rewrite Hb.
  destruct (array_first_event 32 ltac:(lia)) as (e & tr & -> & _).
  discriminate.
Qed.

(* ================================================================== *)
(** ** Availability against the scan *)

(** [available] after [k] turns of the [while] loop. *)
Fixpoint after_turns (k : nat) (available : Z) : Z :=
  match k with
  | O => available
  | S k' => after_turns k' (band available (available - 1))
  end.

(** The arguments and the board of the calls of [backtrack] in the
    bitmask strategy: the first call, and from a call at [row <> n] the
    call made in any turn of its loop. *)
Inductive reachable (n : Z) : Z -> Z -> Z -> Z -> array -> Prop :=
| reach_start b : new_Array n = Normal b -> reachable n 0 0 0 0 b
| reach_pick row columns diag1 diag2 b k available pick :
    reachable n row columns diag1 diag2 b -> row <> n ->
    available = after_turns k (Gen.available_of n columns diag1 diag2) ->
    available <> 0 ->
    pick = band available (- available) ->
    reachable n (row + 1) (bor columns pick) (shl (bor diag1 pick) 1)
      (sar (bor diag2 pick) 1) (set b row (Some (log2 pick))).

Lemma after_turns_bits k : forall a,
  0 <= a < 2 ^ 31 ->
  0 <= after_turns k a < 2 ^ 31 /\
  forall i, 0 <= i -> Z.testbit (after_turns k a) i = true -> Z.testbit a i = true.
Proof.
  induction k as [|k IH]; intros a Ha; simpl; [auto|].
  assert (Hr : 0 <= Z.land a (a - 1) < 2 ^ 31).
  { split; [apply Z.land_nonneg; lia|].
    apply bits_range; [apply Z.land_nonneg; lia|lia|].
    intros i Hi. rewrite Z.land_spec, (range_bits a 31 i) by lia. reflexivity. }
  rewrite band_pred by assumption.
  destruct (IH _ Hr) as [H1 H2]. split; auto.
  intros i Hi Hb. apply H2 in Hb; auto.
  rewrite Z.land_spec in Hb. now apply andb_true_iff in Hb.
Qed.

(** [pick] is an exact power of two: the lowest set bit of [available]. *)
Lemma pick_is_pow2 a :
  0 <= a < 2 ^ 31 -> a <> 0 ->
  exists c, 0 <= c /\ Z.testbit a c = true /\ band a (- a) = 2 ^ c /\
            log2 (band a (- a)) = c.
Proof.
  intros Ha Hne. destruct (lowest_bit_exists a ltac:(lia)) as (c & Hc & Hb & Hl).
  destruct (lowest_bit c Hc a Hb Hl) as [Hp _].
  exists c. rewrite band_opp, Hp by assumption. unfold log2.
  rewrite Z.log2_pow2 by assumption. auto.
Qed.

Lemma reachable_inv n row columns diag1 diag2 b :
  0 <= n <= 31 -> reachable n row columns diag1 diag2 b ->
  exists p, row = Z.of_nat (length p) /\ (length p <= Z.to_nat n)%nat /\
            b = emb None (Z.to_nat n) p /\ ok n p /\
            MaskFacts.masks p columns diag1 diag2.
Proof.
  intros Hn. induction 1 as [b Hb|row columns diag1 diag2 b k a pick Hr IH Hrow Ha Hne Hp].
  - exists []. rewrite new_Array_emb in Hb by lia. injection Hb as <-.
    split; [reflexivity|]. split; [simpl; lia|]. split; [reflexivity|].
    split; [constructor|apply MaskFacts.masks_init].
  - destruct IH as (p & -> & Hlen & -> & Hok & Hm).
    assert (Hpos : forall q, In q p -> 0 <= q).
    { intros q Hq. apply (ok_range _ _ Hok) in Hq. lia. }
    pose proof (MaskFacts.available_range n columns diag1 diag2) as Hav.
    destruct (after_turns_bits k _ Hav) as [Hrange Hsub]. rewrite <- Ha in *.
    destruct (pick_is_pow2 a Hrange Hne) as (c & Hc & Hbit & Hpick & Hlog).
    rewrite <- Hp in *. rewrite Hlog, Hpick.
    apply Hsub in Hbit; auto.
    apply (MaskFacts.available_bits n p) in Hbit; auto.
    rewrite Z.mod_small in Hbit by lia. destruct Hbit as [Hcn Hsafe].
    exists (p ++ [c]). rewrite length_app. simpl.
    split; [lia|]. split; [lia|]. split; [|split].
    + rewrite set_emb_push; auto; lia.
    + constructor; auto; lia.
    + apply MaskFacts.masks_step; auto; lia.
Qed.

(** C9: for every state the bitmask search reaches with 0 <= n <= 30,
    bit c of [((1 << n) - 1) & ~(columns | diag1 | diag2)] is set exactly
    when column c passes the scan of the array strategy at the current
    row, for every column c of the board. *)
Theorem available_agrees_with_scan (n row columns diag1 diag2 : Z) (b : array) :
  0 <= n <= 30 ->
  reachable n row columns diag1 diag2 b ->
  forall c, 0 <= c < n ->
    Z.testbit (Gen.available_of n columns diag1 diag2) c = Gen.valid b row c.
Proof.
  intros Hn Hr c Hc.
  destruct (reachable_inv n row columns diag1 diag2 b ltac:(lia) Hr)
    as (p & -> & Hlen & -> & Hok & Hm).
  apply eq_iff_eq_true.
  rewrite (MaskFacts.available_bits n p), valid_emb; try lia; auto.
  - rewrite Z.mod_small by lia. intuition lia.
  - intros q Hq. apply (ok_range _ _ Hok) in Hq. lia.
Qed.

Lemma available_agrees_with_scan_witness :
  0 <= 4 <= 30 /\
  reachable 4 1 2 4 1 [Some 1; None; None; None] /\
  Z.testbit (Gen.available_of 4 2 4 1) 3 = Gen.valid [Some 1; None; None; None] 1 3.
Proof.
  assert (Hr : reachable 4 1 2 4 1 [Some 1; None; None; None]).
  { apply (reach_pick 4 0 0 0 0 [None; None; None; None] 1 14 2).
    - now apply reach_start.
    - lia.
    - reflexivity.
    - lia.
    - reflexivity. }
  split; [lia|]. split; [exact Hr|].
  apply (available_agrees_with_scan 4 1 2 4 1 _ ltac:(lia) Hr); lia.
Defined.

(* ================================================================== *)
(** ** Known counts and the sizes below one *)

(** C1: for N in {1, 4, 5, 6, 7, 8} both counting functions return the
    known numbers of solutions 1, 2, 10, 4, 40, 92, and for N = 2 and
    N = 3 both return 0. *)
Theorem counts_known :
  map (fun n => (Gen.countSolutionsArray n, Gen.countSolutionsBitmask n))
      [1; 4; 5; 6; 7; 8; 2; 3] =
  [(Normal 1, Normal 1); (Normal 2, Normal 2); (Normal 10, Normal 10);
   (Normal 4, Normal 4); (Normal 40, Normal 40); (Normal 92, Normal 92);
   (Normal 0, Normal 0); (Normal 0, Normal 0)].
Proof. vm_compute. reflexivity. Qed.

(** C10: for n = 0 every entry point takes the empty board for one
    solution: the three trace producers yield exactly one event, a
    "solution" carrying the empty board, and both counters return 1. *)
Theorem empty_board_one_solution :
  Gen.solveNQueensArray 0 = Normal [Gen.mkStep None None Gen.solution []] /\
  Gen.solveNQueensBitmask 0 = Normal [Gen.mkStep None None Gen.solution []] /\
  Trace.computeTraceSteps 0 = Normal [Trace.mkStep [] None Trace.solution] /\
  Gen.countSolutionsArray 0 = Normal 1 /\
  Gen.countSolutionsBitmask 0 = Normal 1.
Proof. repeat split. Qed.

(** A call is rejected when it ends in an exception. *)
Definition rejected {A} (c : completion A) : Prop :=
  match c with
  | Throw _ => True
  | Normal _ => False
  end.

(** *** The size argument as a JavaScript number

    No entry point checks its argument, and the form hands over
    [parseInt(queenCount)] (App.jsx 166, 209): an integer, or NaN when
    the field holds no number.  The code applies three operations to
    [n]: the array constructor, the comparison [row === n] with an
    integer [row], and the shift [1 << n].  A number is given with what
    these three read of it. *)
Module Num.

Inductive number :=
| Int (z : Z)                (* an integer *)
| Fraction (trunc : Z)       (* finite, not an integer; [trunc] is the
                                number rounded toward zero: 2 for 2.5 *)
| Infinite (negative : bool) (* Infinity, -Infinity *)
| NaN.

(** [new Array(n)] / [Array(n)]: a [RangeError] unless [n] is an integer
    in [0, 2^32 - 1]. *)
Definition new_Array (len : number) : completion array :=
  match len with
  | Int z => Js.new_Array z
  | Fraction _ | Infinite _ | NaN => Throw RangeError
  end.

(** [row === n] for an integer [row]. *)
Definition strict_eq (row : Z) (n : number) : bool :=
  match n with
  | Int z => row =? z
  | Fraction _ | Infinite _ | NaN => false
  end.

(** The integer a shift takes its count from: [n] rounded toward zero,
    0 for NaN and the infinities. *)
Definition integer_part (n : number) : Z :=
  match n with
  | Int z => z
  | Fraction trunc => trunc
  | Infinite _ | NaN => 0
  end.

(** [a << n]. *)
Definition shl (a : Z) (n : number) : Z := Js.shl a (integer_part n).

(** The four entry points that allocate a board do so in their first
    statement, and run nothing more when it throws; where it succeeds
    [n] is an integer and the body is the one embedded in [Gen] and
    [Trace]. *)
Definition after_allocation {A} (body : Z -> completion A) (n : number)
    : completion A :=
  match new_Array n with
  | Normal _ => body (integer_part n)
  | Throw e => Throw e
  end.

Definition solveNQueensArray : number -> completion (list Gen.step) :=
  after_allocation Gen.solveNQueensArray.

Definition solveNQueensBitmask : number -> completion (list Gen.step) :=
  after_allocation Gen.solveNQueensBitmask.

Definition countSolutionsArray : number -> completion Z :=
  after_allocation Gen.countSolutionsArray.

Definition computeTraceSteps : number -> completion (list Trace.step) :=
  after_allocation Trace.computeTraceSteps.

(** [countSolutionsBitmask] allocates nothing: its body runs whatever
    [n] is. *)
Definition available_of (n : number) (columns diag1 diag2 : Z) : Z :=
  band (shl 1 n - 1) (bnot (bor (bor columns diag1) diag2)).

Fixpoint countBits (n : number) (depth : nat)
    (row columns diag1 diag2 : Z) (count : Z) : Z :=
  if strict_eq row n then count + 1
  else match depth with
       | O => count
       | S depth' =>
           Gen.count_pick
             (fun pick =>
                countBits n depth' (row + 1) (bor columns pick)
                  (Js.shl (bor diag1 pick) 1) (sar (bor diag2 pick) 1))
             32%nat (available_of n columns diag1 diag2) count
       end.

(** The bound on the nesting: that of [Gen.countSolutionsBitmask] for an
    integer; otherwise [row === n] never holds and every level uses up
    one of at most 31 mask bits. *)
Definition nesting (n : number) : nat :=
  match n with
  | Int z => Z.to_nat (Z.max z 32)
  | Fraction _ | Infinite _ | NaN => 32%nat
  end.

Definition countSolutionsBitmask (n : number) : completion Z :=
  Normal (countBits n (nesting n) 0 0 0 0 0).

End Num.

(** What the specification asks of [n]: a positive integer. *)
Definition positive_integer (n : Num.number) : Prop :=
  exists z, n = Num.Int z /\ 1 <= z.

(** On an integer the entry points are those of [Gen] and [Trace]. *)
Lemma countBits_Int z depth : forall row columns diag1 diag2 count,
  Num.countBits (Num.Int z) depth row columns diag1 diag2 count =
  Gen.countBits z depth row columns diag1 diag2 count.
Proof.
  induction depth as [|d IH]; intros row columns diag1 diag2 count;
    rewrite CountFacts.countBits_eq; cbn [Num.countBits Num.strict_eq];
    (destruct (row =? z); [reflexivity|]); [reflexivity|].
  change (Num.available_of (Num.Int z) columns diag1 diag2)
    with (Gen.available_of z columns diag1 diag2).
  apply CountFacts.count_pick_ext. intros pick c. apply IH.
Qed.

Lemma countSolutionsBitmask_Int z :
  Num.countSolutionsBitmask (Num.Int z) = Gen.countSolutionsBitmask z.
Proof.
  unfold Num.countSolutionsBitmask, Gen.countSolutionsBitmask.
  cbn [Num.nesting]. now rewrite countBits_Int.
Qed.

Lemma after_allocation_Int {A} (body : Z -> completion A) z :
  (forall e, new_Array z = Throw e -> body z = Throw e) ->
  Num.after_allocation body (Num.Int z) = body z.
Proof.
  intros H. unfold Num.after_allocation. cbn [Num.new_Array Num.integer_part].
  destruct (new_Array z) as [b|e]; auto. symmetry. now apply H.
Qed.

Lemma entry_points_Int z :
  Num.solveNQueensArray (Num.Int z) = Gen.solveNQueensArray z /\
  Num.solveNQueensBitmask (Num.Int z) = Gen.solveNQueensBitmask z /\
  Num.countSolutionsArray (Num.Int z) = Gen.countSolutionsArray z /\
  Num.computeTraceSteps (Num.Int z) = Trace.computeTraceSteps z /\
  Num.countSolutionsBitmask (Num.Int z) = Gen.countSolutionsBitmask z.
Proof.
  split; [|split; [|split; [|split]]];
    try apply countSolutionsBitmask_Int;
    apply after_allocation_Int; intros e E;
    unfold Gen.solveNQueensArray, Gen.runArray, Gen.solveNQueensBitmask,
      Gen.runBitmask, Gen.countSolutionsArray, Trace.computeTraceSteps,
      Trace.runTrace; now rewrite E.
Qed.

(** C6 as stated fails: at n = 0 no entry point rejects the call, and
    countSolutionsBitmask answers 0 to NaN, to 2.5 and to -32. *)
Lemma invalid_sizes_accepted :
  (~ rejected (Num.solveNQueensArray (Num.Int 0)) /\
   ~ rejected (Num.solveNQueensBitmask (Num.Int 0)) /\
   ~ rejected (Num.countSolutionsArray (Num.Int 0)) /\
   ~ rejected (Num.countSolutionsBitmask (Num.Int 0)) /\
   ~ rejected (Num.computeTraceSteps (Num.Int 0))) /\
  Num.countSolutionsBitmask Num.NaN = Normal 0 /\
  Num.countSolutionsBitmask (Num.Fraction 2) = Normal 0 /\
  Num.countSolutionsBitmask (Num.Int (-32)) = Normal 0.
Proof.
  split; [repeat split; intros H; exact H|].
  split; [|split]; vm_compute; reflexivity.
Qed.

(** C6, as the code has it: no entry point checks n.  For an n that is
    not a positive integer, the two generators, countSolutionsArray and
    computeTraceSteps are rejected unless n is 0: a negative, a
    non-integral and a non-numeric n make their first statement, the
    board allocation, raise a RangeError, so that no search step is
    taken.  countSolutionsBitmask, which allocates nothing, rejects
    no n. *)
Theorem invalid_size_handling (n : Num.number) :
  ~ positive_integer n ->
  (rejected (Num.solveNQueensArray n) <-> n <> Num.Int 0) /\
  (rejected (Num.solveNQueensBitmask n) <-> n <> Num.Int 0) /\
  (rejected (Num.countSolutionsArray n) <-> n <> Num.Int 0) /\
  (rejected (Num.computeTraceSteps n) <-> n <> Num.Int 0) /\
  (n <> Num.Int 0 -> Num.new_Array n = Throw RangeError) /\
  ~ rejected (Num.countSolutionsBitmask n).
Proof.
  intros Hn.
  assert (Hb : ~ rejected (Num.countSolutionsBitmask n)) by (intros H; exact H).
  assert (Ha : forall A (body : Z -> completion A),
             (forall z e, new_Array z = Throw e -> body z = Throw e) ->
             (forall e, body 0 <> Throw e) ->
             (rejected (Num.after_allocation body n) <-> n <> Num.Int 0)).
  { intros A body Hthrow Hzero. destruct n as [z| t | s |];
      try (cbn; split; intros; easy).
    rewrite after_allocation_Int by apply Hthrow.
    destruct (Z.eq_dec z 0) as [->|Hne].
    - destruct (body 0) as [a|e]; cbn; [split; intros; easy|].
      now destruct (Hzero e).
    - assert (z < 0) by (destruct (Z_lt_le_dec z 1); [lia|];
                         exfalso; apply Hn; now exists z).
      rewrite (Hthrow z RangeError) by (apply new_Array_throw; lia).
      cbn. split; intros; auto. congruence. }
  assert (Hnew : n <> Num.Int 0 -> Num.new_Array n = Throw RangeError).
  { intros Hne. destruct n as [z| t | s |]; auto. cbn [Num.new_Array].
    apply new_Array_throw.
    destruct (Z_lt_le_dec z 1); [|exfalso; apply Hn; now exists z].
    assert (z <> 0) by congruence. lia. }
  split; [|split; [|split; [|split; [|split; [exact Hnew|exact Hb]]]]];
    apply Ha; intros;
    unfold Gen.solveNQueensArray, Gen.runArray, Gen.solveNQueensBitmask,
      Gen.runBitmask, Gen.countSolutionsArray, Trace.computeTraceSteps,
      Trace.runTrace in *;
    match goal with
    | E : new_Array _ = Throw _ |- _ => now rewrite E
    | |- _ <> _ => vm_compute; discriminate
    end.
Qed.

Lemma invalid_size_handling_witness :
  ~ positive_integer Num.NaN /\
  rejected (Num.solveNQueensArray Num.NaN) /\
  rejected (Num.solveNQueensBitmask Num.NaN) /\
  rejected (Num.countSolutionsArray Num.NaN) /\
  rejected (Num.computeTraceSteps Num.NaN) /\
  ~ rejected (Num.countSolutionsBitmask Num.NaN).
Proof.
  assert (H : ~ positive_integer Num.NaN) by (intros (z & Hz & _); discriminate).
  destruct (invalid_size_handling Num.NaN H) as (H1 & H2 & H3 & H4 & _ & H5).
  split; [exact H|].
  split; [apply H1; discriminate|]. split; [apply H2; discriminate|].
  split; [apply H3; discriminate|]. split; [apply H4; discriminate|]. exact H5.
Defined.

(* ================================================================== *)
(** ** The depth and turn bounds of the model *)

(** [n - row] nested calls are enough for [backtrack]: any larger bound
    gives the same events and the same board. *)
Lemma backtrack_depth n d1 : forall d2 row b,
  row <= n -> (Z.to_nat (n - row) <= d1)%nat -> (Z.to_nat (n - row) <= d2)%nat ->
  Gen.backtrack n d1 row b = Gen.backtrack n d2 row b.
Proof.
  induction d1 as [|d1 IH]; intros d2 row b Hr H1 H2;
    rewrite !(backtrack_eq n _ row); destruct (Z.eqb_spec row n); auto; try lia.
  destruct d2 as [|d2]; [lia|].
  apply GenFacts.for_col_ext. intros b'. apply IH; lia.
Qed.

Lemma for_pick_ext r1 r2 row turns a b :
  (forall pick b', r1 pick b' = r2 pick b') ->
  Gen.for_pick r1 row turns a b = Gen.for_pick r2 row turns a b.
Proof.
  intros H. revert a b. induction turns as [|t IH]; intros a b; simpl; auto.
  destruct (a =? 0); auto. rewrite H. destruct (r2 _ _) as [sub b2].
  now rewrite IH.
Qed.

(** The loop over [available] ends by itself within 31 turns: with set
    bits only in [lo, hi) it needs no more than [hi - lo] of them. *)
Lemma for_pick_turns_from rec row t1 : forall t2 a b lo hi,
  0 <= lo -> hi <= 31 -> 0 <= a ->
  (forall i, 0 <= i -> Z.testbit a i = true -> lo <= i < hi) ->
  (Z.to_nat (hi - lo) <= t1)%nat -> (Z.to_nat (hi - lo) <= t2)%nat ->
  Gen.for_pick rec row t1 a b = Gen.for_pick rec row t2 a b.
Proof.
  induction t1 as [|t1 IH]; intros t2 a b lo hi Hlo Hhi Ha Hbits H1 H2.
  - assert (a = 0) as ->.
    { apply BitmaskFacts.no_bits_zero; auto. intros i Hi.
      apply not_true_is_false. intros Hb. apply Hbits in Hb; lia. }
    destruct t2; reflexivity.
  - destruct (Z.eq_dec a 0) as [->|Hne]; [destruct t2; reflexivity|].
    assert (Hr : 0 <= a < 2 ^ 31).
    { split; auto. apply bits_range; auto; [lia|]. intros i Hi.
      apply not_true_is_false. intros Hb. apply Hbits in Hb; lia. }
    destruct (lowest_bit_exists a ltac:(lia)) as (c & Hc & Hb & Hl).
    destruct (lowest_bit c Hc a Hb Hl) as [_ Hclear].
    pose proof (Hbits c Hc Hb) as Hcr.
    destruct t2 as [|t2]; [lia|]. simpl.
    replace (a =? 0) with false by (symmetry; now apply Z.eqb_neq).
    destruct (rec _ _) as [sub b2].
    rewrite (IH t2 _ _ (c + 1) hi); auto; try lia.
    + rewrite band_pred by assumption. apply Z.land_nonneg. auto.
    + intros i Hi. rewrite band_pred, Hclear by assumption.
      rewrite andb_true_iff, negb_true_iff, Z.eqb_neq. intros [Hbi Hic].
      specialize (Hbits i Hi Hbi).
      destruct (Z.lt_ge_cases i c) as [Hlt|]; [|lia].
      rewrite Hl in Hbi by lia. discriminate.
Qed.

Lemma for_pick_turns rec row n columns diag1 diag2 b t1 t2 :
  (31 <= t1)%nat -> (31 <= t2)%nat ->
  Gen.for_pick rec row t1 (Gen.available_of n columns diag1 diag2) b =
  Gen.for_pick rec row t2 (Gen.available_of n columns diag1 diag2) b.
Proof.
  intros H1 H2. pose proof (MaskFacts.available_range n columns diag1 diag2) as Hr.
  apply (for_pick_turns_from rec row t1 t2 _ b 0 31); try lia.
  intros i Hi Hb. split; auto.
  destruct (Z.lt_ge_cases i 31) as [|Hge]; auto.
  rewrite (range_bits _ 31 i) in Hb by lia. discriminate.
Qed.

(* ================================================================== *)
(** ** Placements: what the search can and must find *)

Section Placements.

Lemma ok_app_l w p ext : ok w (p ++ ext) -> ok w p.
Proof.
  revert p. induction ext as [|c ext IH] using rev_ind; intros p H.
  - now rewrite app_nil_r in H.
  - rewrite app_assoc in H. inversion H as [Hnil|qs c' Hok Hc Hs Heq].
    + symmetry in Hnil. apply app_eq_nil in Hnil. destruct Hnil; discriminate.
    + apply app_inj_tail in Heq. destruct Heq as [-> _]. now apply IH.
Qed.

Lemma ok_snoc_inv w p c : ok w (p ++ [c]) -> ok w p /\ 0 <= c < w /\ safe p c.
Proof.
  intros H. inversion H as [Hnil|qs c' Hok Hc Hs Heq].
  - symmetry in Hnil. apply app_eq_nil in Hnil. destruct Hnil; discriminate.
  - apply app_inj_tail in Heq. destruct Heq as [-> ->]. auto.
Qed.

(** Distinct columns below [w]: no more than [w] queens. *)
Lemma ok_length w qs : ok w qs -> 0 <= w -> (length qs <= Z.to_nat w)%nat.
Proof.
  intros Hok Hw.
  replace (Z.to_nat w) with (length (map Z.of_nat (seq 0 (Z.to_nat w))))
    by (now rewrite length_map, length_seq).
  apply NoDup_incl_length; [eapply ok_NoDup; eauto|].
  intros q Hq. apply (ok_range _ _ Hok) in Hq.
  apply in_map_iff. exists (Z.to_nat q). split; [lia|]. apply in_seq. lia.
Qed.

(** The pairwise reading of a placement gives back the inductive one. *)
Lemma pairwise_ok w qs :
  (forall q, In q qs -> 0 <= q < w) ->
  (forall i j qi qj, i <> j ->
     nth_error qs i = Some qi -> nth_error qs j = Some qj ->
     qi <> qj /\ Z.abs (qi - qj) <> Z.abs (Z.of_nat i - Z.of_nat j)) ->
  ok w qs.
Proof.
  induction qs as [|c qs IH] using rev_ind; intros Hr Hp; [constructor|].
  constructor.
  - apply IH.
    + intros q Hq. apply Hr. apply in_app_iff. auto.
    + intros i j qi qj Hne Hi Hj. apply (Hp i j); auto.
      * rewrite nth_error_app1; auto. apply nth_error_Some. congruence.
      * rewrite nth_error_app1; auto. apply nth_error_Some. congruence.
  - apply Hr. apply in_app_iff. simpl. auto.
  - intros i q Hi.
    assert (Hlt : (i < length qs)%nat) by (apply nth_error_Some; congruence).
    destruct (Hp i (length qs) q c) as [H1 H2]; try lia.
    + now rewrite nth_error_app1.
    + now rewrite nth_error_app2, Nat.sub_diag by lia.
Qed.

Lemma queens_ok N qs :
  is_queens_solution (Z.of_nat N) (map Some qs) -> ok (Z.of_nat N) qs /\ length qs = N.
Proof.
  intros (qs' & Heq & Hperm & Hdiag).
  assert (Hinj : forall a b : list Z, map Some a = map Some b -> a = b).
  { clear. induction a as [|x a IH]; intros [|y b] H; try discriminate; auto.
    injection H as -> H. f_equal. auto. }
  apply Hinj in Heq. subst qs'. clear Hinj.
  rewrite Nat2Z.id in Hperm.
  assert (Hnd : NoDup qs).
  { eapply Permutation_NoDup; [symmetry; exact Hperm|].
    apply Finite.Injective_map_NoDup; [|apply seq_NoDup].
    intros x y. apply Nat2Z.inj. }
  split.
  - apply pairwise_ok.
    + intros q Hq. apply (Permutation_in _ Hperm) in Hq.
      apply in_map_iff in Hq. destruct Hq as (k & <- & Hk).
      apply in_seq in Hk. lia.
    + intros i j qi qj Hne Hi Hj. split; [|eapply Hdiag; eauto].
      intros ->. apply Hne. rewrite NoDup_nth_error in Hnd.
      apply Hnd; [apply nth_error_Some|]; congruence.
  - apply Permutation_length in Hperm.
    now rewrite length_map, length_seq in Hperm.
Qed.

Lemma lex_lt_irrefl a : ~ lex_lt a a.
Proof.
  induction a as [|[x|] a IH]; simpl; auto. intros [H|[_ H]]; [lia|auto].
Qed.

Lemma lex_lt_asym a : forall b, lex_lt a b -> lex_lt b a -> False.
Proof.
  induction a as [|[x|] a IH]; intros [|[y|] b]; simpl; auto.
  intros [H1|[-> H1]] [H2|[H2 H3]]; try lia. eauto.
Qed.

Lemma sorted_NoDup l : StronglySorted lex_lt l -> NoDup l.
Proof.
  induction 1 as [|a l Hs IH Hf]; constructor; auto.
  intros Hin. rewrite Forall_forall in Hf. apply (lex_lt_irrefl a). auto.
Qed.

(** Two strictly increasing lists with the same elements are equal. *)
Lemma sorted_same l1 : forall l2,
  StronglySorted lex_lt l1 -> StronglySorted lex_lt l2 ->
  (forall x, In x l1 <-> In x l2) -> l1 = l2.
Proof.
  induction l1 as [|a l1 IH]; intros [|b l2] H1 H2 Hin.
  - reflexivity.
  - destruct (proj2 (Hin b)); simpl; auto.
  - destruct (proj1 (Hin a)); simpl; auto.
  - inversion H1 as [|? ? Hs1 Hf1]. inversion H2 as [|? ? Hs2 Hf2]. subst.
    rewrite Forall_forall in Hf1, Hf2.
    assert (a = b) as ->.
    { destruct (proj1 (Hin a) (or_introl eq_refl)) as [|Ha]; auto.
      destruct (proj2 (Hin b) (or_introl eq_refl)) as [|Hb]; auto.
      destruct (lex_lt_asym a b); auto. }
    f_equal. apply IH; auto. intros x. split; intros Hx.
    + destruct (proj1 (Hin x) (or_intror Hx)) as [<-|]; auto.
      destruct (lex_lt_irrefl b); auto.
    + destruct (proj2 (Hin x) (or_intror Hx)) as [<-|]; auto.
      destruct (lex_lt_irrefl b); auto.
Qed.

End Placements.

(* ================================================================== *)
(** ** The search is exhaustive *)

Module CompleteFacts.
Import Gen GenFacts.

Section Complete.
Variables (N : nat) (w : Z).
Let n := Z.of_nat N.

Lemma for_col_complete rec p :
  ok w p -> (length p < N)%nat ->
  (forall c, ok w (p ++ [c]) ->
     snd (rec (emb None N (p ++ [c]))) = emb None N (p ++ [c])) ->
  (forall c ext, ok w ((p ++ [c]) ++ ext) -> length ((p ++ [c]) ++ ext) = N ->
     In (emb None N ((p ++ [c]) ++ ext))
        (solutions (fst (rec (emb None N (p ++ [c])))))) ->
  forall todo col, col + Z.of_nat todo = w -> 0 <= col ->
  forall c ext, col <= c -> ok w (p ++ c :: ext) -> length (p ++ c :: ext) = N ->
    In (emb None N (p ++ c :: ext))
       (solutions (fst (for_col rec (Z.of_nat (length p)) todo col (emb None N p)))).
Proof.
  intros Hp Hlen Hboard Hrec.
  induction todo as [|t IH]; intros col Hcol Hcol0 c ext Hc Hok Hfull.
  - assert (Hpc : ok w (p ++ [c])).
    { apply (ok_app_l w (p ++ [c]) ext). now rewrite <- app_assoc. }
    apply ok_snoc_inv in Hpc. lia.
  - assert (Hpc : ok w (p ++ [c])).
    { apply (ok_app_l w (p ++ [c]) ext). now rewrite <- app_assoc. }
    simpl for_col. destruct (valid _ _ col) eqn:Hv.
    + apply valid_emb in Hv.
      assert (Hpcol : ok w (p ++ [col])) by (constructor; auto; lia).
      rewrite set_emb_push by assumption.
      specialize (Hboard col Hpcol). specialize (Hrec col).
      destruct (rec _) as [sub b2]. simpl in Hboard, Hrec. subst b2.
      rewrite set_emb_pop by assumption.
      specialize (IH (col + 1) ltac:(lia) ltac:(lia) c ext).
      destruct (for_col rec _ t (col + 1) _) as [rest b4]. simpl in *.
      rewrite solutions_bracket by reflexivity. apply in_or_app.
      destruct (Z.eq_dec c col) as [->|Hne].
      * left. replace (p ++ col :: ext) with ((p ++ [col]) ++ ext)
          by (now rewrite <- app_assoc).
        apply Hrec; rewrite <- app_assoc; auto.
      * right. apply IH; auto. lia.
    + apply IH; auto; try lia.
      destruct (Z.eq_dec c col) as [->|Hne]; [|lia].
      apply ok_snoc_inv in Hpc. destruct Hpc as (_ & _ & Hs).
      apply valid_emb with (d := None) (N := N) in Hs. congruence.
Qed.

Lemma backtrack_w_complete depth : forall p,
  ok w p -> (length p + depth = N)%nat -> 0 <= w ->
  forall ext, ok w (p ++ ext) -> length (p ++ ext) = N ->
    In (emb None N (p ++ ext))
       (solutions (fst (backtrack_w n w depth (Z.of_nat (length p)) (emb None N p)))).
Proof.
  induction depth as [|d IH]; intros p Hp Hlen Hw ext Hok Hfull;
    rewrite BitmaskFacts.backtrack_w_eq.
  - replace (Z.of_nat (length p) =? n) with true
      by (symmetry; apply Z.eqb_eq; unfold n; lia).
    rewrite length_app in Hfull. destruct ext; [|simpl in Hfull; lia].
    rewrite app_nil_r. simpl. auto.
  - replace (Z.of_nat (length p) =? n) with false
      by (symmetry; apply Z.eqb_neq; unfold n; lia).
    destruct ext as [|c ext]; [rewrite app_nil_r in Hfull; lia|].
    assert (Hpc : ok w (p ++ [c])).
    { apply (ok_app_l w (p ++ [c]) ext). now rewrite <- app_assoc. }
    apply for_col_complete; auto; try lia.
    + intros c' Hc'.
      replace (Z.of_nat (length p) + 1) with (Z.of_nat (length (p ++ [c'])))
        by (rewrite length_app; simpl; lia).
      apply backtrack_w_ok; auto. rewrite length_app. simpl. lia.
    + intros c' ext' Hok' Hfull'.
      replace (Z.of_nat (length p) + 1) with (Z.of_nat (length (p ++ [c'])))
        by (rewrite length_app; simpl; lia).
      apply IH; auto.
      * now apply (ok_app_l w _ ext').
      * rewrite length_app. simpl. lia.
    + apply ok_snoc_inv in Hpc. lia.
Qed.

(** The solution boards of a full run: exactly the placements of [N]
    queens on the columns below [w]. *)
Lemma backtrack_w_solutions b :
  0 <= w ->
  In b (solutions (fst (backtrack_w n w N 0 (emb None N [])))) <->
  exists qs, b = map Some qs /\ ok w qs /\ length qs = N.
Proof.
  intros Hw. split.
  - intros Hin. apply in_solutions in Hin. destruct Hin as (e & He & Hs & <-).
    pose proof (backtrack_w_ok N w N [] (ok_nil w) eq_refl Hw) as [_ Hi _ _].
    fold n in Hi. simpl in Hi. rewrite Forall_forall in Hi.
    destruct (Hi e He) as (ext & Hb & Hok & _ & Hlen). simpl in *.
    exists ext. rewrite Hb, emb_full; auto.
  - intros (qs & -> & Hok & Hlen).
    rewrite <- (emb_full None N qs Hlen).
    apply (backtrack_w_complete N [] (ok_nil w) eq_refl Hw qs); auto.
Qed.

End Complete.

End CompleteFacts.

(* ================================================================== *)
(** ** computeTraceSteps against solveNQueensArray *)

Definition is_attempt (e : Trace.step) : bool :=
  match Trace.stat e with Trace.attempt => true | _ => false end.

(** The placements and removals of a trace of computeTraceSteps, its
    "attempt" events left out. *)
Definition visits (tr : list Trace.step) : list tag :=
  map TraceFacts.kind (filter (fun e => negb (is_attempt e)) tr).

Module CrossFacts.

Definition sim (evs : list Trace.step) (gevs : list Gen.step) : Prop :=
  Trace.solutions evs = Gen.solutions gevs /\
  visits evs = map GenFacts.kind gevs.

Lemma visits_app l1 l2 : visits (l1 ++ l2) = visits l1 ++ visits l2.
Proof. unfold visits. now rewrite filter_app, map_app. Qed.

Section Sim.
Variable N : nat.
Let n := Z.of_nat N.
Let T := emb (Some (-1)) N.
Let B := emb None N.

Lemma for_row_sim rec_t rec_g p :
  ok n p -> (length p < N)%nat ->
  (forall c, ok n (p ++ [c]) -> snd (rec_g (B (p ++ [c]))) = B (p ++ [c])) ->
  (forall c, ok n (p ++ [c]) -> forall tr, exists evs,
       rec_t (tr, T (p ++ [c])) = (tr ++ evs, T (p ++ [c])) /\
       sim evs (fst (rec_g (B (p ++ [c]))))) ->
  forall todo c, c + Z.of_nat todo = n -> 0 <= c -> forall tr, exists evs,
    Trace.for_row rec_t (Z.of_nat (length p)) todo c (tr, T p) = (tr ++ evs, T p) /\
    sim evs (fst (Gen.for_col rec_g (Z.of_nat (length p)) todo c (B p))).
Proof.
  intros Hp Hlen Hg Ht. induction todo as [|t IH]; intros c Hc Hc0 tr.
  - exists []. simpl. rewrite app_nil_r. repeat split.
  - simpl Trace.for_row. simpl Gen.for_col.
    unfold Trace.push, Trace.store. simpl fst. simpl snd.
    unfold Trace.isSafe. rewrite isSafe_from_scan.
    fold (Gen.valid (T p) (Z.of_nat (length p)) c).
    assert (Hvv : Gen.valid (T p) (Z.of_nat (length p)) c =
                  Gen.valid (B p) (Z.of_nat (length p)) c).
    { apply eq_iff_eq_true. unfold T, B. now rewrite !valid_emb. }
    rewrite Hvv. destruct (Gen.valid (B p) _ c) eqn:Hv.
    + unfold B in Hv. apply valid_emb in Hv.
      assert (Hok : ok n (p ++ [c])) by (constructor; auto; lia).
      assert (Hpush : set (T p) (Z.of_nat (length p)) (Some c) = T (p ++ [c]))
        by (now apply set_emb_push).
      assert (Hpop : set (T (p ++ [c])) (Z.of_nat (length p)) (Some (-1)) = T p)
        by (now apply set_emb_pop).
      assert (Hpush' : set (B p) (Z.of_nat (length p)) (Some c) = B (p ++ [c]))
        by (now apply set_emb_push).
      assert (Hpop' : set (B (p ++ [c])) (Z.of_nat (length p)) None = B p)
        by (now apply set_emb_pop).
      rewrite !Hpush, !Hpush'.
      destruct (Ht c Hok ((tr ++ [Trace.mkStep (T p)
                    (Some (Trace.mkCand (Z.of_nat (length p)) c)) Trace.attempt])
                  ++ [Trace.mkStep (T (p ++ [c]))
                    (Some (Trace.mkCand (Z.of_nat (length p)) c)) Trace.placed]))
        as (sub & -> & Hsol & Hvis).
      specialize (Hg c Hok). destruct (rec_g _) as [gsub b2].
      simpl in Hg, Hsol, Hvis. subst b2.
      simpl fst. simpl snd. rewrite !Hpop, !Hpop'.
      destruct (IH (c + 1) ltac:(lia) ltac:(lia)
                  ((((tr ++ [Trace.mkStep (T p)
                    (Some (Trace.mkCand (Z.of_nat (length p)) c)) Trace.attempt])
                  ++ [Trace.mkStep (T (p ++ [c]))
                    (Some (Trace.mkCand (Z.of_nat (length p)) c)) Trace.placed])
                  ++ sub) ++ [Trace.mkStep (T p)
                    (Some (Trace.mkCand (Z.of_nat (length p)) c)) Trace.backtrack]))
        as (rest & -> & Hsol' & Hvis').
      destruct (Gen.for_col rec_g _ t (c + 1) _) as [grest b4]. simpl in Hsol', Hvis'.
      eexists. split; [rewrite <- !app_assoc; simpl; reflexivity|]. split.
      * rewrite !TraceFacts.solutions_skip by reflexivity.
        rewrite TraceFacts.steps_solutions_app.
        rewrite TraceFacts.solutions_skip by reflexivity.
        simpl fst. rewrite GenFacts.solutions_bracket by reflexivity.
        now rewrite Hsol, Hsol'.
      * change (visits (?a :: ?b :: sub ++ ?c :: rest))
          with (visits ([a; b] ++ sub ++ [c] ++ rest)).
        rewrite !visits_app, Hvis, Hvis'. simpl fst.
        change (?a :: gsub ++ ?c :: grest) with ([a] ++ gsub ++ [c] ++ grest).
        rewrite !map_app. reflexivity.
    + destruct (IH (c + 1) ltac:(lia) ltac:(lia)
                  (tr ++ [Trace.mkStep (T p)
                    (Some (Trace.mkCand (Z.of_nat (length p)) c)) Trace.attempt]))
        as (rest & -> & Hsol' & Hvis').
      eexists. split; [rewrite <- !app_assoc; simpl; reflexivity|]. split.
      * now rewrite TraceFacts.solutions_skip by reflexivity.
      * exact Hvis'.
Qed.

Lemma solve_sim depth : forall p,
  ok n p -> (length p + depth = N)%nat -> forall tr, exists evs,
    Trace.solve n depth (Z.of_nat (length p)) (tr, T p) = (tr ++ evs, T p) /\
    sim evs (fst (Gen.backtrack n depth (Z.of_nat (length p)) (B p))).
Proof.
  induction depth as [|d IH]; intros p Hp Hlen tr; simpl.
  - replace (Z.of_nat (length p) =? n) with true
      by (symmetry; apply Z.eqb_eq; unfold n; lia).
    eexists. split; [reflexivity|]. split; [|reflexivity].
    unfold Trace.solutions, Gen.solutions. simpl. unfold T, B.
    now rewrite !emb_full by lia.
  - replace (Z.of_nat (length p) =? n) with false
      by (symmetry; apply Z.eqb_neq; unfold n; lia).
    unfold n at 2 4. rewrite Nat2Z.id.
    apply for_row_sim; auto; try (unfold n; lia).
    + intros c Hc.
      replace (Z.of_nat (length p) + 1) with (Z.of_nat (length (p ++ [c])))
        by (rewrite length_app; simpl; lia).
      rewrite GenFacts.backtrack_w_n.
      apply GenFacts.backtrack_w_ok; auto; try (unfold n; lia).
      rewrite length_app. simpl. lia.
    + intros c Hc.
      replace (Z.of_nat (length p) + 1) with (Z.of_nat (length (p ++ [c])))
        by (rewrite length_app; simpl; lia).
      apply IH; auto. rewrite length_app. simpl. lia.
Qed.

End Sim.

End CrossFacts.

(* ================================================================== *)
(** ** What the searches find *)

Lemma solveArray_eq n tr :
  Gen.solveNQueensArray n = Normal tr ->
  0 <= n <= 2 ^ 32 - 1 /\
  tr = fst (GenFacts.backtrack_w n n (Z.to_nat n) 0 (emb None (Z.to_nat n) [])).
Proof.
  unfold Gen.solveNQueensArray, Gen.runArray.
  destruct (new_Array n) as [b|] eqn:E; [|discriminate].
  apply new_Array_Normal in E. destruct E as [Hn ->]. simpl. intros [= <-].
  split; auto. now rewrite GenFacts.backtrack_w_n.
Qed.

Lemma solveBitmask_eq n tr :
  Gen.solveNQueensBitmask n = Normal tr ->
  0 <= n <= 2 ^ 32 - 1 /\
  tr = fst (GenFacts.backtrack_w n (n mod 32) (Z.to_nat n) 0
              (emb None (Z.to_nat n) [])).
Proof.
  unfold Gen.solveNQueensBitmask, Gen.runBitmask.
  destruct (new_Array n) as [b|] eqn:E; [|discriminate].
  apply new_Array_Normal in E. destruct E as [Hn ->]. simpl. intros [= <-].
  split; auto.
  pose proof (BitmaskFacts.backtrackBits_w (Z.to_nat n) (Z.to_nat n) [] 0 0 0) as H.
  cbv zeta in H. rewrite Z2Nat.id in H by lia.
  change (Z.of_nat (length (@nil Z))) with 0 in H.
  now rewrite H; [|constructor|apply MaskFacts.masks_init|reflexivity].
Qed.

Lemma queens_iff_ok n b :
  0 <= n ->
  (exists qs, b = map Some qs /\ ok n qs /\ length qs = Z.to_nat n) <->
  is_queens_solution n b.
Proof.
  intros Hn. split.
  - intros (qs & -> & Hok & Hlen). rewrite <- (Z2Nat.id n) at 1 by lia.
    eapply ok_queens; eauto. lia.
  - intros H. pose proof H as (qs & -> & _).
    rewrite <- (Z2Nat.id n) in H by lia. apply queens_ok in H.
    rewrite Z2Nat.id in H by lia. exists qs. tauto.
Qed.

(** X1: the array generator is exhaustive and never repeats itself: the
    boards of its "solution" events are exactly the n-queens solutions
    (permutations of 0..n-1 with no two queens on a diagonal), each
    found once. *)
Theorem array_finds_all_solutions (n : Z) (tr : list Gen.step) :
  Gen.solveNQueensArray n = Normal tr ->
  NoDup (Gen.solutions tr) /\
  forall b, In b (Gen.solutions tr) <-> is_queens_solution n b.
Proof.
  intros Htr. split.
  - apply solveArray_inv in Htr. destruct Htr as (b & _ & [_ _ Hs _] & _).
    now apply sorted_NoDup.
  - apply solveArray_eq in Htr. destruct Htr as [Hn ->]. intros b.
    pose proof (CompleteFacts.backtrack_w_solutions (Z.to_nat n) n b) as H.
    rewrite Z2Nat.id in H by lia. rewrite H by lia. apply queens_iff_ok. lia.
Qed.

Lemma array_finds_all_solutions_witness :
  In [Some 2; Some 0; Some 3; Some 1]
     (match Gen.solveNQueensArray 4 with
      | Normal tr => Gen.solutions tr
      | Throw _ => []
      end) <->
  is_queens_solution 4 [Some 2; Some 0; Some 3; Some 1].
Proof.
  destruct (Gen.solveNQueensArray 4) as [tr|] eqn:E; [|discriminate].
  apply (array_finds_all_solutions 4 tr E).
Defined.

(** X2: for 0 <= n <= 31 the bitmask generator is exhaustive too: the
    boards of its "solution" events are exactly the n-queens solutions,
    each found once. *)
Theorem bitmask_finds_all_solutions (n : Z) (tr : list Gen.step) :
  n <= 31 ->
  Gen.solveNQueensBitmask n = Normal tr ->
  NoDup (Gen.solutions tr) /\
  forall b, In b (Gen.solutions tr) <-> is_queens_solution n b.
Proof.
  intros Hn31 Htr. split.
  - apply solveBitmask_inv in Htr. destruct Htr as (b & _ & [_ _ Hs _] & _).
    now apply sorted_NoDup.
  - apply solveBitmask_eq in Htr. destruct Htr as [Hn ->]. intros b.
    rewrite Z.mod_small by lia.
    pose proof (CompleteFacts.backtrack_w_solutions (Z.to_nat n) n b) as H.
    rewrite Z2Nat.id in H by lia. rewrite H by lia. apply queens_iff_ok. lia.
Qed.

Lemma bitmask_finds_all_solutions_witness :
  5 <= 31 /\
  (In [Some 0; Some 2; Some 4; Some 1; Some 3]
      (match Gen.solveNQueensBitmask 5 with
       | Normal tr => Gen.solutions tr
       | Throw _ => []
       end) <->
   is_queens_solution 5 [Some 0; Some 2; Some 4; Some 1; Some 3]).
Proof.
  split; [lia|].
  destruct (Gen.solveNQueensBitmask 5) as [tr|] eqn:E; [|discriminate].
  apply (bitmask_finds_all_solutions 5 tr ltac:(lia) E).
Defined.

(** X3: from n = 32 on the bitmask strategy finds nothing: its mask
    covers only [n mod 32] columns, so the generator yields no "solution"
    event and countSolutionsBitmask returns 0. *)
Theorem bitmask_blind_from_32 (n : Z) :
  32 <= n ->
  Gen.countSolutionsBitmask n = Normal 0 /\
  forall tr, Gen.solveNQueensBitmask n = Normal tr ->
    filter Gen.is_solution tr = [].
Proof.
  intros Hn.
  pose proof (Z.mod_pos_bound n 32 ltac:(lia)) as Hm.
  assert (Hnone : filter Gen.is_solution
            (fst (GenFacts.backtrack_w n (n mod 32) (Z.to_nat n) 0
                    (emb None (Z.to_nat n) []))) = []).
  { pose proof (GenFacts.backtrack_w_ok (Z.to_nat n) (n mod 32) (Z.to_nat n) []
                  (ok_nil _) eq_refl ltac:(lia)) as [_ Hi _ _].
    rewrite Z2Nat.id in Hi by lia. simpl in Hi.
    induction Hi as [|e l He _ IH]; simpl; auto.
    destruct (Gen.is_solution e) eqn:Es; auto.
    destruct He as (ext & _ & Hok & _ & Hlen). simpl in *.
    specialize (Hlen eq_refl). apply ok_length in Hok; lia. }
  assert (Hb : Gen.backtrackBits n (Z.to_nat n) 0 0 0 0 (emb None (Z.to_nat n) []) =
               GenFacts.backtrack_w n (n mod 32) (Z.to_nat n) 0
                 (emb None (Z.to_nat n) [])).
  { pose proof (BitmaskFacts.backtrackBits_w (Z.to_nat n) (Z.to_nat n) [] 0 0 0) as H.
    cbv zeta in H. rewrite Z2Nat.id in H by lia.
    change (Z.of_nat (length (@nil Z))) with 0 in H.
    apply H; [constructor|apply MaskFacts.masks_init|reflexivity]. }
  split.
  - unfold Gen.countSolutionsBitmask.
    rewrite (CountFacts.countBits_depth n _ (Z.to_nat n)) by lia.
    rewrite (CountFacts.countBits_backtrackBits n _ _ _ _ _ _
               (emb None (Z.to_nat n) [])).
    unfold solution_events. now rewrite Hb, Hnone.
  - intros tr Htr. apply solveBitmask_eq in Htr. destruct Htr as [_ ->].
    exact Hnone.
Qed.

Lemma bitmask_blind_from_32_witness :
  32 <= 40 /\ Gen.countSolutionsBitmask 40 = Normal 0.
Proof.
  split; [lia|]. apply (bitmask_blind_from_32 40). lia.
Defined.

(** X4: for 0 <= n <= 31 the two counting functions return the same
    number. *)
Theorem counters_agree (n : Z) :
  0 <= n <= 31 -> Gen.countSolutionsArray n = Gen.countSolutionsBitmask n.
Proof.
  intros Hn. unfold Gen.countSolutionsArray, Gen.countSolutionsBitmask.
  rewrite new_Array_emb by lia. f_equal.
  rewrite CountFacts.countBacktrack_backtrack. cbn [fst].
  rewrite (CountFacts.countBits_depth n _ (Z.to_nat n)) by lia.
  rewrite (CountFacts.countBits_backtrackBits n _ _ _ _ _ _
             (emb None (Z.to_nat n) [])).
  f_equal. f_equal. f_equal.
  pose proof (BitmaskFacts.backtrackBits_w (Z.to_nat n) (Z.to_nat n) [] 0 0 0) as H.
  cbv zeta in H. rewrite Z2Nat.id, Z.mod_small in H by lia.
  change (Z.of_nat (length (@nil Z))) with 0 in H.
  rewrite H; [|constructor|apply MaskFacts.masks_init|reflexivity].
  apply GenFacts.backtrack_w_n.
Qed.

Lemma counters_agree_witness :
  0 <= 9 <= 31 /\ Gen.countSolutionsArray 9 = Gen.countSolutionsBitmask 9.
Proof.
  split; [lia|]. apply (counters_agree 9). lia.
Defined.

Lemma computeTrace_sim n ts tg :
  Trace.computeTraceSteps n = Normal ts ->
  Gen.solveNQueensArray n = Normal tg ->
  CrossFacts.sim ts tg.
Proof.
  unfold Trace.computeTraceSteps, Trace.runTrace, Gen.solveNQueensArray,
    Gen.runArray.
  destruct (new_Array n) as [b|] eqn:E; [|discriminate].
  apply new_Array_Normal in E. destruct E as [Hn ->]. simpl.
  intros [= <-] [= <-].
  assert (Hf : fill (emb None (Z.to_nat n) []) (-1) = emb (Some (-1)) (Z.to_nat n) []).
  { unfold emb at 1. simpl. rewrite Nat.sub_0_r. apply fill_repeat. }
  rewrite Hf.
  pose proof (CrossFacts.solve_sim (Z.to_nat n) (Z.to_nat n) [] (ok_nil _)
                eq_refl []) as (evs & He & Hsim).
  rewrite Z2Nat.id in He, Hsim by lia. simpl in He, Hsim. now rewrite He.
Qed.

(** The board of the generator as the trace component holds it: -1
    where the generator has [undefined]. *)
Definition minus_one_for_undefined (b : array) : array :=
  map (fun v => match v with Some q => Some q | None => Some (-1) end) b.

(** A step of computeTraceSteps against the event of solveNQueensArray
    it answers to.  The two components name the coordinates the other
    way round.  The generator stores [board[row] = col]: its [row] is
    the index into the board (the depth of the search) and its [col] the
    value tried there.  computeTraceSteps stores [board[col] = row]: its
    [col] is the index and its [row] the value.  The generator takes the
    snapshot of a "remove" before it clears the entry, computeTraceSteps
    that of a "backtrack" after. *)
Definition mirrors (s : Trace.step) (g : Gen.step) : Prop :=
  match Gen.act g with
  | Gen.place =>
      Trace.stat s = Trace.placed /\
      exists index value,
        Gen.row g = Some index /\ Gen.col g = Some value /\
        Trace.cand s = Some {| Trace.col := index; Trace.row := value |} /\
        Trace.board s = minus_one_for_undefined (Gen.board g)
  | Gen.remove =>
      Trace.stat s = Trace.backtrack /\
      exists index value,
        Gen.row g = Some index /\ Gen.col g = Some value /\
        Trace.cand s = Some {| Trace.col := index; Trace.row := value |} /\
        Trace.board s = minus_one_for_undefined (set (Gen.board g) index None)
  | Gen.solution =>
      Trace.stat s = Trace.solution /\ Trace.cand s = None /\
      Gen.row g = None /\ Gen.col g = None /\
      Trace.board s = Gen.board g
  end.

Module MirrorFacts.

Definition mir (evs : list Trace.step) (gevs : list Gen.step) : Prop :=
  Forall2 mirrors (filter (fun e => negb (is_attempt e)) evs) gevs.

Lemma minus_one_emb N p :
  minus_one_for_undefined (emb None N p) = emb (Some (-1)) N p.
Proof.
  unfold minus_one_for_undefined, emb.
  rewrite map_app, map_map, map_repeat. f_equal.
Qed.

Section Mirror.
Variable N : nat.
Let n := Z.of_nat N.
Let T := emb (Some (-1)) N.
Let B := emb None N.

Lemma for_row_mirror rec_t rec_g p :
  ok n p -> (length p < N)%nat ->
  (forall c, ok n (p ++ [c]) -> snd (rec_g (B (p ++ [c]))) = B (p ++ [c])) ->
  (forall c, ok n (p ++ [c]) -> forall tr, exists evs,
       rec_t (tr, T (p ++ [c])) = (tr ++ evs, T (p ++ [c])) /\
       mir evs (fst (rec_g (B (p ++ [c]))))) ->
  forall todo c, c + Z.of_nat todo = n -> 0 <= c -> forall tr, exists evs,
    Trace.for_row rec_t (Z.of_nat (length p)) todo c (tr, T p) = (tr ++ evs, T p) /\
    mir evs (fst (Gen.for_col rec_g (Z.of_nat (length p)) todo c (B p))).
Proof.
  intros Hp Hlen Hg Ht. induction todo as [|t IH]; intros c Hc Hc0 tr.
  - exists []. simpl. rewrite app_nil_r. split; [reflexivity|constructor].
  - simpl Trace.for_row. simpl Gen.for_col.
    unfold Trace.push, Trace.store. simpl fst. simpl snd.
    unfold Trace.isSafe. rewrite isSafe_from_scan.
    fold (Gen.valid (T p) (Z.of_nat (length p)) c).
    assert (Hvv : Gen.valid (T p) (Z.of_nat (length p)) c =
                  Gen.valid (B p) (Z.of_nat (length p)) c).
    { apply eq_iff_eq_true. unfold T, B. now rewrite !valid_emb. }
    rewrite Hvv. destruct (Gen.valid (B p) _ c) eqn:Hv.
    + unfold B in Hv. apply valid_emb in Hv.
      assert (Hok : ok n (p ++ [c])) by (constructor; auto; lia).
      assert (Hpush : set (T p) (Z.of_nat (length p)) (Some c) = T (p ++ [c]))
        by (now apply set_emb_push).
      assert (Hpop : set (T (p ++ [c])) (Z.of_nat (length p)) (Some (-1)) = T p)
        by (now apply set_emb_pop).
      assert (Hpush' : set (B p) (Z.of_nat (length p)) (Some c) = B (p ++ [c]))
        by (now apply set_emb_push).
      assert (Hpop' : set (B (p ++ [c])) (Z.of_nat (length p)) None = B p)
        by (now apply set_emb_pop).
      rewrite !Hpush, !Hpush'.
      destruct (Ht c Hok ((tr ++ [Trace.mkStep (T p)
                    (Some (Trace.mkCand (Z.of_nat (length p)) c)) Trace.attempt])
                  ++ [Trace.mkStep (T (p ++ [c]))
                    (Some (Trace.mkCand (Z.of_nat (length p)) c)) Trace.placed]))
        as (sub & -> & Hm).
      specialize (Hg c Hok). destruct (rec_g _) as [gsub b2].
      simpl in Hg, Hm. subst b2.
      simpl fst. simpl snd. rewrite !Hpop, !Hpop'.
      destruct (IH (c + 1) ltac:(lia) ltac:(lia)
                  ((((tr ++ [Trace.mkStep (T p)
                    (Some (Trace.mkCand (Z.of_nat (length p)) c)) Trace.attempt])
                  ++ [Trace.mkStep (T (p ++ [c]))
                    (Some (Trace.mkCand (Z.of_nat (length p)) c)) Trace.placed])
                  ++ sub) ++ [Trace.mkStep (T p)
                    (Some (Trace.mkCand (Z.of_nat (length p)) c)) Trace.backtrack]))
        as (rest & -> & Hm').
      destruct (Gen.for_col rec_g _ t (c + 1) _) as [grest b4]. simpl in Hm'.
      eexists. split; [rewrite <- !app_assoc; simpl; reflexivity|].
      unfold mir in *. simpl fst.
      change (?a :: ?b :: sub ++ ?c :: rest)
        with ([a; b] ++ sub ++ [c] ++ rest).
      rewrite !filter_app. cbn [filter is_attempt Trace.stat negb app].
      constructor.
      * unfold mirrors. cbn. split; [reflexivity|].
        exists (Z.of_nat (length p)), c. repeat split.
        unfold T, B. now rewrite minus_one_emb.
      * apply Forall2_app; [exact Hm|]. constructor; [|exact Hm'].
        unfold mirrors. cbn. split; [reflexivity|].
        exists (Z.of_nat (length p)), c. repeat split.
        rewrite Hpop'. unfold T, B. now rewrite minus_one_emb.
    + destruct (IH (c + 1) ltac:(lia) ltac:(lia)
                  (tr ++ [Trace.mkStep (T p)
                    (Some (Trace.mkCand (Z.of_nat (length p)) c)) Trace.attempt]))
        as (rest & -> & Hm').
      eexists. split; [rewrite <- !app_assoc; simpl; reflexivity|].
      exact Hm'.
Qed.

Lemma solve_mirror depth : forall p,
  ok n p -> (length p + depth = N)%nat -> forall tr, exists evs,
    Trace.solve n depth (Z.of_nat (length p)) (tr, T p) = (tr ++ evs, T p) /\
    mir evs (fst (Gen.backtrack n depth (Z.of_nat (length p)) (B p))).
Proof.
  induction depth as [|d IH]; intros p Hp Hlen tr; simpl.
  - replace (Z.of_nat (length p) =? n) with true
      by (symmetry; apply Z.eqb_eq; unfold n; lia).
    eexists. split; [reflexivity|]. unfold mir. cbn.
    constructor; [|constructor]. unfold mirrors. cbn.
    repeat split. unfold T, B. now rewrite !emb_full by lia.
  - replace (Z.of_nat (length p) =? n) with false
      by (symmetry; apply Z.eqb_neq; unfold n; lia).
    unfold n at 2 4. rewrite Nat2Z.id.
    apply for_row_mirror; auto; try (unfold n; lia).
    + intros c Hc.
      replace (Z.of_nat (length p) + 1) with (Z.of_nat (length (p ++ [c])))
        by (rewrite length_app; simpl; lia).
      rewrite GenFacts.backtrack_w_n.
      apply GenFacts.backtrack_w_ok; auto; try (unfold n; lia).
      rewrite length_app. simpl. lia.
    + intros c Hc.
      replace (Z.of_nat (length p) + 1) with (Z.of_nat (length (p ++ [c])))
        by (rewrite length_app; simpl; lia).
      apply IH; auto. rewrite length_app. simpl. lia.
Qed.

End Mirror.

End MirrorFacts.

Lemma computeTrace_mirror n ts tg :
  Trace.computeTraceSteps n = Normal ts ->
  Gen.solveNQueensArray n = Normal tg ->
  MirrorFacts.mir ts tg.
Proof.
  unfold Trace.computeTraceSteps, Trace.runTrace, Gen.solveNQueensArray,
    Gen.runArray.
  destruct (new_Array n) as [b|] eqn:E; [|discriminate].
  apply new_Array_Normal in E. destruct E as [Hn ->]. simpl.
  intros [= <-] [= <-].
  assert (Hf : fill (emb None (Z.to_nat n) []) (-1) = emb (Some (-1)) (Z.to_nat n) []).
  { unfold emb at 1. simpl. rewrite Nat.sub_0_r. apply fill_repeat. }
  rewrite Hf.
  pose proof (MirrorFacts.solve_mirror (Z.to_nat n) (Z.to_nat n) [] (ok_nil _)
                eq_refl []) as (evs & He & Hm).
  rewrite Z2Nat.id in He, Hm by lia. simpl in He, Hm. now rewrite He.
Qed.

(** X5: computeTraceSteps explores like solveNQueensArray.  With its
    "attempt" steps left out, its steps answer one to one, in order, to
    the events of the generator, with the coordinates named the other
    way round: to a place (remove) event with row i and col v answers a
    placed (backtrack) step whose candidate has col i and row v; to a
    "solution" event answers a "solution" step with the same board.  The
    board of a placed step is that of the place event with -1 for
    undefined; the board of a backtrack step is that of the remove event
    with entry i cleared, and -1 for undefined.  So the boards of the
    "solution" steps are those of the "solution" events, in the same
    order. *)
Theorem trace_steps_follow_generator (n : Z) (ts : list Trace.step)
    (tg : list Gen.step) :
  Trace.computeTraceSteps n = Normal ts ->
  Gen.solveNQueensArray n = Normal tg ->
  Forall2 mirrors (filter (fun e => negb (is_attempt e)) ts) tg /\
  Trace.solutions ts = Gen.solutions tg.
Proof.
  intros Ht Hg. split.
  - exact (computeTrace_mirror n ts tg Ht Hg).
  - now destruct (computeTrace_sim n ts tg Ht Hg).
Qed.

Lemma trace_steps_follow_generator_witness :
  match Trace.computeTraceSteps 4, Gen.solveNQueensArray 4 with
  | Normal ts, Normal tg =>
      Forall2 mirrors (filter (fun e => negb (is_attempt e)) ts) tg /\
      Trace.solutions ts = Gen.solutions tg
  | _, _ => False
  end.
Proof.
  destruct (Trace.computeTraceSteps 4) as [ts|] eqn:Et; [|discriminate].
  destruct (Gen.solveNQueensArray 4) as [tg|] eqn:Eg; [|discriminate].
  apply (trace_steps_follow_generator 4 ts tg Et Eg).
Defined.

Lemma steps_solutions_iff_queens n ts :
  Trace.computeTraceSteps n = Normal ts ->
  forall b, In b (Trace.solutions ts) <-> is_queens_solution n b.
Proof.
  intros Ht.
  assert (Hn : 0 <= n <= 2 ^ 32 - 1).
  { unfold Trace.computeTraceSteps, Trace.runTrace in Ht.
    destruct (new_Array n) as [b|] eqn:E; [|discriminate].
    now apply new_Array_Normal in E. }
  destruct (runArray_total n Hn) as ([tg bg] & Hr).
  assert (Hg : Gen.solveNQueensArray n = Normal tg)
    by (unfold Gen.solveNQueensArray; now rewrite Hr).
  destruct (computeTrace_sim n ts tg Ht Hg) as [-> _].
  apply solveArray_eq in Hg. destruct Hg as [_ ->]. intros b.
  pose proof (CompleteFacts.backtrack_w_solutions (Z.to_nat n) n b) as H.
  rewrite Z2Nat.id in H by lia. rewrite H by lia. apply queens_iff_ok. lia.
Qed.

(** X6: computeTraceSteps is exhaustive: the boards of its "solution"
    events are exactly the n-queens solutions, each found once. *)
Theorem trace_steps_find_all_solutions (n : Z) (ts : list Trace.step) :
  Trace.computeTraceSteps n = Normal ts ->
  NoDup (Trace.solutions ts) /\
  forall b, In b (Trace.solutions ts) <-> is_queens_solution n b.
Proof.
  intros Ht.
  assert (Hn : 0 <= n <= 2 ^ 32 - 1).
  { unfold Trace.computeTraceSteps, Trace.runTrace in Ht.
    destruct (new_Array n) as [b|] eqn:E; [|discriminate].
    now apply new_Array_Normal in E. }
  destruct (runArray_total n Hn) as ([tg bg] & Hr).
  assert (Hg : Gen.solveNQueensArray n = Normal tg)
    by (unfold Gen.solveNQueensArray; now rewrite Hr).
  destruct (computeTrace_sim n ts tg Ht Hg) as [-> _]. split.
  - apply solveArray_inv in Hg. destruct Hg as (b & _ & [_ _ Hs _] & _).
    now apply sorted_NoDup.
  - apply solveArray_eq in Hg. destruct Hg as [_ ->]. intros b.
    pose proof (CompleteFacts.backtrack_w_solutions (Z.to_nat n) n b) as H.
    rewrite Z2Nat.id in H by lia. rewrite H by lia. apply queens_iff_ok. lia.
Qed.

Lemma trace_steps_find_all_solutions_witness :
  In [Some 1; Some 3; Some 0; Some 2]
     (match Trace.computeTraceSteps 4 with
      | Normal ts => Trace.solutions ts
      | Throw _ => []
      end) <->
  is_queens_solution 4 [Some 1; Some 3; Some 0; Some 2].
Proof.
  destruct (Trace.computeTraceSteps 4) as [ts|] eqn:E; [|discriminate].
  apply (trace_steps_find_all_solutions 4 ts E).
Defined.

(* ================================================================== *)
(** ** What an event shows *)

Module ShapeFacts.

Lemma get_emb_last d N q c :
  get (emb d N (q ++ [c])) (Z.of_nat (length q)) = Some c.
Proof.
  apply get_emb. now rewrite nth_error_app2, Nat.sub_diag by lia.
Qed.

Lemma get_emb_unset d N q i :
  (length q <= i < N)%nat -> get (emb d N q) (Z.of_nat i) = d.
Proof.
  intros Hi. unfold get, emb. rewrite Nat2Z.id.
  rewrite app_nth2 by (rewrite length_map; lia). rewrite length_map.
  remember (i - length q)%nat as k. remember (N - length q)%nat as m.
  assert (Hk : (k < m)%nat) by lia. clear - Hk.
  revert k Hk. induction m as [|m IH]; intros [|k] Hk; simpl; auto; try lia.
  apply IH. lia.
Qed.

Lemma get_emb_beyond N q i :
  (length q <= i)%nat -> get (emb None N q) (Z.of_nat i) = None.
Proof.
  intros Hi. unfold get, emb. rewrite Nat2Z.id.
  rewrite app_nth2 by (rewrite length_map; lia).
  destruct (nth (i - length (map Some q)) (repeat (@None Z) (N - length q)) None)
    as [c|] eqn:E; auto.
  apply nth_repeat_Some in E. discriminate.
Qed.

Section Shapes.
Variables (N : nat) (w : Z).
Let n := Z.of_nat N.

(** A place or remove event at depth [length q] shows the queens [q]
    and the queen it is about; a solution event shows a full board. *)
Definition gen_shape (e : Gen.step) : Prop :=
  match Gen.act e with
  | Gen.solution =>
      Gen.row e = None /\ Gen.col e = None /\
      exists q, Gen.board e = emb None N q /\ length q = N
  | _ =>
      exists q c, Gen.row e = Some (Z.of_nat (length q)) /\ Gen.col e = Some c /\
                  Gen.board e = emb None N (q ++ [c]) /\
                  (length q < N)%nat /\ 0 <= c < w
  end.

Lemma for_col_shape rec p :
  ok w p -> (length p < N)%nat ->
  (forall c, ok w (p ++ [c]) ->
     snd (rec (emb None N (p ++ [c]))) = emb None N (p ++ [c]) /\
     Forall gen_shape (fst (rec (emb None N (p ++ [c]))))) ->
  forall todo col, col + Z.of_nat todo = w -> 0 <= col ->
    Forall gen_shape
      (fst (Gen.for_col rec (Z.of_nat (length p)) todo col (emb None N p))).
Proof.
  intros Hp Hlen Hrec. induction todo as [|t IH]; intros col Hcol Hcol0; simpl.
  - constructor.
  - destruct (Gen.valid _ _ col) eqn:Hv.
    + apply valid_emb in Hv.
      assert (Hok : ok w (p ++ [col])) by (constructor; auto; lia).
      rewrite set_emb_push by assumption.
      destruct (Hrec col Hok) as [Hb Hs].
      destruct (rec _) as [sub b2]. simpl in Hb, Hs. subst b2.
      rewrite set_emb_pop by assumption.
      specialize (IH (col + 1) ltac:(lia) ltac:(lia)).
      destruct (Gen.for_col rec _ t (col + 1) _) as [rest b4]. simpl in *.
      assert (He : forall a, a <> Gen.solution ->
                gen_shape (Gen.mkStep (Some (Z.of_nat (length p))) (Some col) a
                             (emb None N (p ++ [col])))).
      { intros a Ha. unfold gen_shape. simpl.
        destruct a; try congruence; exists p, col; repeat split; auto; lia. }
      constructor; [apply He; discriminate|].
      apply Forall_app. split; auto. constructor; auto. apply He. discriminate.
    + apply IH; lia.
Qed.

Lemma backtrack_w_shape depth : forall p,
  ok w p -> (length p + depth = N)%nat -> 0 <= w ->
  Forall gen_shape
    (fst (GenFacts.backtrack_w n w depth (Z.of_nat (length p)) (emb None N p))).
Proof.
  induction depth as [|d IH]; intros p Hp Hlen Hw;
    rewrite BitmaskFacts.backtrack_w_eq.
  - replace (Z.of_nat (length p) =? n) with true
      by (symmetry; apply Z.eqb_eq; unfold n; lia).
    repeat constructor. exists p. split; auto. lia.
  - replace (Z.of_nat (length p) =? n) with false
      by (symmetry; apply Z.eqb_neq; unfold n; lia).
    apply for_col_shape; auto; try lia.
    intros c Hc.
    replace (Z.of_nat (length p) + 1) with (Z.of_nat (length (p ++ [c])))
      by (rewrite length_app; simpl; lia).
    split.
    + apply GenFacts.backtrack_w_ok; auto. rewrite length_app. simpl. lia.
    + apply IH; auto. rewrite length_app. simpl. lia.
Qed.

(** The same for computeTraceSteps, whose attempt and backtrack events
    show the board without the candidate. *)
Definition step_shape (e : Trace.step) : Prop :=
  match Trace.stat e with
  | Trace.solution =>
      Trace.cand e = None /\ exists q, Trace.board e = emb (Some (-1)) N q /\ length q = N
  | Trace.placed =>
      exists q c, Trace.cand e = Some (Trace.mkCand (Z.of_nat (length q)) c) /\
                  Trace.board e = emb (Some (-1)) N (q ++ [c]) /\
                  (length q < N)%nat /\ 0 <= c < n
  | _ =>
      exists q c, Trace.cand e = Some (Trace.mkCand (Z.of_nat (length q)) c) /\
                  Trace.board e = emb (Some (-1)) N q /\
                  (length q < N)%nat /\ 0 <= c < n
  end.

Local Abbreviation T := (emb (Some (-1)) N).

Lemma for_row_shape rec p :
  ok n p -> (length p < N)%nat ->
  (forall c, ok n (p ++ [c]) ->
     TraceFacts.appends N (p ++ [c]) rec (Forall step_shape)) ->
  forall todo c, c + Z.of_nat todo = n -> 0 <= c ->
    TraceFacts.appends N p (Trace.for_row rec (Z.of_nat (length p)) todo c)
      (Forall step_shape).
Proof.
  intros Hp Hlen Hrec. induction todo as [|t IH]; intros c Hc Hc0 tr.
  - exists []. simpl. rewrite app_nil_r. split; auto.
  - simpl Trace.for_row. unfold Trace.push, Trace.store. simpl fst. simpl snd.
    unfold Trace.isSafe. rewrite isSafe_from_scan.
    fold (Gen.valid (T p) (Z.of_nat (length p)) c).
    assert (Hatt : forall st, st <> Trace.solution -> st <> Trace.placed ->
              step_shape (Trace.mkStep (T p)
                (Some (Trace.mkCand (Z.of_nat (length p)) c)) st)).
    { intros st H1 H2. unfold step_shape. simpl.
      destruct st; try congruence; exists p, c; repeat split; auto; lia. }
    destruct (Gen.valid _ _ c) eqn:Hv.
    + apply valid_emb in Hv.
      assert (Hok : ok n (p ++ [c])) by (constructor; auto; lia).
      assert (Hpush : set (T p) (Z.of_nat (length p)) (Some c) = T (p ++ [c]))
        by (now apply set_emb_push).
      assert (Hpop : set (T (p ++ [c])) (Z.of_nat (length p)) (Some (-1)) = T p)
        by (now apply set_emb_pop).
      rewrite !Hpush.
      destruct (Hrec c Hok ((tr ++ [Trace.mkStep (T p)
                    (Some (Trace.mkCand (Z.of_nat (length p)) c)) Trace.attempt])
                  ++ [Trace.mkStep (T (p ++ [c]))
                    (Some (Trace.mkCand (Z.of_nat (length p)) c)) Trace.placed]))
        as (sub & -> & Hsub).
      simpl fst. simpl snd. rewrite !Hpop.
      destruct (IH (c + 1) ltac:(lia) ltac:(lia)
                  ((((tr ++ [Trace.mkStep (T p)
                    (Some (Trace.mkCand (Z.of_nat (length p)) c)) Trace.attempt])
                  ++ [Trace.mkStep (T (p ++ [c]))
                    (Some (Trace.mkCand (Z.of_nat (length p)) c)) Trace.placed])
                  ++ sub) ++ [Trace.mkStep (T p)
                    (Some (Trace.mkCand (Z.of_nat (length p)) c)) Trace.backtrack]))
        as (rest & -> & Hrest).
      eexists. split; [rewrite <- !app_assoc; simpl; reflexivity|].
      constructor; [apply Hatt; discriminate|]. constructor.
      { unfold step_shape. simpl. exists p, c. repeat split; auto; lia. }
      apply Forall_app. split; auto. constructor; auto.
      apply Hatt; discriminate.
    + destruct (IH (c + 1) ltac:(lia) ltac:(lia)
                  (tr ++ [Trace.mkStep (T p)
                    (Some (Trace.mkCand (Z.of_nat (length p)) c)) Trace.attempt]))
        as (rest & -> & Hrest).
      eexists. split; [rewrite <- !app_assoc; simpl; reflexivity|].
      constructor; auto. apply Hatt; discriminate.
Qed.

Lemma solve_shape depth : forall p,
  ok n p -> (length p + depth = N)%nat ->
  TraceFacts.appends N p (Trace.solve n depth (Z.of_nat (length p)))
    (Forall step_shape).
Proof.
  induction depth as [|d IH]; intros p Hp Hlen; simpl.
  - replace (Z.of_nat (length p) =? n) with true
      by (symmetry; apply Z.eqb_eq; unfold n; lia).
    intros tr. eexists. split; [reflexivity|].
    repeat constructor. exists p. split; auto. lia.
  - replace (Z.of_nat (length p) =? n) with false
      by (symmetry; apply Z.eqb_neq; unfold n; lia).
    unfold n at 2. rewrite Nat2Z.id.
    apply for_row_shape; auto; try (unfold n; lia).
    intros c Hc.
    replace (Z.of_nat (length p) + 1) with (Z.of_nat (length (p ++ [c])))
      by (rewrite length_app; simpl; lia).
    apply IH; auto. rewrite length_app. simpl. lia.
Qed.

End Shapes.

End ShapeFacts.

Lemma generator_shapes n tr :
  Gen.solveNQueensArray n = Normal tr \/ Gen.solveNQueensBitmask n = Normal tr ->
  0 <= n /\ Forall (ShapeFacts.gen_shape (Z.to_nat n) n) tr.
Proof.
  intros [H|H].
  - apply solveArray_eq in H. destruct H as [Hn ->]. split; [lia|].
    pose proof (ShapeFacts.backtrack_w_shape (Z.to_nat n) n (Z.to_nat n) []
                  (ok_nil _) eq_refl ltac:(lia)) as Hs.
    now rewrite Z2Nat.id in Hs by lia.
  - apply solveBitmask_eq in H. destruct H as [Hn ->]. split; [lia|].
    pose proof (Z.mod_pos_bound n 32 ltac:(lia)) as Hm.
    pose proof (Z.mod_le n 32 ltac:(lia) ltac:(lia)) as Hle.
    pose proof (ShapeFacts.backtrack_w_shape (Z.to_nat n) (n mod 32) (Z.to_nat n) []
                  (ok_nil _) eq_refl ltac:(lia)) as Hs.
    rewrite Z2Nat.id in Hs by lia. simpl in Hs.
    eapply Forall_impl; [|exact Hs]. intros e. unfold ShapeFacts.gen_shape.
    destruct (Gen.act e); auto;
      intros (q & c & H1 & H2 & H3 & H4 & H5); exists q, c; repeat split; auto; lia.
Qed.

(** X7: every event of either generator carries a board of length n.
    A place or remove event names a cell inside the board, and its
    snapshot shows that very queen ([board[row] = col], also on a remove
    event, whose copy is taken before the queen is taken off) with
    nothing below it; a solution event has no coordinate and a board
    without an unset entry. *)
Theorem generator_event_shows_queen (n : Z) (tr : list Gen.step) (e : Gen.step) :
  Gen.solveNQueensArray n = Normal tr \/ Gen.solveNQueensBitmask n = Normal tr ->
  In e tr ->
  length (Gen.board e) = Z.to_nat n /\
  match Gen.act e with
  | Gen.solution =>
      Gen.row e = None /\ Gen.col e = None /\
      forall i, 0 <= i < n -> get (Gen.board e) i <> None
  | _ =>
      exists r c, Gen.row e = Some r /\ Gen.col e = Some c /\
        0 <= r < n /\ 0 <= c < n /\ get (Gen.board e) r = Some c /\
        forall i, r < i -> get (Gen.board e) i = None
  end.
Proof.
  intros Htr He. apply generator_shapes in Htr. destruct Htr as [Hn Hs].
  rewrite Forall_forall in Hs. specialize (Hs e He).
  unfold ShapeFacts.gen_shape in Hs.
  assert (Hmove : (exists q c, Gen.row e = Some (Z.of_nat (length q)) /\
                     Gen.col e = Some c /\
                     Gen.board e = emb None (Z.to_nat n) (q ++ [c]) /\
                     (length q < Z.to_nat n)%nat /\ 0 <= c < n) ->
                  length (Gen.board e) = Z.to_nat n /\
                  exists r c, Gen.row e = Some r /\ Gen.col e = Some c /\
                    0 <= r < n /\ 0 <= c < n /\ get (Gen.board e) r = Some c /\
                    forall i, r < i -> get (Gen.board e) i = None).
  { intros (q & c & Hr & Hc & Hb & Hlen & Hcr). rewrite Hb. split.
    - apply emb_length. rewrite length_app. simpl. lia.
    - exists (Z.of_nat (length q)), c. repeat split; auto; try lia.
      + apply ShapeFacts.get_emb_last.
      + intros i Hi. rewrite <- (Z2Nat.id i) by lia.
        apply ShapeFacts.get_emb_beyond. rewrite length_app. simpl. lia. }
  destruct (Gen.act e); auto.
  destruct Hs as (Hr & Hc & q & Hb & Hlen). rewrite Hb. split.
  - apply emb_length. lia.
  - repeat split; auto. intros i Hi.
    destruct (nth_error q (Z.to_nat i)) as [x|] eqn:E.
    + rewrite <- (Z2Nat.id i) by lia. erewrite get_emb; eauto. discriminate.
    + apply nth_error_None in E. lia.
Qed.

Lemma generator_event_shows_queen_witness :
  get [Some 1; Some 3; Some 0; None] 2 = Some 0 /\
  get [Some 1; Some 3; Some 0; None] 3 = None.
Proof.
  assert (Htr : exists tr, Gen.solveNQueensBitmask 4 = Normal tr /\
            nth_error tr 14 = Some (Gen.mkStep (Some 2) (Some 0) Gen.remove
                                      [Some 1; Some 3; Some 0; None])).
  { eexists. split; vm_compute; reflexivity. }
  destruct Htr as (tr & Htr & He). apply nth_error_In in He.
  destruct (generator_event_shows_queen 4 tr _ (or_intror Htr) He)
    as (_ & r & c & [= <-] & [= <-] & _ & _ & Hg & Hb).
  split; [exact Hg|apply Hb; lia].
Defined.

Lemma computeTrace_shapes n tr :
  Trace.computeTraceSteps n = Normal tr ->
  Forall (ShapeFacts.step_shape (Z.to_nat n)) tr.
Proof.
  intros Htr. unfold Trace.computeTraceSteps, Trace.runTrace in Htr.
  destruct (new_Array n) as [b|] eqn:E; [|discriminate].
  apply new_Array_Normal in E. destruct E as [Hn ->]. simpl in Htr.
  injection Htr as <-.
  assert (Hf : fill (emb None (Z.to_nat n) []) (-1) =
               emb (Some (-1)) (Z.to_nat n) []).
  { unfold emb at 1. simpl. rewrite Nat.sub_0_r. apply fill_repeat. }
  rewrite Hf.
  pose proof (ShapeFacts.solve_shape (Z.to_nat n) (Z.to_nat n) [] (ok_nil _)
                eq_refl []) as (evs & Hev & Hsh).
  rewrite Z2Nat.id in Hev by lia. simpl in Hev. now rewrite Hev.
Qed.

(** X8: every step of computeTraceSteps carries a board of length n.
    A placed step shows its queen ([board[col] = row]); an attempt or a
    backtrack step shows its cell still (or again) unset; in each case
    the entries after [col] are unset; a solution step has no
    candidate. *)
Theorem trace_step_shows_candidate (n : Z) (tr : list Trace.step) (e : Trace.step) :
  Trace.computeTraceSteps n = Normal tr ->
  In e tr ->
  length (Trace.board e) = Z.to_nat n /\
  match Trace.stat e with
  | Trace.solution => Trace.cand e = None
  | Trace.placed =>
      exists c, Trace.cand e = Some c /\
        0 <= Trace.col c < n /\ 0 <= Trace.row c < n /\
        get (Trace.board e) (Trace.col c) = Some (Trace.row c) /\
        forall i, Trace.col c < i < n -> get (Trace.board e) i = Some (-1)
  | _ =>
      exists c, Trace.cand e = Some c /\
        0 <= Trace.col c < n /\ 0 <= Trace.row c < n /\
        forall i, Trace.col c <= i < n -> get (Trace.board e) i = Some (-1)
  end.
Proof.
  intros Htr He.
  assert (Hs : 0 <= n /\ Forall (ShapeFacts.step_shape (Z.to_nat n)) tr).
  { unfold Trace.computeTraceSteps, Trace.runTrace in Htr.
    destruct (new_Array n) as [b|] eqn:E; [|discriminate].
    apply new_Array_Normal in E. destruct E as [Hn ->]. simpl in Htr.
    injection Htr as <-. split; [lia|].
    assert (Hf : fill (emb None (Z.to_nat n) []) (-1) =
                 emb (Some (-1)) (Z.to_nat n) []).
    { unfold emb at 1. simpl. rewrite Nat.sub_0_r. apply fill_repeat. }
    rewrite Hf.
    pose proof (ShapeFacts.solve_shape (Z.to_nat n) (Z.to_nat n) [] (ok_nil _)
                  eq_refl []) as (evs & Hev & Hsh).
    rewrite Z2Nat.id in Hev by lia. simpl in Hev. now rewrite Hev. }
  destruct Hs as [Hn Hs]. rewrite Forall_forall in Hs. specialize (Hs e He).
  unfold ShapeFacts.step_shape in Hs. rewrite Z2Nat.id in Hs by lia.
  assert (Hrest : (exists q c,
              Trace.cand e = Some (Trace.mkCand (Z.of_nat (length q)) c) /\
              Trace.board e = emb (Some (-1)) (Z.to_nat n) q /\
              (length q < Z.to_nat n)%nat /\ 0 <= c < n) ->
            length (Trace.board e) = Z.to_nat n /\
            exists c, Trace.cand e = Some c /\
              0 <= Trace.col c < n /\ 0 <= Trace.row c < n /\
              forall i, Trace.col c <= i < n -> get (Trace.board e) i = Some (-1)).
  { intros (q & c & Hc & Hb & Hlen & Hcr). rewrite Hb. split.
    - apply emb_length. lia.
    - eexists. split; [exact Hc|]. simpl. repeat split; try lia.
      intros i Hi. rewrite <- (Z2Nat.id i) by lia.
      apply ShapeFacts.get_emb_unset. lia. }
  destruct (Trace.stat e); auto.
  - destruct Hs as (q & c & Hc & Hb & Hlen & Hcr). rewrite Hb. split.
    + apply emb_length. rewrite length_app. simpl. lia.
    + eexists. split; [exact Hc|]. simpl. repeat split; try lia.
      * apply ShapeFacts.get_emb_last.
      * intros i Hi. rewrite <- (Z2Nat.id i) by lia.
        apply ShapeFacts.get_emb_unset. rewrite length_app. simpl. lia.
  - destruct Hs as (Hc & q & Hb & Hlen). rewrite Hb. split; auto.
    apply emb_length. lia.
Qed.

Lemma trace_step_shows_candidate_witness :
  get [Some 1; Some (-1); Some (-1)] 0 = Some 1 /\
  get [Some 1; Some (-1); Some (-1)] 2 = Some (-1).
Proof.
  assert (Htr : exists tr, Trace.computeTraceSteps 3 = Normal tr /\
            nth_error tr 12 = Some (Trace.mkStep [Some 1; Some (-1); Some (-1)]
                                      (Some (Trace.mkCand 0 1)) Trace.placed)).
  { eexists. split; vm_compute; reflexivity. }
  destruct Htr as (tr & Htr & He). apply nth_error_In in He.
  destruct (trace_step_shows_candidate 3 tr _ Htr He)
    as (_ & c & [= <-] & _ & _ & Hg & Hb).
  split; [exact Hg|apply Hb; simpl; lia].
Defined.

(* ================================================================== *)
(** ** How a trace ends *)

Module LastFacts.

(** On the first line every column is free: the loop ends with the
    removal of its last column. *)
Lemma for_col_line0_last rec todo : forall col b,
  exists pre bl,
    fst (Gen.for_col rec 0 (S todo) col b) =
    pre ++ [Gen.mkStep (Some 0) (Some (col + Z.of_nat todo)) Gen.remove bl].
Proof.
  induction todo as [|t IH]; intros col b.
  - cbn [Gen.for_col]. change (Gen.valid b 0 col) with true. cbv iota.
    destruct (rec _) as [sub b2]. cbn [fst].
    exists (Gen.mkStep (Some 0) (Some col) Gen.place (set b 0 (Some col)) :: sub), b2.
    simpl. now rewrite Z.add_0_r.
  - remember (S t) as t'. cbn [Gen.for_col].
    change (Gen.valid b 0 col) with true. cbv iota.
    destruct (rec _) as [sub b2]. subst t'.
    destruct (IH (col + 1) (set b2 0 None)) as (pre & bl & Hrest).
    destruct (Gen.for_col rec 0 (S t) (col + 1) _) as [rest b4].
    cbn [fst] in *. subst rest.
    exists (Gen.mkStep (Some 0) (Some col) Gen.place (set b 0 (Some col))
              :: sub ++ Gen.mkStep (Some 0) (Some col) Gen.remove b2 :: pre), bl.
    simpl. rewrite <- app_assoc. simpl.
    replace (col + 1 + Z.of_nat t) with (col + Z.of_nat (S t)) by lia.
    reflexivity.
Qed.

Lemma for_row_col0_last rec todo : forall row s,
  exists pre bl,
    fst (Trace.for_row rec 0 (S todo) row s) =
    pre ++ [Trace.mkStep bl (Some (Trace.mkCand 0 (row + Z.of_nat todo)))
              Trace.backtrack].
Proof.
  induction todo as [|t IH]; intros row s.
  - cbn [Trace.for_row].
    change (Trace.isSafe (snd (Trace.push s Trace.attempt
              (Some (Trace.mkCand 0 row)))) 0 row) with true. cbv iota.
    unfold Trace.push at 1. cbn [fst]. eexists _, _.
    rewrite Z.add_0_r. reflexivity.
  - remember (S t) as t'. cbn [Trace.for_row].
    change (Trace.isSafe (snd (Trace.push s Trace.attempt
              (Some (Trace.mkCand 0 row)))) 0 row) with true. cbv iota.
    subst t'.
    destruct (IH (row + 1) (Trace.push (Trace.store (rec (Trace.push (Trace.store
                (Trace.push s Trace.attempt (Some (Trace.mkCand 0 row))) 0 row)
                Trace.placed (Some (Trace.mkCand 0 row)))) 0 (-1))
                Trace.backtrack (Some (Trace.mkCand 0 row))))
      as (pre & bl & ->).
    exists pre, bl.
    replace (row + 1 + Z.of_nat t) with (row + Z.of_nat (S t)) by lia.
    reflexivity.
Qed.

End LastFacts.

(** For n >= 1 the array generator ends with the removal of the queen
    of line 0 from the last column, its board still showing her. *)
Lemma array_last_event n tr :
  1 <= n -> Gen.solveNQueensArray n = Normal tr ->
  exists pre, tr = pre ++ [Gen.mkStep (Some 0) (Some (n - 1)) Gen.remove
                             (Some (n - 1) :: repeat None (Z.to_nat n - 1))].
Proof.
  intros Hn Htr.
  pose proof (generator_shapes n tr (or_introl Htr)) as [_ Hs].
  assert (Hl : exists pre bl,
            tr = pre ++ [Gen.mkStep (Some 0) (Some (n - 1)) Gen.remove bl]).
  { unfold Gen.solveNQueensArray, Gen.runArray in Htr.
    destruct (new_Array n) as [b|]; [|discriminate]. simpl in Htr.
    injection Htr as <-. rewrite backtrack_eq.
    replace (0 =? n) with false by (symmetry; apply Z.eqb_neq; lia).
    destruct (Z.to_nat n) as [|k] eqn:E; [lia|].
    destruct (LastFacts.for_col_line0_last (Gen.backtrack n k (0 + 1)) k 0 b)
      as (pre & bl & H).
    exists pre, bl. rewrite H.
    replace (0 + Z.of_nat k) with (n - 1) by lia. reflexivity. }
  destruct Hl as (pre & bl & ->). exists pre. repeat f_equal.
  rewrite Forall_forall in Hs.
  specialize (Hs _ (in_elt _ _ _)).
  unfold ShapeFacts.gen_shape in Hs. simpl in Hs.
  destruct Hs as (q & c & Hr & [= <-] & -> & _).
  destruct q; [|simpl in Hr; injection Hr; lia].
  unfold emb. simpl. reflexivity.
Qed.

(** For n >= 1 computeTraceSteps ends with the backtrack step of cell
    (col 0, row n - 1), its board empty again. *)
Lemma trace_last_step n tr :
  1 <= n -> Trace.computeTraceSteps n = Normal tr ->
  exists pre, tr = pre ++ [Trace.mkStep (repeat (Some (-1)) (Z.to_nat n))
                             (Some (Trace.mkCand 0 (n - 1))) Trace.backtrack].
Proof.
  intros Hn Htr.
  assert (Hl : exists pre bl,
            tr = pre ++ [Trace.mkStep bl (Some (Trace.mkCand 0 (n - 1)))
                           Trace.backtrack]).
  { unfold Trace.computeTraceSteps, Trace.runTrace in Htr.
    destruct (new_Array n) as [b|]; [|discriminate]. simpl in Htr.
    injection Htr as <-.
    destruct (Z.to_nat n) as [|k] eqn:E; [lia|]. cbn [Trace.solve].
    replace (0 =? n) with false by (symmetry; apply Z.eqb_neq; lia).
    rewrite E.
    destruct (LastFacts.for_row_col0_last (Trace.solve n k (0 + 1)) k 0
                ([], fill b (-1))) as (pre & bl & H).
    exists pre, bl. rewrite H.
    replace (0 + Z.of_nat k) with (n - 1) by lia. reflexivity. }
  destruct Hl as (pre & bl & ->). exists pre. repeat f_equal.
  pose proof (computeTrace_shapes n _ Htr) as Hs.
  rewrite Forall_forall in Hs.
  specialize (Hs _ (in_elt _ _ _)).
  unfold ShapeFacts.step_shape in Hs. simpl in Hs.
  destruct Hs as (q & c & [= Hq _] & -> & _).
  destruct q; [|simpl in Hq; lia].
  unfold emb. simpl. now rewrite Nat.sub_0_r.
Qed.

(* ================================================================== *)
(** ** src/App.jsx: the handlers of NQueensVisualizer

    The component state is threaded through the handlers.  A timer is
    modelled by the call it schedules; [computeTime], a wall-clock
    difference, is left out. *)

Module App.

(** The [algorithm] state: "array", or "bitmasking" (the [else] branch). *)
Inductive algorithm := array_based | bitmasking.

(** [{ row, col, action }] *)
Record cell := mkCell {
  cell_row : option Z;
  cell_col : option Z;
  cell_action : Gen.action
}.

Record state := mkState {
  totalSolutions : option Z;
  currentBoard : array;
  highlight : option cell;
  solutions : list array;
  running : bool
}.

(** [computeStatistics]: the count shown as "Total Solutions". *)
Definition computeStatistics (n : Z) (alg : algorithm) : completion Z :=
  match alg with
  | array_based => Gen.countSolutionsArray n
  | bitmasking => Gen.countSolutionsBitmask n
  end.

(** The generator [startVisualization] stores in [genRef]. *)
Definition generator (n : Z) (alg : algorithm) : completion (list Gen.step) :=
  match alg with
  | array_based => Gen.solveNQueensArray n
  | bitmasking => Gen.solveNQueensBitmask n
  end.

(** [stepGenerator] on a value of the generator ([!next.done]). *)
Definition on_step (step : Gen.step) (s : state) : state :=
  let s1 :=
    match Gen.act step with
    | Gen.place | Gen.remove =>
        mkState (totalSolutions s) (Gen.board step)
          (Some (mkCell (Gen.row step) (Gen.col step) (Gen.act step)))
          (solutions s) (running s)
    | Gen.solution => s
    end in
  match Gen.act step with
  | Gen.solution =>
      mkState (totalSolutions s1) (currentBoard s1) (highlight s1)
        (solutions s1 ++ [Gen.board step]) (running s1)
  | _ => s1
  end.

(** [stepGenerator] when the generator is done. *)
Definition on_done (s : state) : state :=
  mkState (totalSolutions s) (currentBoard s) None (solutions s) false.

(** [stepGenerator] with the calls it schedules for itself: one per
    event still to come, and the one that finds the generator done. *)
Fixpoint stepGenerator (gen : list Gen.step) (s : state) : state :=
  match gen with
  | [] => on_done s
  | step :: gen' => stepGenerator gen' (on_step step s)
  end.

(** [Array.from({ length: queenCount }, () => undefined)], [queenCount]
    reading as the integer [n]: a negative length counts as 0. *)
Definition blank_board (n : Z) : completion array :=
  if n <=? 2 ^ 32 - 1 then Normal (repeat None (Z.to_nat n))
  else Throw RangeError.

(** [startVisualization] followed by the timer calls, up to the one
    that stops the animation. *)
Definition startVisualization (n : Z) (alg : algorithm) (s : state)
  : completion state :=
  match blank_board n with
  | Throw e => Throw e
  | Normal blank =>
      match computeStatistics n alg with
      | Throw e => Throw e
      | Normal count =>
          match generator n alg with
          | Throw e => Throw e
          | Normal gen =>
              Normal (stepGenerator gen (mkState (Some count) blank None [] true))
          end
      end
  end.

End App.

(* ================================================================== *)
(** ** The trace component: its handlers *)

Module TraceUi.

(** The state of NQueenVisualizer; [currentStep] is kept as its three
    fields, its status being [null] before any step is shown. *)
Record state := mkState {
  traceSteps : list Trace.step;
  finalSolutions : list array;
  currentStepIndex : Z;
  stepBoard : array;
  stepCandidate : option Trace.candidate;
  stepStatus : option Trace.status;
  isVisualizing : bool;
  showThumbnails : bool;
  animateSlide : bool
}.

(** [handleFindSolutions] *)
Definition handleFindSolutions (n : Z) (s : state) : completion state :=
  match Trace.computeTraceSteps n with
  | Throw e => Throw e
  | Normal trace =>
      match new_Array n with
      | Throw e => Throw e
      | Normal a =>
          Normal (mkState trace (Trace.solutions trace) 0 (fill a (-1)) None None
                    (isVisualizing s) (showThumbnails s) (animateSlide s))
      end
  end.

(** One turn of the loop of [visualizeTrace]: step [i] is shown, and a
    solution is followed by the slide animation, switched on and off. *)
Definition show (i : Z) (step : Trace.step) (s : state) : state :=
  mkState (traceSteps s) (finalSolutions s) i (Trace.board step)
    (Trace.cand step) (Some (Trace.stat step))
    (isVisualizing s) (showThumbnails s)
    (match Trace.stat step with
     | Trace.solution => false
     | _ => animateSlide s
     end).

Fixpoint show_from (i : Z) (steps : list Trace.step) (s : state) : state :=
  match steps with
  | [] => s
  | step :: rest => show_from (i + 1) rest (show i step s)
  end.

(** [visualizeTrace], its waits left out. *)
Definition visualizeTrace (s : state) : state :=
  match traceSteps s with
  | [] => s
  | steps =>
      let s1 := mkState (traceSteps s) (finalSolutions s) (currentStepIndex s)
                  (stepBoard s) (stepCandidate s) (stepStatus s)
                  true false (animateSlide s) in
      let s2 := show_from 0 steps s1 in
      mkState (traceSteps s2) (finalSolutions s2) (currentStepIndex s2)
        (stepBoard s2) (stepCandidate s2) (stepStatus s2)
        false true (animateSlide s2)
  end.

End TraceUi.

(* ================================================================== *)
(** ** What the handlers leave on screen *)

Lemma count_of_generator n alg tr :
  App.generator n alg = Normal tr ->
  App.computeStatistics n alg = Normal (solution_events tr).
Proof.
  destruct alg; simpl; intros Htr.
  - unfold Gen.solveNQueensArray, Gen.runArray in Htr.
    unfold Gen.countSolutionsArray.
    destruct (new_Array n) as [b|]; [|discriminate]. simpl in Htr.
    injection Htr as <-. now rewrite CountFacts.countBacktrack_backtrack.
  - unfold Gen.solveNQueensBitmask, Gen.runBitmask in Htr.
    unfold Gen.countSolutionsBitmask.
    destruct (new_Array n) as [b|] eqn:E; [|discriminate]. simpl in Htr.
    injection Htr as <-. apply new_Array_Normal in E. destruct E as [Hn _].
    rewrite (CountFacts.countBits_depth n _ (Z.to_nat n)) by lia.
    now rewrite (CountFacts.countBits_backtrackBits n _ _ _ _ _ _ b).
Qed.

Lemma stepGenerator_state gen : forall s,
  App.solutions (App.stepGenerator gen s) = App.solutions s ++ Gen.solutions gen /\
  App.totalSolutions (App.stepGenerator gen s) = App.totalSolutions s /\
  App.running (App.stepGenerator gen s) = false /\
  App.highlight (App.stepGenerator gen s) = None.
Proof.
  induction gen as [|e gen IH]; intros s; simpl.
  - rewrite app_nil_r. auto.
  - destruct (IH (App.on_step e s)) as (H1 & H2 & H3 & H4).
    rewrite H1, H2. repeat split; auto.
    + unfold App.on_step, Gen.solutions, Gen.is_solution. simpl.
      destruct (Gen.act e); simpl; auto. now rewrite <- app_assoc.
    + unfold App.on_step. destruct (Gen.act e); reflexivity.
Qed.

Lemma stepGenerator_board pre e : forall s,
  Gen.act e = Gen.remove ->
  App.currentBoard (App.stepGenerator (pre ++ [e]) s) = Gen.board e.
Proof.
  induction pre as [|x pre IH]; intros s He; simpl; auto.
  unfold App.on_step. now rewrite He.
Qed.

(** X9: when an animation started by startVisualization has run to its
    end, the gallery holds the boards of the "solution" events of the
    generator, in order, and the "Total Solutions" statistic is the
    number of boards in the gallery; nothing is highlighted and the
    component is no longer running. *)
Theorem gallery_matches_statistic (n : Z) (alg : App.algorithm) (s0 s : App.state) :
  App.startVisualization n alg s0 = Normal s ->
  exists tr, App.generator n alg = Normal tr /\
    App.solutions s = Gen.solutions tr /\
    App.totalSolutions s = Some (Z.of_nat (length (App.solutions s))) /\
    App.highlight s = None /\ App.running s = false.
Proof.
  unfold App.startVisualization.
  destruct (App.blank_board n) as [blank|]; [|discriminate].
  destruct (App.computeStatistics n alg) as [count|] eqn:Ec; [|discriminate].
  destruct (App.generator n alg) as [tr|] eqn:Eg; [|discriminate].
  intros [= <-]. exists tr. split; auto.
  rewrite (count_of_generator n alg tr Eg) in Ec. injection Ec as <-.
  destruct (stepGenerator_state tr (App.mkState (Some (solution_events tr))
              blank None [] true)) as (H1 & H2 & H3 & H4).
  simpl in H1, H2. rewrite H1, H2, H3, H4. repeat split.
  unfold solution_events, Gen.solutions. now rewrite length_map.
Qed.

Lemma gallery_matches_statistic_witness :
  match App.startVisualization 5 App.bitmasking
          (App.mkState None [] None [] false) with
  | Normal s => App.totalSolutions s = Some (Z.of_nat (length (App.solutions s)))
  | Throw _ => False
  end.
Proof.
  destruct (App.startVisualization 5 App.bitmasking _) as [s|] eqn:E;
    [|discriminate].
  destruct (gallery_matches_statistic 5 _ _ s E) as (tr & _ & _ & H & _).
  exact H.
Defined.

(** X10: for n >= 1 (and n <= 31 with the bitmask strategy) the live
    board left on screen when the animation ends is not the empty board:
    it is the snapshot of the last "remove" event, taken before the
    removal, one queen at row 0 in the last column. *)
Theorem live_board_keeps_last_queen (n : Z) (alg : App.algorithm) (s0 s : App.state) :
  1 <= n -> (alg = App.bitmasking -> n <= 31) ->
  App.startVisualization n alg s0 = Normal s ->
  App.currentBoard s = Some (n - 1) :: repeat None (Z.to_nat n - 1).
Proof.
  intros Hn Halg. unfold App.startVisualization.
  destruct (App.blank_board n) as [blank|]; [|discriminate].
  destruct (App.computeStatistics n alg) as [count|]; [|discriminate].
  destruct (App.generator n alg) as [tr|] eqn:Eg; [|discriminate].
  intros [= <-].
  assert (Ha : Gen.solveNQueensArray n = Normal tr).
  { destruct alg; simpl in Eg; auto.
    specialize (Halg eq_refl).
    unfold Gen.solveNQueensArray, Gen.runArray.
    unfold Gen.solveNQueensBitmask, Gen.runBitmask in Eg.
    destruct (new_Array n) as [b|] eqn:E; [|discriminate].
    apply new_Array_Normal in E. destruct E as [Hr ->]. simpl in *.
    injection Eg as <-. f_equal. f_equal.
    pose proof (BitmaskFacts.backtrackBits_w (Z.to_nat n) (Z.to_nat n) [] 0 0 0) as H.
    cbv zeta in H. rewrite Z2Nat.id, Z.mod_small in H by lia.
    change (Z.of_nat (length (@nil Z))) with 0 in H.
    rewrite H; [|constructor|apply MaskFacts.masks_init|reflexivity].
    apply GenFacts.backtrack_w_n. }
  destruct (array_last_event n tr Hn Ha) as (pre & ->).
  now rewrite stepGenerator_board.
Qed.

Lemma live_board_keeps_last_queen_witness :
  1 <= 4 /\
  match App.startVisualization 4 App.array_based
          (App.mkState None [] None [] false) with
  | Normal s => App.currentBoard s = [Some 3; None; None; None]
  | Throw _ => False
  end.
Proof.
  split; [lia|].
  destruct (App.startVisualization 4 App.array_based _) as [s|] eqn:E;
    [|discriminate].
  apply (live_board_keeps_last_queen 4 App.array_based _ s ltac:(lia)
           ltac:(discriminate) E).
Defined.

Lemma show_from_last pre e : forall i s,
  let s' := TraceUi.show_from i (pre ++ [e]) s in
  TraceUi.stepBoard s' = Trace.board e /\
  TraceUi.stepCandidate s' = Trace.cand e /\
  TraceUi.stepStatus s' = Some (Trace.stat e) /\
  TraceUi.currentStepIndex s' = i + Z.of_nat (length pre) /\
  TraceUi.traceSteps s' = TraceUi.traceSteps s /\
  TraceUi.finalSolutions s' = TraceUi.finalSolutions s.
Proof.
  induction pre as [|x pre IH]; intros i s; simpl.
  - repeat split; auto. lia.
  - destruct (IH (i + 1) (TraceUi.show i x s)) as (H1 & H2 & H3 & H4 & H5 & H6).
    simpl in *. repeat split; auto. lia.
Qed.

(** X11: for n >= 1, "Find Solutions" followed by "Visualize" ends on
    the last step of the trace: the backtrack of cell (col 0, row n-1),
    shown on an empty board; the thumbnails are back, still the boards
    of the "solution" steps. *)
Theorem visualize_ends_on_empty_board (n : Z) (s0 s : TraceUi.state) :
  1 <= n ->
  TraceUi.handleFindSolutions n s0 = Normal s ->
  let s' := TraceUi.visualizeTrace s in
  TraceUi.stepBoard s' = repeat (Some (-1)) (Z.to_nat n) /\
  TraceUi.stepCandidate s' = Some (Trace.mkCand 0 (n - 1)) /\
  TraceUi.stepStatus s' = Some Trace.backtrack /\
  TraceUi.currentStepIndex s' = Z.of_nat (length (TraceUi.traceSteps s)) - 1 /\
  TraceUi.isVisualizing s' = false /\ TraceUi.showThumbnails s' = true /\
  TraceUi.finalSolutions s' = Trace.solutions (TraceUi.traceSteps s).
Proof.
  intros Hn. unfold TraceUi.handleFindSolutions.
  destruct (Trace.computeTraceSteps n) as [tr|] eqn:Et; [|discriminate].
  destruct (new_Array n) as [a|]; [|discriminate]. intros [= <-].
  destruct (trace_last_step n tr Hn Et) as (pre & ->).
  unfold TraceUi.visualizeTrace. cbn [TraceUi.traceSteps].
  destruct (pre ++ _) as [|x l] eqn:E; [destruct pre; discriminate|].
  rewrite <- E. cbv zeta. cbn [TraceUi.stepBoard TraceUi.stepCandidate
    TraceUi.stepStatus TraceUi.currentStepIndex TraceUi.isVisualizing
    TraceUi.showThumbnails TraceUi.finalSolutions].
  match goal with |- context [TraceUi.show_from 0 _ ?s1] =>
    destruct (show_from_last pre
      (Trace.mkStep (repeat (Some (-1)) (Z.to_nat n))
         (Some (Trace.mkCand 0 (n - 1))) Trace.backtrack) 0 s1)
      as (H1 & H2 & H3 & H4 & H5 & H6)
  end.
  rewrite H1, H2, H3, H4, H6. simpl. repeat split; auto.
  rewrite length_app. simpl. lia.
Qed.

Lemma visualize_ends_on_empty_board_witness :
  1 <= 4 /\
  match TraceUi.handleFindSolutions 4
          (TraceUi.mkState [] [] 0 [] None None false true false) with
  | Normal s =>
      TraceUi.stepBoard (TraceUi.visualizeTrace s) =
      [Some (-1); Some (-1); Some (-1); Some (-1)]
  | Throw _ => False
  end.
Proof.
  split; [lia|].
  destruct (TraceUi.handleFindSolutions 4 _) as [s|] eqn:E; [|discriminate].
  apply (visualize_ends_on_empty_board 4 _ s ltac:(lia) E).
Defined.

(** X12: the thumbnails "Find Solutions" computes are exactly the
    n-queens solutions, and their number, shown as "Total Solutions",
    is the number countSolutionsArray returns for the same n. *)
Theorem thumbnails_are_the_solutions (n : Z) (s0 s : TraceUi.state) :
  TraceUi.handleFindSolutions n s0 = Normal s ->
  (forall b, In b (TraceUi.finalSolutions s) <-> is_queens_solution n b) /\
  Gen.countSolutionsArray n = Normal (Z.of_nat (length (TraceUi.finalSolutions s))).
Proof.
  unfold TraceUi.handleFindSolutions.
  destruct (Trace.computeTraceSteps n) as [tr|] eqn:Et; [|discriminate].
  destruct (new_Array n) as [a|] eqn:Ea; [|discriminate]. intros [= <-].
  cbn [TraceUi.finalSolutions]. split.
  - apply (steps_solutions_iff_queens n tr Et).
  - apply new_Array_Normal in Ea. destruct Ea as [Hn _].
    destruct (runArray_total n Hn) as ([tg bg] & Hr).
    assert (Hg : Gen.solveNQueensArray n = Normal tg)
      by (unfold Gen.solveNQueensArray; now rewrite Hr).
    destruct (computeTrace_sim n tr tg Et Hg) as [-> _].
    pose proof (count_of_generator n App.array_based tg Hg) as Hc.
    cbn [App.computeStatistics] in Hc. rewrite Hc.
    unfold solution_events, Gen.solutions. now rewrite length_map.
Qed.

Lemma thumbnails_are_the_solutions_witness :
  match TraceUi.handleFindSolutions 6
          (TraceUi.mkState [] [] 0 [] None None false true false) with
  | Normal s =>
      Gen.countSolutionsArray 6 = Normal (Z.of_nat (length (TraceUi.finalSolutions s)))
  | Throw _ => False
  end.
Proof.
  destruct (TraceUi.handleFindSolutions 6 _) as [s|] eqn:E; [|discriminate].
  apply (thumbnails_are_the_solutions 6 _ s E).
Defined.

(* ================================================================== *)
(** ** The masks of the bitmask strategy *)

(** X13: in every call the bitmask search reaches with 0 <= n <= 31,
    the masks are the queens already on the board: bit c of [columns]
    is set exactly when a queen stands in column c; bit c of [diag1]
    (of [diag2]) exactly when a queen of an earlier line r stands in
    column c - (row - r) (in column c + (row - r)). *)
Theorem masks_read_the_board (n row columns diag1 diag2 : Z) (b : array) :
  0 <= n <= 31 ->
  reachable n row columns diag1 diag2 b ->
  0 <= row <= n /\
  forall c, 0 <= c < 32 ->
    (Z.testbit columns c = true <->
       exists r, 0 <= r < row /\ get b r = Some c) /\
    (Z.testbit diag1 c = true <->
       exists r q, 0 <= r < row /\ get b r = Some q /\ q + (row - r) = c) /\
    (Z.testbit diag2 c = true <->
       exists r q, 0 <= r < row /\ get b r = Some q /\ q - (row - r) = c).
Proof.
  intros Hn Hr.
  destruct (reachable_inv n row columns diag1 diag2 b Hn Hr)
    as (p & -> & Hlen & -> & Hok & [Hc H1 H2 _]).
  split; [lia|]. intros c Hcr.
  assert (Hget : forall r q, 0 <= r < Z.of_nat (length p) ->
            (get (emb None (Z.to_nat n) p) r = Some q <->
             nth_error p (Z.to_nat r) = Some q)).
  { intros r q Hr'. split; intros H.
    - apply get_emb_queen in H; auto; try lia. discriminate.
    - rewrite <- (Z2Nat.id r) by lia. now apply get_emb. }
  assert (Hlt : forall j q, nth_error p j = Some q -> (j < length p)%nat).
  { intros j q H. apply nth_error_Some. congruence. }
  rewrite Hc, H1, H2 by lia. repeat split.
  - intros Hin. apply In_nth_error in Hin. destruct Hin as (j & Hj).
    exists (Z.of_nat j). pose proof (Hlt j c Hj). split; [lia|]. now apply get_emb.
  - intros (r & Hr' & Hg). apply Hget in Hg; auto. eapply nth_error_In; eauto.
  - intros (j & q & Hj & He). pose proof (Hlt j q Hj).
    exists (Z.of_nat j), q. repeat split; try lia. now apply get_emb.
  - intros (r & q & Hr' & Hg & He). apply Hget in Hg; auto.
    exists (Z.to_nat r), q. split; auto. lia.
  - intros (j & q & Hj & He). pose proof (Hlt j q Hj).
    exists (Z.of_nat j), q. repeat split; try lia. now apply get_emb.
  - intros (r & q & Hr' & Hg & He). apply Hget in Hg; auto.
    exists (Z.to_nat r), q. split; auto. lia.
Qed.

Lemma masks_read_the_board_witness :
  0 <= 4 <= 31 /\
  (Z.testbit 4 2 = true <->
   exists r q, 0 <= r < 1 /\ get [Some 1; None; None; None] r = Some q /\
               q + (1 - r) = 2).
Proof.
  split; [lia|].
  assert (Hr : reachable 4 1 2 4 1 [Some 1; None; None; None]).
  { apply (reach_pick 4 0 0 0 0 [None; None; None; None] 1 14 2).
    - now apply reach_start.
    - lia.
    - reflexivity.
    - lia.
    - reflexivity. }
  destruct (masks_read_the_board 4 1 2 4 1 _ ltac:(lia) Hr) as [_ H].
  destruct (H 2 ltac:(lia)) as (_ & H1 & _). exact H1.
Defined.

(** X14: whatever the masks, each turn of the [while] loop picks one
    free column: [pick] is a single bit [2^c] with [c] below the mask
    width [n mod 32], [Math.log2(pick)] is [c], and bit [c] is set in
    none of [columns], [diag1], [diag2]. *)
Theorem pick_is_a_free_column (n columns diag1 diag2 : Z) (k : nat) :
  let available := after_turns k (Gen.available_of n columns diag1 diag2) in
  available <> 0 ->
  exists c, 0 <= c < n mod 32 /\
    band available (- available) = 2 ^ c /\
    log2 (band available (- available)) = c /\
    Z.testbit columns c = false /\ Z.testbit diag1 c = false /\
    Z.testbit diag2 c = false.
Proof.
  intros a Hne.
  pose proof (MaskFacts.available_range n columns diag1 diag2) as Hav.
  destruct (after_turns_bits k _ Hav) as [Hrange Hsub]. fold a in Hrange, Hsub.
  destruct (pick_is_pow2 a Hrange Hne) as (c & Hc & Hbit & Hpick & Hlog).
  apply Hsub in Hbit; auto.
  pose proof (Z.mod_pos_bound n 32 ltac:(lia)) as Hm.
  unfold Gen.available_of, band in Hbit.
  rewrite low_mask, Z.land_spec, Z.testbit_ones_nonneg in Hbit by lia.
  apply andb_true_iff in Hbit. destruct Hbit as [Hlt Hfree].
  apply Z.ltb_lt in Hlt. unfold bnot, bor in Hfree.
  rewrite testbit_ToInt32, Z.lnot_spec, negb_true_iff in Hfree by lia.
  rewrite testbit_ToInt32, Z.lor_spec, orb_false_iff in Hfree by lia.
  rewrite !testbit_ToInt32, Z.lor_spec, orb_false_iff in Hfree by lia.
  rewrite !testbit_ToInt32 in Hfree by lia.
  exists c. tauto.
Qed.

Lemma pick_is_a_free_column_witness :
  exists c, 0 <= c < 4 mod 32 /\
    band 12 (- 12) = 2 ^ c /\ log2 (band 12 (- 12)) = c /\
    Z.testbit 2 c = false /\ Z.testbit 1 c = false /\ Z.testbit 0 c = false.
Proof.
  apply (pick_is_a_free_column 4 2 1 0 0). discriminate.
Defined.

(* ================================================================== *)
(** ** The size of a trace of computeTraceSteps *)

Definition is_placed (e : Trace.step) : bool :=
  match Trace.stat e with Trace.placed => true | _ => false end.

Definition tally (f : Trace.step -> bool) (tr : list Trace.step) : Z :=
  Z.of_nat (length (filter f tr)).

Module TallyFacts.

Lemma tally_app f l1 l2 : tally f (l1 ++ l2) = tally f l1 + tally f l2.
Proof. unfold tally. rewrite filter_app, length_app. lia. Qed.

Lemma tally_cons f e l :
  tally f (e :: l) = (if f e then 1 else 0) + tally f l.
Proof. unfold tally. simpl. destruct (f e); simpl length; lia. Qed.

Section Tally.
Variable n : Z.

(** [a - t = n * (p - s)] for the attempts, placements and solutions a
    call appends, [t] being the attempts of its own loop. *)
Definition law (t : Z) (evs : list Trace.step) : Prop :=
  tally is_attempt evs =
  t + n * (tally is_placed evs - tally Trace.is_solution evs).

Definition grows (f : Trace.state -> Trace.state) (P : list Trace.step -> Prop) : Prop :=
  forall s, exists evs, fst (f s) = fst s ++ evs /\ P evs.

Lemma for_row_law rec col :
  grows rec (law n) ->
  forall todo row, grows (Trace.for_row rec col todo row) (law (Z.of_nat todo)).
Proof.
  intros Hrec. induction todo as [|t IH]; intros row s.
  - exists []. simpl. rewrite app_nil_r. split; auto. unfold law, tally. simpl. lia.
  - cbn [Trace.for_row]. destruct (Trace.isSafe _ col row).
    + destruct (Hrec (Trace.push (Trace.store (Trace.push s Trace.attempt
                  (Some (Trace.mkCand col row))) col row) Trace.placed
                  (Some (Trace.mkCand col row)))) as (sub & Hsub & Hl).
      match goal with |- context [Trace.for_row rec col t (row + 1) ?s4] =>
        destruct (IH (row + 1) s4) as (rest & Hrest & Hl') end.
      rewrite Hrest. unfold Trace.push at 1. cbn [fst].
      unfold Trace.store at 1. cbn [fst]. rewrite Hsub.
      unfold Trace.push at 1. cbn [fst]. unfold Trace.store at 1. cbn [fst].
      unfold Trace.push at 1. cbn [fst].
      eexists. split; [rewrite <- !app_assoc; simpl; reflexivity|].
      unfold law in *.
      change (?a :: ?b :: sub ++ ?c :: rest) with ([a; b] ++ sub ++ [c] ++ rest).
      rewrite !tally_app, Hl, Hl', !tally_cons.
      change (tally is_attempt []) with 0. change (tally is_placed []) with 0.
      change (tally Trace.is_solution []) with 0.
      cbn [is_attempt is_placed Trace.is_solution Trace.stat].
      rewrite Nat2Z.inj_succ. ring.
    + match goal with |- context [Trace.for_row rec col t (row + 1) ?s1] =>
        destruct (IH (row + 1) s1) as (rest & Hrest & Hl') end.
      rewrite Hrest. unfold Trace.push at 1. cbn [fst].
      eexists. split; [rewrite <- !app_assoc; simpl; reflexivity|].
      unfold law in *. rewrite !tally_cons, Hl'.
      cbn [is_attempt is_placed Trace.is_solution Trace.stat].
      rewrite Nat2Z.inj_succ. ring.
Qed.

Lemma solve_law depth : forall col,
  0 <= n -> col <= n -> (Z.to_nat (n - col) <= depth)%nat ->
  grows (Trace.solve n depth col) (law n).
Proof.
  induction depth as [|d IH]; intros col Hn Hc Hd s; cbn [Trace.solve];
    destruct (Z.eqb_spec col n) as [->|Hne]; try lia.
  - exists [Trace.mkStep (snd s) None Trace.solution]. split; auto.
    unfold law, tally. simpl. lia.
  - exists [Trace.mkStep (snd s) None Trace.solution]. split; auto.
    unfold law, tally. simpl. lia.
  - destruct (for_row_law (Trace.solve n d (col + 1)) col
                ltac:(apply IH; lia) (Z.to_nat n) 0 s) as (evs & He & Hl).
    exists evs. split; auto. now rewrite Z2Nat.id in Hl by lia.
Qed.

End Tally.

End TallyFacts.

(** X15: computeTraceSteps tries all n cells of every line it opens:
    its trace has n attempt steps for the first line and n more for
    every placement that did not complete a solution, that is
    n * (1 + placed - solutions) attempts in all. *)
Theorem attempts_per_line (n : Z) (tr : list Trace.step) :
  Trace.computeTraceSteps n = Normal tr ->
  tally is_attempt tr =
  n * (1 + tally is_placed tr - tally Trace.is_solution tr).
Proof.
  unfold Trace.computeTraceSteps, Trace.runTrace.
  destruct (new_Array n) as [b|] eqn:E; [|discriminate].
  apply new_Array_Normal in E. destruct E as [Hn _]. cbn [cmap]. intros [= <-].
  destruct (TallyFacts.solve_law n (Z.to_nat n) 0 ltac:(lia) ltac:(lia)
              ltac:(lia) ([], fill b (-1))) as (evs & -> & Hl).
  cbn [fst app]. unfold TallyFacts.law in Hl. rewrite Hl. ring.
Qed.

Lemma attempts_per_line_witness :
  match Trace.computeTraceSteps 5 with
  | Normal tr =>
      tally is_attempt tr =
      5 * (1 + tally is_placed tr - tally Trace.is_solution tr)
  | Throw _ => False
  end.
Proof.
  destruct (Trace.computeTraceSteps 5) as [tr|] eqn:E; [|discriminate].
  apply (attempts_per_line 5 tr E).
Defined.

(* ================================================================== *)
(** ** The Board components *)

Module Render.

(** src/App.jsx, Board: the cell at ([row], [col]) of the grid, as
    ([hasQueen], [isHighlighted]). *)
Definition app_cell (board : array) (highlightedCell : option App.cell)
    (row col : Z) : bool * bool :=
  let hasQueen :=
    match get board row with
    | Some q => q =? col
    | None => false
    end in
  let isHighlighted :=
    match highlightedCell with
    | Some h =>
        match App.cell_row h, App.cell_col h with
        | Some r, Some c => (r =? row) && (c =? col)
        | _, _ => false
        end
    | None => false
    end in
  (hasQueen, isHighlighted).

(** The state after the timer calls that consumed the events [seen]. *)
Definition frame (seen : list Gen.step) (s : App.state) : App.state :=
  fold_left (fun s step => App.on_step step s) seen s.

(** The trace component, Board: the cell drawn for index [idx] of the
    [n * n] grid, as ([isQueen], the status of its overlay if any). *)
Definition trace_cell (boardState : array) (candidate : option Trace.candidate)
    (candidateStatus : option Trace.status) (n idx : Z)
  : bool * option Trace.status :=
  let row := idx / n in
  let col := idx mod n in
  let isQueen :=
    match get boardState col with
    | Some q => q =? row
    | None => false
    end in
  let overlay :=
    match candidate with
    | Some c =>
        if (Trace.col c =? col) && (Trace.row c =? row) then
          match candidateStatus with
          | Some Trace.attempt => Some Trace.attempt
          | Some Trace.backtrack => Some Trace.backtrack
          | _ => None
          end
        else None
    | None => None
    end in
  (isQueen, overlay).

End Render.

(** While events are consumed, the highlight is that of the last place
    or remove event seen, and the live board is the board of that event. *)
Definition shows (all : list Gen.step) (s : App.state) : Prop :=
  App.highlight s = None \/
  exists e, In e all /\ Gen.act e <> Gen.solution /\
            App.currentBoard s = Gen.board e /\
            App.highlight s = Some (App.mkCell (Gen.row e) (Gen.col e) (Gen.act e)).

Lemma frame_shows_event all seen : forall s,
  incl seen all -> shows all s -> shows all (Render.frame seen s).
Proof.
  induction seen as [|x seen IH]; intros s Hincl Hs; simpl; auto.
  apply IH; [intros z Hz; apply Hincl; now right|].
  assert (Hx : In x all) by (apply Hincl; now left).
  unfold App.on_step. destruct (Gen.act x) eqn:Ea; simpl.
  - right. exists x. rewrite Ea. repeat split; simpl; auto. discriminate.
  - right. exists x. rewrite Ea. repeat split; simpl; auto. discriminate.
  - destruct Hs as [Hs|(e & He & H1 & H2 & H3)]; [now left|].
    right. exists e. auto.
Qed.

(** X16: at every moment of an animation, the cell the live board
    highlights holds a queen, also while its "remove" event is shown. *)
Theorem highlighted_cell_holds_queen (n : Z) (alg : App.algorithm)
    (tr seen rest : list Gen.step) (s0 : App.state) (h : App.cell) :
  App.generator n alg = Normal tr -> tr = seen ++ rest ->
  App.highlight s0 = None ->
  App.highlight (Render.frame seen s0) = Some h ->
  exists r c, App.cell_row h = Some r /\ App.cell_col h = Some c /\
    Render.app_cell (App.currentBoard (Render.frame seen s0)) (Some h) r c =
    (true, true).
Proof.
  intros Hg -> H0 Hh.
  destruct (frame_shows_event seen seen s0 (incl_refl _) (or_introl H0))
    as [Hn|(e & He & Ha & Hb & Hc)].
  - rewrite Hh in Hn. discriminate.
  - rewrite Hh in Hc. injection Hc as ->. rewrite Hb.
    assert (Htr : Gen.solveNQueensArray n = Normal (seen ++ rest) \/
                  Gen.solveNQueensBitmask n = Normal (seen ++ rest))
      by (destruct alg; auto).
    pose proof (generator_shapes n _ Htr) as [_ Hs].
    rewrite Forall_forall in Hs.
    specialize (Hs e (in_or_app _ _ _ (or_introl He))).
    unfold ShapeFacts.gen_shape in Hs.
    assert (Hm : exists r c, Gen.row e = Some r /\ Gen.col e = Some c /\
                   get (Gen.board e) r = Some c).
    { destruct (Gen.act e); try congruence;
        destruct Hs as (q & c & H1 & H2 & H3 & _);
        exists (Z.of_nat (length q)), c; rewrite H3;
        repeat split; auto; apply ShapeFacts.get_emb_last. }
    destruct Hm as (r & c & Hr & Hc & Hget). exists r, c. simpl.
    unfold Render.app_cell. simpl. rewrite Hr, Hc, Hget, !Z.eqb_refl. auto.
Qed.

Lemma highlighted_cell_holds_queen_witness :
  Render.app_cell [Some 0; Some 2; None; None]
    (Some (App.mkCell (Some 1) (Some 2) Gen.remove)) 1 2 = (true, true).
Proof.
  assert (Htr : exists tr rest, App.generator 4 App.array_based = Normal tr /\
            tr = firstn 3 tr ++ rest /\
            Render.frame (firstn 3 tr) (App.mkState None [] None [] true) =
            App.mkState None [Some 0; Some 2; None; None]
              (Some (App.mkCell (Some 1) (Some 2) Gen.remove)) [] true).
  { eexists _, _. split; [vm_compute; reflexivity|].
    split; vm_compute; reflexivity. }
  destruct Htr as (tr & rest & Hg & Hsplit & Hf).
  destruct (highlighted_cell_holds_queen 4 App.array_based tr (firstn 3 tr) rest
              (App.mkState None [] None [] true)
              (App.mkCell (Some 1) (Some 2) Gen.remove) Hg Hsplit eq_refl)
    as (r & c & [= <-] & [= <-] & H).
  - now rewrite Hf.
  - rewrite Hf in H. exact H.
Defined.

Lemma computeTrace_size n tr :
  Trace.computeTraceSteps n = Normal tr -> 0 <= n <= 2 ^ 32 - 1.
Proof.
  unfold Trace.computeTraceSteps, Trace.runTrace.
  destruct (new_Array n) as [b|] eqn:E; [|discriminate].
  now apply new_Array_Normal in E.
Qed.

(** X17: in no step of a trace of computeTraceSteps does the Board draw
    an overlay over a queen: the candidate cell of an attempt or a
    backtrack step is empty on the board of that step. *)
Theorem overlay_never_covers_queen (n : Z) (tr : list Trace.step) (e : Trace.step)
    (idx : Z) (st : Trace.status) :
  Trace.computeTraceSteps n = Normal tr -> In e tr ->
  0 <= idx < n * n ->
  snd (Render.trace_cell (Trace.board e) (Trace.cand e) (Some (Trace.stat e))
         n idx) = Some st ->
  fst (Render.trace_cell (Trace.board e) (Trace.cand e) (Some (Trace.stat e))
         n idx) = false.
Proof.
  intros Htr He Hidx. unfold Render.trace_cell. cbn [fst snd].
  pose proof (computeTrace_shapes n tr Htr) as Hs.
  rewrite Forall_forall in Hs. specialize (Hs e He).
  unfold ShapeFacts.step_shape in Hs.
  pose proof (computeTrace_size n tr Htr) as Hn0.
  assert (Hn : 0 < n) by nia.
  pose proof (Z.mod_pos_bound idx n Hn) as Hm.
  assert (Hd : 0 <= idx / n) by (apply Z.div_pos; lia).
  destruct (Trace.cand e) as [c|]; [|discriminate].
  destruct ((Trace.col c =? idx mod n) && (Trace.row c =? idx / n)) eqn:Ec;
    [|discriminate].
  apply andb_true_iff in Ec. destruct Ec as [Hc Hr].
  apply Z.eqb_eq in Hc. apply Z.eqb_eq in Hr.
  destruct (Trace.stat e); try discriminate; intros _;
    destruct Hs as (q & r & [= ->] & -> & Hlen & _); simpl in Hc;
    rewrite <- Hc, ShapeFacts.get_emb_unset by lia; apply Z.eqb_neq; lia.
Qed.

Lemma overlay_never_covers_queen_witness :
  0 <= 1 < 3 * 3 /\
  fst (Render.trace_cell [Some 0; Some (-1); Some (-1)]
         (Some (Trace.mkCand 1 0)) (Some Trace.attempt) 3 1) = false.
Proof.
  split; [lia|].
  assert (Htr : exists tr, Trace.computeTraceSteps 3 = Normal tr /\
            nth_error tr 2 = Some (Trace.mkStep [Some 0; Some (-1); Some (-1)]
                                     (Some (Trace.mkCand 1 0)) Trace.attempt)).
  { eexists. split; vm_compute; reflexivity. }
  destruct Htr as (tr & Htr & He). apply nth_error_In in He.
  apply (overlay_never_covers_queen 3 tr _ 1 Trace.attempt Htr He); [lia|].
  reflexivity.
Defined.
